(** * Cathedral rules engine (open_spiel/games/cathedral): a shallow embedding

    The development follows cathedral.h / cathedral.cc: squares and
    rotations, the catalogue of the fourteen buildings with their
    pre-calculated forms and corners, moves and their integer encoding,
    the players' inventories, the board, and the engine state with move
    application, region capture, turn update, undo-by-replay and scoring.

    Conventions.
    - C++ [int] values are integers of [Z].  Signed overflow is undefined
      in the source and cannot occur on the small quantities handled here
      (coordinates, indices, action ids below 5600); the two conversions
      of the source have their wrap-around written out ([int_wrap]): the
      framework's 64-bit [Action] narrowed to [int] where a Move is
      constructed from it ([Move_of_action]), and the mix of [int] with
      [size_t] in [calc_score].
    - C++ integer division and remainder truncate towards zero: [Z.quot]
      and [Z.rem].
    - A C++ exception, or an access the language leaves undefined
      (indexing outside a [std::array] or [std::vector]), ends the
      computation: operations that can do so return in the monad [M]. *)

From stdpp Require Import base list.
From Stdlib Require Import ZArith Lia Bool Sorted Ascii.

Local Open Scope Z_scope.

(** ** Exceptions and the result monad *)

Inductive exn : Type :=
| invalid_argument      (* std::invalid_argument, thrown by Move::Move *)
| out_of_range          (* std::out_of_range, thrown by use_building *)
| undefined_behaviour   (* out-of-bounds subscript *)
| loop_budget.          (* the flood-fill budget of the model ran out *)

Inductive M (A : Type) : Type :=
| Ok (a : A)
| Throw (e : exn).
Arguments Ok {A} a.
Arguments Throw {A} e.

Definition bind {A B} (m : M A) (f : A -> M B) : M B :=
  match m with
  | Ok a => f a
  | Throw e => Throw e
  end.

Notation "'let*' x ':=' c1 'in' c2" := (bind c1 (fun x => c2))
  (at level 10, x pattern, c1 at level 100, c2 at level 200).

(** Run [f] over a list, threading an accumulator, stopping at the first
    exception: the shape of every range-for loop with a mutating body. *)
Fixpoint foldM {A S} (f : S -> A -> M S) (l : list A) (s : S) : M S :=
  match l with
  | [] => Ok s
  | a :: l' => let* s' := f s a in foldM f l' s'
  end.

(** ** Constants of cathedral.h *)

Definition num_players : Z := 2.
Definition board_width : Z := 10.
Definition board_height : Z := 10.
Definition board_size : Z := board_width * board_height.
Definition range_of_nn_distribution : Z := 5600.
Definition max_game_length : Z := 40.
Definition max_rotations : Z := 4.

(** ** Enumerations *)

Inductive BuildingType : Type :=
| Tavern | Stable | Inn | Bridge | Manor | Square_
| Black_Abbey | White_Abbey | Black_Academy | White_Academy
| Infirmary | Castle | Tower | Cathedral.

Inductive Rotation : Type := ROTATE_0 | ROTATE_90 | ROTATE_180 | ROTATE_270.

Inductive Turnable : Type := NO | HALF | FULL.

Inductive CellState : Type :=
| EMPTY | BLUE | BLACK | BLACK_REGION | WHITE | WHITE_REGION.

#[export] Instance BuildingType_eq_dec : EqDecision BuildingType.
Proof. solve_decision. Defined.
#[export] Instance Rotation_eq_dec : EqDecision Rotation.
Proof. solve_decision. Defined.
#[export] Instance CellState_eq_dec : EqDecision CellState.
Proof. solve_decision. Defined.
#[export] Instance exn_eq_dec : EqDecision exn.
Proof. solve_decision. Defined.

(** [static_cast<int>] on each enumeration. *)
Definition building_index (t : BuildingType) : Z :=
  match t with
  | Tavern => 0 | Stable => 1 | Inn => 2 | Bridge => 3 | Manor => 4
  | Square_ => 5 | Black_Abbey => 6 | White_Abbey => 7
  | Black_Academy => 8 | White_Academy => 9 | Infirmary => 10
  | Castle => 11 | Tower => 12 | Cathedral => 13
  end.

Definition all_building_types : list BuildingType :=
  [Tavern; Stable; Inn; Bridge; Manor; Square_; Black_Abbey; White_Abbey;
   Black_Academy; White_Academy; Infirmary; Castle; Tower; Cathedral].

(** [static_cast<BuildingType>(i)]; [None] when [i] names no enumerator. *)
Definition building_of_index (i : Z) : option BuildingType :=
  if (0 <=? i) && (i <? 14) then all_building_types !! Z.to_nat i else None.

Definition rotation_index (r : Rotation) : Z :=
  match r with
  | ROTATE_0 => 0 | ROTATE_90 => 1 | ROTATE_180 => 2 | ROTATE_270 => 3
  end.

Definition rotation_of_index (i : Z) : option Rotation :=
  if (0 <=? i) && (i <? 4)
  then [ROTATE_0; ROTATE_90; ROTATE_180; ROTATE_270] !! Z.to_nat i
  else None.

Definition turnable_index (t : Turnable) : Z :=
  match t with NO => 0 | HALF => 1 | FULL => 3 end.

Definition CellState_eqb (a b : CellState) : bool := bool_decide (a = b).
Definition BuildingType_eqb (a b : BuildingType) : bool := bool_decide (a = b).
Definition Rotation_eqb (a b : Rotation) : bool := bool_decide (a = b).

Definition common_buildings : list BuildingType :=
  [Tavern; Stable; Inn; Bridge; Manor; Square_; Infirmary; Castle; Tower].
Definition black_specific_buildings : list BuildingType :=
  [Black_Abbey; Black_Academy].
Definition white_specific_buildings : list BuildingType :=
  [Cathedral; White_Abbey; White_Academy].

(** ** Geometry: struct Square *)

Record Square : Type := mkSquare { sq_x : Z; sq_y : Z }.

#[export] Instance Square_eq_dec : EqDecision Square.
Proof. solve_decision. Defined.

Definition dx (r : Rotation) : Z :=
  match r with ROTATE_0 => 1 | ROTATE_90 => 0 | ROTATE_180 => -1 | ROTATE_270 => 0 end.
Definition dy (r : Rotation) : Z :=
  match r with ROTATE_0 => 0 | ROTATE_90 => 1 | ROTATE_180 => 0 | ROTATE_270 => -1 end.

(** Square::rotate *)
Definition Square_rotate (s : Square) (r : Rotation) : Square :=
  mkSquare (sq_x s * dx r - sq_y s * dy r) (sq_y s * dx r + sq_x s * dy r).

(** Square::operator+ *)
Definition Square_add (s o : Square) : Square :=
  mkSquare (sq_x s + sq_x o) (sq_y s + sq_y o).

(** Square::operator== *)
Definition Square_eqb (s o : Square) : bool :=
  (sq_x s =? sq_x o) && (sq_y s =? sq_y o).

(** Square::operator< : by row, then by column. *)
Definition Square_ltb (s o : Square) : bool :=
  if sq_y s =? sq_y o then sq_x s <? sq_x o else sq_y s <? sq_y o.

(** ** std::set<Square> ordered by operator<, as a list

    [set_insert] keeps one copy of equivalent keys (neither is less than
    the other) and places a new key before the first greater one;
    [set_erase] drops the keys equivalent to its argument. *)

Fixpoint set_insert (s : Square) (l : list Square) : list Square :=
  match l with
  | [] => [s]
  | h :: t =>
      if Square_ltb s h then s :: l
      else if Square_ltb h s then h :: set_insert s t
      else l
  end.

Definition set_erase (s : Square) (l : list Square) : list Square :=
  List.filter (fun h => Square_ltb s h || Square_ltb h s) l.

(** ** The building catalogue: class Building *)

Record Building : Type := mkBuildingRecord {
  how_many : Z;
  turnable : Turnable;
  default_form_ : list Square;
  pre_calculated_forms_ : list (list Square);
  pre_calculated_corners_ : list (list Square)
}.

(** Building::rotate_form *)
Definition rotate_form (form : list Square) (r : Rotation) : list Square :=
  List.map (fun sq => Square_rotate sq r) form.

(** The rotations visited by [for (rotation = 0; rotation <= turnable_; ++rotation)]. *)
Definition rotations_upto (t : Turnable) : list Rotation :=
  match t with
  | NO => [ROTATE_0]
  | HALF => [ROTATE_0; ROTATE_90]
  | FULL => [ROTATE_0; ROTATE_90; ROTATE_180; ROTATE_270]
  end.

(** Building::pre_calculate_forms *)
Definition pre_calculate_forms (t : Turnable) (form : list Square) : list (list Square) :=
  List.map (rotate_form form) (rotations_upto t).

(** The four insertions made for one square of a form. *)
Definition insert_neighbours (corner_set : list Square) (sq : Square) : list Square :=
  set_insert (mkSquare (sq_x sq) (sq_y sq - 1))
    (set_insert (mkSquare (sq_x sq) (sq_y sq + 1))
      (set_insert (mkSquare (sq_x sq - 1) (sq_y sq))
        (set_insert (mkSquare (sq_x sq + 1) (sq_y sq)) corner_set))).

(** The body of the loop of Building::pre_calculate_corners for one form. *)
Definition corners_of_form (form : list Square) : list Square :=
  let inserted := fold_left insert_neighbours form [] in
  fold_left (fun cs sq => set_erase sq cs) form inserted.

(** Building::pre_calculate_corners *)
Definition pre_calculate_corners (forms : list (list Square)) : list (list Square) :=
  List.map corners_of_form forms.

(** The constructor Building::Building. *)
Definition mkBuilding (n : Z) (t : Turnable) (form : list Square) : Building :=
  let forms := pre_calculate_forms t form in
  mkBuildingRecord n t form forms (pre_calculate_corners forms).

Definition sq (x y : Z) : Square := mkSquare x y.

(** Building::create_instances *)
Definition create_instances : list Building :=
  [ mkBuilding 2 NO   [sq 0 0];                                             (* tavern *)
    mkBuilding 2 HALF [sq 0 0; sq 1 0];                                     (* stable *)
    mkBuilding 2 FULL [sq 0 0; sq 1 0; sq 1 1];                             (* inn *)
    mkBuilding 1 HALF [sq 0 0; sq 0 (-1); sq 0 1];                          (* bridge *)
    mkBuilding 1 FULL [sq (-1) 0; sq 0 0; sq 1 0; sq 0 1];                  (* manor *)
    mkBuilding 1 NO   [sq 0 0; sq 0 1; sq 1 0; sq 1 1];                     (* square *)
    mkBuilding 1 HALF [sq (-1) 0; sq 0 0; sq 0 1; sq 1 1];                  (* black abbey *)
    mkBuilding 1 HALF [sq (-1) 1; sq 0 0; sq 0 1; sq 1 0];                  (* white abbey *)
    mkBuilding 1 FULL [sq (-1) 0; sq 0 (-1); sq 0 0; sq 0 1; sq 1 (-1)];    (* black academy *)
    mkBuilding 1 FULL [sq (-1) (-1); sq 0 (-1); sq 0 0; sq 0 1; sq 1 0];    (* white academy *)
    mkBuilding 1 NO   [sq (-1) 0; sq 0 (-1); sq 0 0; sq 0 1; sq 1 0];       (* infirmary *)
    mkBuilding 1 FULL [sq (-1) 0; sq (-1) 1; sq 0 0; sq 1 0; sq 1 1];       (* castle *)
    mkBuilding 1 FULL [sq (-1) (-1); sq 0 (-1); sq 0 0; sq 1 0; sq 1 1];    (* tower *)
    mkBuilding 1 FULL [sq (-1) 0; sq 0 (-1); sq 0 0; sq 0 1; sq 0 2; sq 1 0] (* cathedral *)
  ].

(** The function-local static of Building::get_instance, computed once. *)
Definition instances : list Building := Eval vm_compute in create_instances.

(** Building::get_instance: every enumerator indexes inside the vector, so
    the default is never returned. *)
Definition get_instance (t : BuildingType) : Building :=
  List.nth (Z.to_nat (building_index t)) instances (mkBuilding 0 NO []).

(** Building::translate_positions *)
Definition translate_positions (positions : list Square) (pos : Square) : list Square :=
  List.map (fun s => Square_add s pos) positions.

(** Building::form(Rotation) and Building::corners(Rotation): subscripts
    into the pre-calculated vectors, undefined beyond their size. *)
Definition Building_form_rot (b : Building) (r : Rotation) : M (list Square) :=
  match pre_calculated_forms_ b !! Z.to_nat (rotation_index r) with
  | Some f => Ok f
  | None => Throw undefined_behaviour
  end.

Definition Building_corners_rot (b : Building) (r : Rotation) : M (list Square) :=
  match pre_calculated_corners_ b !! Z.to_nat (rotation_index r) with
  | Some f => Ok f
  | None => Throw undefined_behaviour
  end.

(** Building::form(Rotation, Square) and Building::corners(Rotation, Square) *)
Definition Building_form (b : Building) (r : Rotation) (pos : Square) : M (list Square) :=
  let* rotated_form := Building_form_rot b r in
  Ok (translate_positions rotated_form pos).

Definition Building_corners (b : Building) (r : Rotation) (pos : Square) : M (list Square) :=
  let* rotated_corners := Building_corners_rot b r in
  Ok (translate_positions rotated_corners pos).

(** ** class Move *)

Record Move : Type := mkMoveRecord {
  form : list Square;
  corners : list Square;
  pos : Square;
  building_type : BuildingType;
  rotation : Rotation
}.

(** Move::Move(const Square&, const BuildingType&, Rotation) *)
Definition Move_new (position : Square) (type : BuildingType) (rot : Rotation) : M Move :=
  let building := get_instance type in
  let max_rotation := turnable_index (turnable building) in
  if rotation_index rot >? max_rotation then Throw invalid_argument
  else
    let* f := Building_form building rot position in
    let* c := Building_corners building rot position in
    Ok (mkMoveRecord f c position type rot).

(** Move::encode *)
Definition encode (m : Move) : Z :=
  building_index (building_type m) * board_size * max_rotations
  + rotation_index (rotation m) * board_size
  + sq_y (pos m) * board_width + sq_x (pos m).

(** Move::decode_move.  The two casts accept any integer; a building
    index that names no enumerator leads to a subscript outside the
    catalogue in the constructor, and a negative rotation index to one
    outside the pre-calculated forms. *)
Definition decode_move (action : Z) : M Move :=
  let building_type := Z.quot action (board_size * max_rotations) in
  let rotation_idx := Z.quot (Z.rem action (board_size * max_rotations)) board_size in
  let y := Z.quot (Z.rem action board_size) board_width in
  let x := Z.rem action board_width in
  match building_of_index building_type, rotation_of_index rotation_idx with
  | Some type, Some rot => Move_new (mkSquare x y) type rot
  | _, _ => Throw undefined_behaviour
  end.

(** Conversion of a mathematical integer to a 32-bit [int]. *)
Definition int_wrap (z : Z) : Z := (z + 2 ^ 31) mod 2 ^ 32 - 2 ^ 31.

(** Move::Move(int action).  The framework's [Action] is a 64-bit integer,
    narrowed to [int] at this call. *)
Definition Move_of_action (action : Z) : M Move := decode_move (int_wrap action).

(** Move::operator== compares type, rotation and anchor only. *)
Definition Move_eqb (a b : Move) : bool :=
  BuildingType_eqb (building_type a) (building_type b)
  && Rotation_eqb (rotation a) (rotation b)
  && Square_eqb (pos a) (pos b).

(** get_square_color *)
Definition get_square_color (m : Move) (player : Z) : CellState :=
  if BuildingType_eqb (building_type m) Cathedral then BLUE
  else if player =? 0 then WHITE
  else if player =? 1 then BLACK
  else EMPTY.

(** ** class Playerpieces *)

Record Playerpieces : Type := mkPlayerpieces {
  available_buildings_ : list Z;                 (* std::array<int, 14> *)
  specific_building_types_ : list BuildingType
}.

(** [available_buildings_[static_cast<int>(type)]] *)
Definition available_count (p : Playerpieces) (t : BuildingType) : Z :=
  List.nth (Z.to_nat (building_index t)) (available_buildings_ p) 0.

Definition set_available_count (p : Playerpieces) (t : BuildingType) (n : Z) : Playerpieces :=
  mkPlayerpieces (<[Z.to_nat (building_index t) := n]> (available_buildings_ p))
                 (specific_building_types_ p).

(** Playerpieces::is_building_available *)
Definition is_building_available (p : Playerpieces) (t : BuildingType) : bool :=
  available_count p t >? 0.

(** Playerpieces::use_building *)
Definition use_building (p : Playerpieces) (t : BuildingType) : M Playerpieces :=
  if negb (is_building_available p t) then Throw out_of_range
  else Ok (set_available_count p t (available_count p t - 1)).

(** Playerpieces::return_building *)
Definition return_building (p : Playerpieces) (t : BuildingType) : Playerpieces :=
  if negb (BuildingType_eqb t Cathedral)
  then set_available_count p t (available_count p t + 1)
  else p.

(** Playerpieces::get_available_building_types: the enumerators in index
    order whose count is positive. *)
Definition get_available_building_types (p : Playerpieces) : list BuildingType :=
  List.filter (fun t => available_count p t >? 0) all_building_types.

(** Playerpieces::initialize_building_availability *)
Definition initialize_building_availability (p : Playerpieces) : Playerpieces :=
  let zero := mkPlayerpieces (List.repeat 0 14) (specific_building_types_ p) in
  let add := fun q t => set_available_count q t (available_count q t + how_many (get_instance t)) in
  let common := fold_left add common_buildings zero in
  fold_left add (specific_building_types_ p) common.

(** Playerpieces::reset_building_availability *)
Definition reset_building_availability (p : Playerpieces) : Playerpieces :=
  initialize_building_availability p.

(** The constructor Playerpieces::Playerpieces. *)
Definition Playerpieces_new (specific : list BuildingType) : Playerpieces :=
  initialize_building_availability (mkPlayerpieces (List.repeat 0 14) specific).

(** ** class Board *)

Record Board : Type := mkBoard {
  field : list (list CellState)      (* field[y][x], 10 rows of 10 cells *)
}.

(** Board::Board *)
Definition Board_new : Board := mkBoard (List.repeat (List.repeat EMPTY 10) 10).

(** Board::is_on_board *)
Definition is_on_board (s : Square) : bool :=
  (sq_x s >=? 0) && (sq_x s <? 10) && (sq_y s >=? 0) && (sq_y s <? 10).

(** A read of [field[square.y][square.x]].  Every read in the source is
    guarded by [is_on_board]; the value returned here for a square off the
    board is never looked at. *)
Definition cell (b : Board) (s : Square) : CellState :=
  List.nth (Z.to_nat (sq_x s)) (List.nth (Z.to_nat (sq_y s)) (field b) []) EMPTY.

(** A write [field[square.y][square.x] = color]; outside the array the
    source has undefined behaviour. *)
Definition set_cell (b : Board) (s : Square) (color : CellState) : M Board :=
  if is_on_board s
  then Ok (mkBoard (alter (fun row => <[Z.to_nat (sq_x s) := color]> row)
                          (Z.to_nat (sq_y s)) (field b)))
  else Throw undefined_behaviour.

(** Board::color_is_compatible *)
Definition color_is_compatible (on_position to_place : CellState) : bool :=
  CellState_eqb on_position EMPTY
  || (CellState_eqb on_position BLACK_REGION && CellState_eqb to_place BLACK)
  || (CellState_eqb on_position WHITE_REGION && CellState_eqb to_place WHITE).

(** Board::is_move_valid: the loop returns false at the first square that
    is off the board or incompatible. *)
Definition is_move_valid (b : Board) (m : Move) (player : Z) : bool :=
  let building_color := get_square_color m player in
  forallb (fun square =>
             negb (negb (is_on_board square)
                   || negb (color_is_compatible (cell b square) building_color)))
          (form m).

(** Board::place_color *)
Definition place_color (b : Board) (form : list Square) (color : CellState) : M Board :=
  foldM (fun b square => set_cell b square color) form b.

(** ** The engine state: class CathedralState

    [history_] and [move_number_] are the members inherited from the
    framework's [State]; the rest are the members declared in
    cathedral.h.  [players] is the two-element array, as a pair. *)

Record PlayerAction : Type := mkPlayerAction { player : Z; action : Z }.

Record PlayerMove : Type := mkPlayerMove { pm_player : Z; pm_move : Move }.

Record CathedralState : Type := mkState {
  history_ : list PlayerAction;
  move_number_ : Z;
  players : Playerpieces * Playerpieces;
  initial_board : Board;
  removed_moves : list PlayerMove;
  board : Board;
  current_player_ : Z;
  outcome_ : Z
}.

Definition with_board (s : CathedralState) (b : Board) : CathedralState :=
  mkState (history_ s) (move_number_ s) (players s) (initial_board s)
          (removed_moves s) b (current_player_ s) (outcome_ s).
Definition with_players (s : CathedralState) (ps : Playerpieces * Playerpieces) : CathedralState :=
  mkState (history_ s) (move_number_ s) ps (initial_board s)
          (removed_moves s) (board s) (current_player_ s) (outcome_ s).
Definition with_removed_moves (s : CathedralState) (r : list PlayerMove) : CathedralState :=
  mkState (history_ s) (move_number_ s) (players s) (initial_board s)
          r (board s) (current_player_ s) (outcome_ s).
Definition with_current_player (s : CathedralState) (p : Z) : CathedralState :=
  mkState (history_ s) (move_number_ s) (players s) (initial_board s)
          (removed_moves s) (board s) p (outcome_ s).

(** [players[i]]: a subscript into an array of two. *)
Definition players_at (ps : Playerpieces * Playerpieces) (i : Z) : M Playerpieces :=
  if i =? 0 then Ok (fst ps)
  else if i =? 1 then Ok (snd ps)
  else Throw undefined_behaviour.

Definition set_players_at (ps : Playerpieces * Playerpieces) (i : Z) (p : Playerpieces)
  : Playerpieces * Playerpieces :=
  if i =? 0 then (p, snd ps) else (fst ps, p).

(** operator==(const PlayerMove&, const PlayerMove&) *)
Definition PlayerMove_eqb (l r : PlayerMove) : bool :=
  (pm_player l =? pm_player r) && Move_eqb (pm_move l) (pm_move r).

(** CathedralState::get_move_count *)
Definition get_move_count (s : CathedralState) : Z := Z.of_nat (length (history_ s)).

(** CathedralState::is_piece_removed: builds the PlayerMove from the
    action (which constructs the Move) and looks it up with std::find. *)
Definition is_piece_removed (s : CathedralState) (pa : PlayerAction) : M bool :=
  let* m := Move_of_action (action pa) in
  Ok (existsb (fun r => PlayerMove_eqb r (mkPlayerMove (player pa) m)) (removed_moves s)).

(** CathedralState::is_in_region *)
Definition is_in_region (position : Square) (region : list Square) : bool :=
  existsb (fun r => Square_eqb r position) region.

(** CathedralState::get_sub_color *)
Definition get_sub_color (color : CellState) : CellState :=
  match color with
  | BLACK => BLACK_REGION
  | WHITE => WHITE_REGION
  | _ => EMPTY
  end.

(** The anchors and rotations tried by the three nested loops of
    get_possible_moves(type, player): rows, then columns, then rotations. *)
Definition candidate_placements (t : Turnable) : list (Square * Rotation) :=
  List.flat_map
    (fun y => List.flat_map
                (fun x => List.map (fun r => (mkSquare x y, r)) (rotations_upto t))
                (seqZ 0 10))
    (seqZ 0 10).

(** The body of those loops: construct the Move, keep it when the board
    accepts it.  Constructing a Move changes no state, so the list is
    built from the back. *)
Fixpoint collect_valid_moves (b : Board) (type : BuildingType) (p : Z)
    (cands : list (Square * Rotation)) : M (list Move) :=
  match cands with
  | [] => Ok []
  | (position, rot) :: rest =>
      let* current_move := Move_new position type rot in
      let* possible_moves := collect_valid_moves b type p rest in
      Ok (if is_move_valid b current_move p
          then current_move :: possible_moves else possible_moves)
  end.

(** CathedralState::get_possible_moves(const BuildingType&, Player) *)
Definition get_possible_moves_of_type (s : CathedralState) (type : BuildingType) (p : Z)
  : M (list Move) :=
  let* pieces := players_at (players s) p in
  if negb (is_building_available pieces type) then Ok []
  else collect_valid_moves (board s) type p
         (candidate_placements (turnable (get_instance type))).

(** The loop shared by is_finished and update_current_player: does some
    type of the list admit a placement for [p]?  It stops at the first
    type that does. *)
Fixpoint any_type_has_moves (s : CathedralState) (p : Z) (types : list BuildingType) : M bool :=
  match types with
  | [] => Ok false
  | type :: rest =>
      let* moves := get_possible_moves_of_type s type p in
      match moves with
      | [] => any_type_has_moves s p rest
      | _ :: _ => Ok true
      end
  end.

Definition player_has_moves (s : CathedralState) (p : Z) : M bool :=
  let* pieces := players_at (players s) p in
  any_type_has_moves s p (get_available_building_types pieces).

(** CathedralState::is_finished *)
Definition is_finished (s : CathedralState) : M bool :=
  let* first := player_has_moves s (Z.rem (current_player_ s + 0) 2) in
  if first then Ok false
  else
    let* second := player_has_moves s (Z.rem (current_player_ s + 1) 2) in
    Ok (negb second).

(** CathedralState::update_current_player *)
Definition update_current_player (s : CathedralState) : M CathedralState :=
  let next_player := Z.rem (current_player_ s + 1) 2 in
  let* has_moves := player_has_moves s next_player in
  if has_moves then Ok (with_current_player s next_player) else Ok s.

(** CathedralState::generate_all_possible_moves *)
Definition generate_all_possible_moves (s : CathedralState) : M (list Move) :=
  let* pieces := players_at (players s) (current_player_ s) in
  foldM (fun all_possible_moves type =>
           let* moves := get_possible_moves_of_type s type (current_player_ s) in
           Ok (all_possible_moves ++ moves))
        (get_available_building_types pieces) [].

(** CathedralState::get_possible_moves(Player) *)
Definition get_possible_moves_for (s : CathedralState) (p : Z) : M (list Move) :=
  if negb (p =? current_player_ s) then Ok []
  else if get_move_count s =? 0
       then get_possible_moves_of_type s (List.hd Cathedral white_specific_buildings) p
       else generate_all_possible_moves s.

(** CathedralState::get_possible_moves() *)
Definition get_possible_moves (s : CathedralState) : M (list Move) :=
  get_possible_moves_for s (current_player_ s).

(** ** Region capture *)

(** CathedralState::remove_move *)
Definition clear_squares (b : Board) (squares : list Square) : M Board :=
  foldM (fun b square => if is_on_board square then set_cell b square EMPTY else Ok b)
        squares b.

Definition remove_move (s : CathedralState) (pm : PlayerMove) : M CathedralState :=
  let* b := clear_squares (board s) (form (pm_move pm)) in
  let s1 := with_removed_moves (with_board s b) (removed_moves s ++ [pm]) in
  let* owner := players_at (players s1) (pm_player pm) in
  Ok (with_players s1
        (set_players_at (players s1) (pm_player pm)
           (return_building owner (building_type (pm_move pm))))).

(** CathedralState::get_all_enemy_buildings_in_region *)
Fixpoint enemy_buildings_loop (s : CathedralState) (region : list Square)
    (enemy_color : CellState) (h : list PlayerAction) : M (list PlayerMove) :=
  match h with
  | [] => Ok []
  | player_action :: rest =>
      let* removed := is_piece_removed s player_action in
      if removed then enemy_buildings_loop s region enemy_color rest
      else
        let* move := Move_of_action (action player_action) in
        let* others := enemy_buildings_loop s region enemy_color rest in
        Ok (if is_in_region (pos move) region
               && negb (CellState_eqb (get_square_color move (player player_action))
                                      enemy_color)
            then mkPlayerMove (player player_action) move :: others
            else others)
  end.

Definition get_all_enemy_buildings_in_region (s : CathedralState) (region : list Square)
    (enemy_color : CellState) : M (list PlayerMove) :=
  enemy_buildings_loop s region enemy_color (history_ s).

(** CathedralState::process_region *)
Definition recolor_region (b : Board) (region : list Square) (owned_color : CellState)
  : M Board :=
  foldM (fun b square => set_cell b square owned_color) region b.

Definition process_region (s : CathedralState) (region : list Square) (color : CellState)
  : M CathedralState :=
  let* player_moves_in_region := get_all_enemy_buildings_in_region s region color in
  if Z.of_nat (length player_moves_in_region) <? 2 then
    let* s1 := foldM remove_move player_moves_in_region s in
    let owned_color := get_sub_color color in
    let* b := recolor_region (board s1) region owned_color in
    Ok (with_board s1 b)
  else Ok s.

(** The local array [field_without_color] of build_regions: 1 where the
    board cell is not of the sweep's colour. *)
Definition field_without_color (b : Board) (color : CellState) : list (list Z) :=
  List.map (fun y =>
              List.map (fun x => if negb (CellState_eqb (cell b (mkSquare x y)) color)
                                 then 1 else 0)
                       (seqZ 0 10))
           (seqZ 0 10).

Definition mask_at (mask : list (list Z)) (s : Square) : Z :=
  List.nth (Z.to_nat (sq_x s)) (List.nth (Z.to_nat (sq_y s)) mask []) 0.

Definition mask_clear (mask : list (list Z)) (s : Square) : list (list Z) :=
  alter (fun row => <[Z.to_nat (sq_x s) := 0]> row) (Z.to_nat (sq_y s)) mask.

(** The eight neighbours in the order of the two nested loops over
    [dy] and [dx] in -1..1, the centre skipped. *)
Definition neighbour_offsets : list (Z * Z) :=
  List.flat_map
    (fun ddy => List.flat_map
                  (fun ddx => if negb (ddx =? 0) || negb (ddy =? 0) then [(ddx, ddy)] else [])
                  (seqZ (-1) 3))
    (seqZ (-1) 3).

(** One pass of the inner [for] loops for the field just popped. *)
Definition visit_neighbours (current_field : Square)
    (acc : list (list Z) * list Square) : list (list Z) * list Square :=
  fold_left
    (fun (a : list (list Z) * list Square) (d : Z * Z) =>
       let square := mkSquare (sq_x current_field + fst d) (sq_y current_field + snd d) in
       if is_on_board square && (mask_at (fst a) square =? 1)
       then (mask_clear (fst a) square, snd a ++ [square])
       else a)
    neighbour_offsets acc.

(** The [while (!free_fields_to_look_at.empty())] loop.  Every push
    clears a mask bit, so the loop runs at most once per board cell; the
    budget is the number of iterations allowed. *)
Fixpoint flood_fill (budget : nat) (mask : list (list Z)) (queue region : list Square)
  : M (list (list Z) * list Square) :=
  match queue with
  | [] => Ok (mask, region)
  | current_field :: rest =>
      match budget with
      | O => Throw loop_budget
      | S budget' =>
          let a := visit_neighbours current_field (mask, rest) in
          flood_fill budget' (fst a) (snd a) (region ++ [current_field])
      end
  end.

(** The body of [while (runner < 100)] for one value of [runner]. *)
Definition sweep_cell (color : CellState) (acc : CathedralState * list (list Z)) (runner : Z)
  : M (CathedralState * list (list Z)) :=
  let x := Z.rem runner 10 in
  let y := Z.quot runner 10 in
  if mask_at (snd acc) (mkSquare x y) =? 1 then
    let* found := flood_fill 100 (mask_clear (snd acc) (mkSquare x y)) [mkSquare x y] [] in
    let* s' := process_region (fst acc) (snd found) color in
    Ok (s', fst found)
  else Ok acc.

(** The sweep of build_regions for one colour. *)
Definition sweep_color (s : CathedralState) (color : CellState) : M CathedralState :=
  let* r := foldM (sweep_cell color) (seqZ 0 100) (s, field_without_color (board s) color) in
  Ok (fst r).

(** CathedralState::build_regions *)
Definition build_regions (s : CathedralState) : M CathedralState :=
  foldM sweep_color [BLACK; WHITE] s.

(** The corner loop of place_building: count the corners that are off the
    board, of the placed colour, or any corner at all when the move count
    is 3; at the second one run build_regions and leave the loop. *)
Fixpoint count_connections (s : CathedralState) (color : CellState)
    (corners : list Square) (number_of_connections : Z) : M CathedralState :=
  match corners with
  | [] => Ok s
  | square :: rest =>
      if negb (is_on_board square)
         || CellState_eqb (cell (board s) square) color
         || (get_move_count s =? 3)
      then
        if number_of_connections + 1 >? 1 then build_regions s
        else count_connections s color rest (number_of_connections + 1)
      else count_connections s color rest number_of_connections
  end.

(** CathedralState::place_building *)
Definition place_building (s : CathedralState) (m : Move) : M CathedralState :=
  let color := get_square_color m (current_player_ s) in
  let* b := place_color (board s) (form m) color in
  let s1 := with_board s b in
  if get_move_count s1 >? 2
  then count_connections s1 color (corners m) 0
  else Ok s1.

(** ** Applying and undoing moves *)

(** CathedralState::make_unvalidated_move *)
Definition make_unvalidated_move (s : CathedralState) (m : Move) : M CathedralState :=
  let* s1 := place_building s m in
  let* pieces := players_at (players s1) (current_player_ s1) in
  let* pieces' := use_building pieces (building_type m) in
  update_current_player
    (with_players s1 (set_players_at (players s1) (current_player_ s1) pieces')).

(** CathedralState::make_move: the returned flag and the state afterwards. *)
Definition make_move (s : CathedralState) (m : Move) : M (bool * CathedralState) :=
  if negb (is_move_valid (board s) m (current_player_ s)) then Ok (false, s)
  else
    let* s' := make_unvalidated_move s m in
    Ok (true, s').

(** CathedralState::DoApplyAction: the flag of make_move is dropped. *)
Definition DoApplyAction (s : CathedralState) (move : Z) : M CathedralState :=
  let* m := Move_of_action move in
  let* r := make_move s m in
  Ok (snd r).

(** CathedralState::undo_move *)
Definition undo_move (s : CathedralState) : M CathedralState :=
  match history_ s with
  | [] => Ok s
  | _ :: _ =>
      let h := List.removelast (history_ s) in
      let s0 := mkState h (move_number_ s - 1)
                  (reset_building_availability (fst (players s)),
                   reset_building_availability (snd (players s)))
                  (initial_board s) [] (initial_board s) 0 (outcome_ s) in
      foldM (fun s player_action =>
               let* m := Move_of_action (action player_action) in
               make_unvalidated_move s m)
            h s0
  end.

(** ** Scoring *)

(** [score -= move.form.size()]: the subtraction is carried out in
    [size_t] and the result converted back to [int]. *)
Definition score_minus (score : Z) (size : nat) : Z := int_wrap (score - Z.of_nat size).

(** The body of the loop of calc_score for one history entry; the pair
    is (white_score, black_score). *)
Definition score_step (s : CathedralState) (sc : Z * Z) (pair : PlayerAction) : M (Z * Z) :=
  let* removed := is_piece_removed s pair in
  if removed then Ok sc
  else
    let* move := Move_of_action (action pair) in
    let player_color := get_square_color move (player pair) in
    if CellState_eqb player_color BLACK
    then Ok (fst sc, score_minus (snd sc) (length (form move)))
    else if CellState_eqb player_color WHITE
    then Ok (score_minus (fst sc) (length (form move)), snd sc)
    else Ok sc.

(** CathedralState::calc_score: (white_score, black_score). *)
Definition calc_score (s : CathedralState) : M (Z * Z) :=
  let initial_score := 47 in
  foldM (score_step s) (history_ s) (initial_score, initial_score).

(** CathedralState::Returns.  The utilities 1.0, -1.0 and 0.0 are the
    integers 1, -1 and 0; the vector has one entry per player, player 0
    first. *)
Definition Returns (s : CathedralState) : M (list Z) :=
  let* finished := is_finished s in
  if finished then
    let* final_score := calc_score s in
    let white_score := fst final_score in
    let black_score := snd final_score in
    if black_score >? white_score then Ok [1; -1]
    else if white_score >? black_score then Ok [-1; 1]
    else Ok [0; 0]
  else Ok [0; 0].

(** ** The framework interface

    Modelled from the spec: the framework's base class [State]
    (open_spiel/spiel.h, spiel.cc) is not part of the sources at hand.
    Its identifiers [kInvalidPlayer] and [kTerminalPlayerId] are the
    framework's player ids for "no outcome yet" and "game over"; its
    [ApplyAction] is what appends to the history, which the spec describes
    as an ordered sequence of (player, encoded move) pairs, append-only
    during play: it reads the player to move, runs [DoApplyAction], and
    only then pushes the pair and counts the move, so that while a move is
    being applied [get_move_count] is the number of earlier moves. *)
Definition kInvalidPlayer : Z := -3.
Definition kTerminalPlayerId : Z := -4.

(** CathedralState::IsTerminal *)
Definition IsTerminal (s : CathedralState) : M bool :=
  if negb (outcome_ s =? kInvalidPlayer) then Ok true else is_finished s.

(** CathedralState::CurrentPlayer *)
Definition CurrentPlayer (s : CathedralState) : M Z :=
  let* terminal := IsTerminal s in
  Ok (if terminal then kTerminalPlayerId else current_player_ s).

(** Modelled from the spec: [State::ApplyAction], see above. *)
Definition ApplyAction (s : CathedralState) (action_id : Z) : M CathedralState :=
  let* p := CurrentPlayer s in
  let* s' := DoApplyAction s action_id in
  Ok (mkState (history_ s' ++ [mkPlayerAction p action_id]) (move_number_ s' + 1)
        (players s') (initial_board s') (removed_moves s') (board s')
        (current_player_ s') (outcome_ s')).

(** CathedralState::UndoAction *)
Definition UndoAction (s : CathedralState) (p : Z) (move : Z) : M CathedralState :=
  let* s' := undo_move s in
  Ok (mkState (history_ s') (move_number_ s') (players s') (initial_board s')
        (removed_moves s') (board s') p kInvalidPlayer).

(** std::sort on action ids: the ascending rearrangement. *)
Fixpoint sort_insert (a : Z) (l : list Z) : list Z :=
  match l with
  | [] => [a]
  | h :: t => if a <=? h then a :: l else h :: sort_insert a t
  end.
Definition sort_actions (l : list Z) : list Z := fold_right sort_insert [] l.

(** CathedralState::LegalActions *)
Definition LegalActions (s : CathedralState) : M (list Z) :=
  let* possible_moves := get_possible_moves s in
  Ok (sort_actions (List.map encode possible_moves)).

(** The constructor CathedralState::CathedralState. *)
Definition initial_state : CathedralState :=
  mkState [] 0
    (Playerpieces_new white_specific_buildings, Playerpieces_new black_specific_buildings)
    Board_new [] Board_new 0 kInvalidPlayer.

(** Playing a sequence of actions through the framework. *)
Definition play (actions : list Z) (s : CathedralState) : M CathedralState :=
  foldM ApplyAction actions s.

(** ** Identifiers of the Java client *)

(** player_building_to_java_building_id.  The [default] branch of the
    switch (a runtime_error) is reached by no enumerator. *)
Definition player_building_to_java_building_id (type : BuildingType) (p : Z) : Z :=
  match type with
  | Tavern => if p =? 1 then 1 else 12
  | Stable => if p =? 1 then 2 else 13
  | Inn => if p =? 1 then 3 else 14
  | Bridge => if p =? 1 then 4 else 15
  | Manor => if p =? 1 then 5 else 16
  | Square_ => if p =? 1 then 6 else 17
  | Infirmary => if p =? 1 then 8 else 19
  | Castle => if p =? 1 then 9 else 20
  | Tower => if p =? 1 then 10 else 21
  | Black_Abbey => 7
  | Black_Academy => 11
  | White_Abbey => 18
  | White_Academy => 22
  | Cathedral => 23
  end.

(** java_building_to_cpp_building_player.  The [default] branch only
    constructs an out_of_range object without throwing it, and control
    reaches [return {}]: the value-initialised tuple, whose building type
    is the enumerator 0 and whose player is 0. *)
Definition java_building_to_cpp_building_player (building : Z) : BuildingType * Z :=
  let p := if building >? 11 then 0 else 1 in
  if (building =? 1) || (building =? 12) then (Tavern, p)
  else if (building =? 2) || (building =? 13) then (Stable, p)
  else if (building =? 3) || (building =? 14) then (Inn, p)
  else if (building =? 4) || (building =? 15) then (Bridge, p)
  else if (building =? 5) || (building =? 16) then (Manor, p)
  else if (building =? 6) || (building =? 17) then (Square_, p)
  else if building =? 7 then (Black_Abbey, p)
  else if building =? 18 then (White_Abbey, p)
  else if (building =? 8) || (building =? 19) then (Infirmary, p)
  else if (building =? 9) || (building =? 20) then (Castle, p)
  else if (building =? 10) || (building =? 21) then (Tower, p)
  else if building =? 11 then (Black_Academy, p)
  else if building =? 22 then (White_Academy, p)
  else if building =? 23 then (Cathedral, p)
  else (Tavern, 0).

(** parse_rotation_angle: [static_cast<Rotation>(angle / 90)]; [None]
    when the quotient names no enumerator. *)
Definition parse_rotation_angle (angle : Z) : option Rotation :=
  rotation_of_index (Z.quot angle 90).

(** The buildings player [p] starts with: the common ones and the ones
    specific to the colour. *)
Definition buildings_of_player (p : Z) : list BuildingType :=
  common_buildings ++ (if p =? 0 then white_specific_buildings else black_specific_buildings).

(** ** The textual dump of the board *)

(** [static_cast<int>] on CellState. *)
Definition cell_code (c : CellState) : Z :=
  match c with
  | EMPTY => 0 | BLUE => 1 | BLACK => 2 | BLACK_REGION => 3 | WHITE => 4 | WHITE_REGION => 5
  end.

(** The character written for a one-digit integer. *)
Definition digit_char (n : Z) : Ascii.ascii := Ascii.ascii_of_nat (48 + Z.to_nat n).

Definition space_char : Ascii.ascii := Ascii.ascii_of_nat 32.
Definition newline_char : Ascii.ascii := Ascii.ascii_of_nat 10.

(** Board::to_string, as the list of characters written: for every row,
    each cell's code followed by a blank, then a newline. *)
Definition row_to_string (row : list CellState) : list Ascii.ascii :=
  List.flat_map (fun c => [digit_char (cell_code c); space_char]) row ++ [newline_char].

Definition to_string (b : Board) : list Ascii.ascii :=
  List.flat_map row_to_string (field b).

(** CathedralState::ToString *)
Definition ToString (s : CathedralState) : list Ascii.ascii := to_string (board s).

(** * Specification vocabulary

    The notions the statements below are phrased with: adjacency, grid
    membership, compatibility, legal placements, reachable positions,
    the quantities that scoring and capture are specified by, and the
    concrete positions used to exercise the theorems. *)

(** [q] shares an edge with [p]. *)
Definition orthogonally_adjacent (q p : Square) : Prop :=
  Z.abs (sq_x q - sq_x p) + Z.abs (sq_y q - sq_y p) = 1.

(** [q] touches [p] by a corner only. *)
Definition diagonally_adjacent (q p : Square) : Prop :=
  Z.abs (sq_x q - sq_x p) = 1 /\ Z.abs (sq_y q - sq_y p) = 1.

Definition rotation_legal (type : BuildingType) (rot : Rotation) : Prop :=
  rotation_index rot <= turnable_index (turnable (get_instance type)).

(** A territory cell and the colour that owns it. *)
Inductive territory_of : CellState -> CellState -> Prop :=
| territory_black : territory_of BLACK_REGION BLACK
| territory_white : territory_of WHITE_REGION WHITE.

(** Compatibility in the words of the specification: the cell is empty,
    or it is a territory cell whose owning colour is the placed colour. *)
Definition compatible (on_position to_place : CellState) : Prop :=
  on_position = EMPTY \/ territory_of on_position to_place.

Definition within_grid (s : Square) : Prop :=
  0 <= sq_x s < 10 /\ 0 <= sq_y s < 10.

Definition stable_over_the_edge : Move :=
  Eval vm_compute in
    match Move_new (mkSquare 9 0) Stable ROTATE_0 with
    | Ok m => m
    | Throw _ => mkMoveRecord [] [] (mkSquare 0 0) Tavern ROTATE_0
    end.

(** A legal placement for player [p], in the words of the specification:
    a building type the player still has, an anchor on the board and a
    rotation allowed for the type, such that the resulting move passes
    the board's legality check for [p]. *)
Definition has_legal_placement (s : CathedralState) (p : Z) : Prop :=
  exists pieces type position rot m,
    players_at (players s) p = Ok pieces
    /\ is_building_available pieces type = true
    /\ within_grid position
    /\ Move_new position type rot = Ok m
    /\ is_move_valid (board s) m p = true.

(** The members that placing a building and capturing regions never
    write: the history, the move counter, the initial-board snapshot, the
    current player and the outcome. *)
Definition same_frame (s s' : CathedralState) : Prop :=
  history_ s' = history_ s
  /\ move_number_ s' = move_number_ s
  /\ initial_board s' = initial_board s
  /\ current_player_ s' = current_player_ s
  /\ outcome_ s' = outcome_ s.

Definition cathedral_centre : Move :=
  Eval vm_compute in
    match decode_move 5255 with
    | Ok m => m
    | Throw _ => mkMoveRecord [] [] (mkSquare 0 0) Tavern ROTATE_0
    end.

(** Positions reached from the initial one by applying legal actions
    through the framework. *)
Inductive reachable : CathedralState -> Prop :=
| reachable_initial : reachable initial_state
| reachable_step (s s' : CathedralState) (a : Z) (legal : list Z) :
    reachable s ->
    LegalActions s = Ok legal ->
    In a legal ->
    ApplyAction s a = Ok s' ->
    reachable s'.

(** Apply the actions in turn, checking each against LegalActions. *)
Fixpoint legal_run (actions : list Z) (s : CathedralState) : option CathedralState :=
  match actions with
  | [] => Some s
  | a :: rest =>
      match LegalActions s, ApplyAction s a with
      | Ok legal, Ok s' =>
          if existsb (Z.eqb a) legal then legal_run rest s' else None
      | _, _ => None
      end
  end.

(** Three legal moves: the Cathedral in the centre, a black Inn around
    the corner cell (0,0), a white Tavern in the opposite corner. *)
Definition corner_pocket_actions : list Z := [5255; 901; 99].

Definition corner_pocket : CathedralState :=
  Eval vm_compute in
    match legal_run corner_pocket_actions initial_state with
    | Some s => s
    | None => initial_state
    end.

(** A history entry is marked removed when its (player, move) pair is in
    the removed-move set. *)
Definition marked_removed (s : CathedralState) (p : Z) (m : Move) : bool :=
  existsb (fun r => PlayerMove_eqb r (mkPlayerMove p m)) (removed_moves s).

(** The squares a history entry counts for player [p]: the size of its
    form when the entry is [p]'s, is not marked removed and is not the
    neutral Cathedral; nothing otherwise. *)
Definition squares_counted (s : CathedralState) (p : Z) (pa : PlayerAction) : Z :=
  match Move_of_action (action pa) with
  | Ok m =>
      if (player pa =? p)
         && negb (BuildingType_eqb (building_type m) Cathedral)
         && negb (marked_removed s (player pa) m)
      then Z.of_nat (length (form m)) else 0
  | Throw _ => 0
  end.

(** Total occupied-square count of [p]'s non-removed historical moves. *)
Definition occupied_squares (s : CathedralState) (p : Z) : Z :=
  fold_right Z.add 0 (List.map (squares_counted s p) (history_ s)).

(** Every action of the history constructs a Move. *)
Definition history_decodes (s : CathedralState) : bool :=
  forallb (fun pa => match Move_of_action (action pa) with Ok _ => true | Throw _ => false end)
          (history_ s).



(** A complete game of 26 legal moves without captures. *)
Definition full_game_actions : list Z :=
  [5211; 0; 2; 3; 4; 405; 407; 413; 415; 817; 822; 824; 826; 1219;
   1230; 1642; 1645; 2038; 2050; 2454; 2857; 3272; 3684; 4078; 4586; 4692].

Definition full_game : CathedralState :=
  Eval vm_compute in
    match legal_run full_game_actions initial_state with
    | Some s => s
    | None => initial_state
    end.

(** The board is an array of 10 rows of 10 cells. *)
Definition board_wf (b : Board) : bool :=
  (length (field b) =? 10)%nat && forallb (fun row => (length row =? 10)%nat) (field b).

Definition inventory_wf (p : Playerpieces) : bool :=
  (length (available_buildings_ p) =? 14)%nat.

(** The enemy buildings in a region for a sweep of colour [c], in the
    words of the specification: the historical moves that are not marked
    removed, whose anchor lies in the region and whose placed colour
    differs from [c], in history order. *)
Definition enemy_buildings (s : CathedralState) (region : list Square) (c : CellState)
  : list PlayerMove :=
  List.flat_map
    (fun pa =>
       match Move_of_action (action pa) with
       | Ok m =>
           if negb (marked_removed s (player pa) m)
              && is_in_region (pos m) region
              && negb (CellState_eqb (get_square_color m (player pa)) c)
           then [mkPlayerMove (player pa) m] else []
       | Throw _ => []
       end)
    (history_ s).

(** Every player recorded in the history is one of the two players. *)
Definition history_players_valid (s : CathedralState) : bool :=
  forallb (fun pa => (player pa =? 0) || (player pa =? 1)) (history_ s).

(** How many buildings of [type] the captures of [enemies] give back to
    player [p]: the Cathedral is never given back. *)
Definition returned_to (enemies : list PlayerMove) (p : Z) (type : BuildingType) : Z :=
  Z.of_nat (length (List.filter
    (fun pm => (pm_player pm =? p)
               && BuildingType_eqb (building_type (pm_move pm)) type
               && negb (BuildingType_eqb (building_type (pm_move pm)) Cathedral))
    enemies)).

(** The Cathedral in the centre, a black Inn around the corner cell
    (0,0), and a white Tavern inside that corner. *)
Definition tavern_in_pocket_actions : list Z := [5255; 901; 0].

Definition tavern_in_pocket : CathedralState :=
  Eval vm_compute in
    match legal_run tavern_in_pocket_actions initial_state with
    | Some s => s
    | None => initial_state
    end.

(** The number of cells still marked free in a row and in a mask of the
    flood fill. *)
Definition count_ones (row : list Z) : nat := length (List.filter (Z.eqb 1) row).

Definition ones (mask : list (list Z)) : nat :=
  fold_right (fun row n => (count_ones row + n)%nat) 0%nat mask.

(** A computation that does not end by exhausting the flood-fill budget
    of the model. *)
Definition within_budget {A} (m : M A) : Prop := m <> Throw loop_budget.

(** The game with the largest action chosen at every turn, up to the
    position where black has just moved and white is about to be left
    without a placement. *)
Definition squeezed_actions : list Z :=
  [5587; 5185; 5183; 4780; 4768; 4062; 4056; 3544; 3941; 2539; 2937;
   2024; 2017; 1922; 1920; 1315; 1308; 1113; 1148; 1111; 519; 498;
   495; 464; 69; 2583; 67].

Definition squeezed : CathedralState :=
  Eval vm_compute in
    match legal_run squeezed_actions initial_state with
    | Some s => s
    | None => initial_state
    end.

(** The part of well-formedness that capture can touch. *)
Definition storage_wf (s : CathedralState) : Prop :=
  board_wf (board s) = true
  /\ inventory_wf (fst (players s)) = true
  /\ inventory_wf (snd (players s)) = true.

(** The invariant of the positions of a game. *)
Definition state_wf (s : CathedralState) : Prop :=
  history_decodes s = true
  /\ history_players_valid s = true
  /\ board_wf (board s) = true
  /\ inventory_wf (fst (players s)) = true
  /\ inventory_wf (snd (players s)) = true
  /\ (current_player_ s = 0 \/ current_player_ s = 1)
  /\ outcome_ s = kInvalidPlayer.

(** ** Further vocabulary: geometry and the catalogue *)

(** The rotation reached by turning by [r1] and then by [r2]: quarter
    turns add modulo four. *)
Definition rotation_sum (r1 r2 : Rotation) : Rotation :=
  match rotation_of_index ((rotation_index r1 + rotation_index r2) mod 4) with
  | Some r => r
  | None => ROTATE_0
  end.

(** The lists a [std::set<Square>] is read out as: strictly ascending
    for operator<. *)
Definition strictly_ascending (l : list Square) : Prop :=
  StronglySorted (fun a b => Square_ltb a b = true) l.

(** Two lists of squares cover the same squares. *)
Definition same_squares (l1 l2 : list Square) : Prop :=
  forall q, In q l1 <-> In q l2.

Definition same_squaresb (l1 l2 : list Square) : bool :=
  forallb (fun q => existsb (Square_eqb q) l2) l1
  && forallb (fun q => existsb (Square_eqb q) l1) l2.

(** A legal rotation and an offset under which the canonical shape of
    [type] turned by [rot] is covered again, searched among the offsets
    of at most three cells. *)
Definition legal_equivalent (type : BuildingType) (rot : Rotation)
  : option (Rotation * Square) :=
  let shape := default_form_ (get_instance type) in
  List.find
    (fun c => same_squaresb (rotate_form shape rot)
                (translate_positions (rotate_form shape (fst c)) (snd c)))
    (List.flat_map
       (fun r => List.flat_map
                   (fun x => List.map (fun y => (r, mkSquare x y)) (seqZ (-3) 7))
                   (seqZ (-3) 7))
       (rotations_upto (turnable (get_instance type)))).

(** No square occurs twice. *)
Fixpoint no_repeatb (l : list Square) : bool :=
  match l with
  | [] => true
  | h :: t => negb (existsb (Square_eqb h) t) && no_repeatb t
  end.

(** What is checked of every rotated canonical shape of the catalogue:
    it holds the origin, has at most six squares, and none twice. *)
Definition shape_ok (l : list Square) : bool :=
  existsb (Square_eqb (mkSquare 0 0)) l
  && (Z.of_nat (length l) <=? 6)
  && no_repeatb l.

(** ** Further vocabulary: moves and captures *)

(** A history entry that [pm] stands for: same player, and an action
    that constructs [pm]'s move. *)
Definition from_history (s : CathedralState) (pm : PlayerMove) : Prop :=
  exists pa, In pa (history_ s)
             /\ player pa = pm_player pm
             /\ Move_of_action (action pa) = Ok (pm_move pm).

(** What placing a building, with the captures it triggers, may do to
    the bookkeeping: the history, the move counter, the current player
    and the outcome stay, and the removed-move set is extended by pairs
    taken from the history. *)
Definition capture_effect (s s' : CathedralState) : Prop :=
  same_frame s s'
  /\ exists extra, removed_moves s' = removed_moves s ++ extra
                   /\ Forall (from_history s) extra.

(** A move the current player may make, in the words of the rules the
    code implements: a building of a type the player still has, anchored
    on the board with a rotation allowed for the type, that the board
    accepts for the player; the opening move must be the Cathedral. *)
Definition legal_move (s : CathedralState) (m : Move) : Prop :=
  exists pieces position rot,
    players_at (players s) (current_player_ s) = Ok pieces
    /\ is_building_available pieces (building_type m) = true
    /\ within_grid position
    /\ Move_new position (building_type m) rot = Ok m
    /\ is_move_valid (board s) m (current_player_ s) = true
    /\ (history_ s = [] -> building_type m = Cathedral).

(** What region capture relies on: arrays of the right sizes, and a
    history whose actions construct moves and whose players are 0 or 1. *)
Definition capture_ready (s : CathedralState) : Prop :=
  storage_wf s /\ history_decodes s = true /\ history_players_valid s = true.

(** No count of either inventory is lower in [ps'] than in [ps]. *)
Definition counts_le (ps ps' : Playerpieces * Playerpieces) : Prop :=
  forall type,
    available_count (fst ps) type <= available_count (fst ps') type
    /\ available_count (snd ps) type <= available_count (snd ps') type.

(** The turn is with a player who can move whenever anybody can. *)
Definition turn_sound (s : CathedralState) : Prop :=
  has_legal_placement s (1 - current_player_ s) ->
  has_legal_placement s (current_player_ s).

(** ** Further vocabulary: the flood fill *)

(** The local array of build_regions is 10 rows of 10 entries. *)
Definition mask_wf (mask : list (list Z)) : Prop :=
  length mask = 10%nat /\ Forall (fun row => length row = 10%nat) mask.

(** [q] is one of the eight cells around [p]. *)
Definition neighbours (p q : Square) : Prop :=
  Z.abs (sq_x q - sq_x p) <= 1 /\ Z.abs (sq_y q - sq_y p) <= 1 /\ p <> q.

(** [q] is reached from [start] by steps to neighbouring board cells
    that the mask marks 1. *)
Inductive connected (mask : list (list Z)) (start : Square) : Square -> Prop :=
| connected_start : connected mask start start
| connected_step (a b : Square) :
    connected mask start a -> neighbours a b ->
    is_on_board b = true -> mask_at mask b = 1 ->
    connected mask start b.

(** The loop invariant of the flood fill over the squares pushed so far,
    relative to the mask [mask0] the fill started from. *)
Definition fill_inv (mask0 : list (list Z)) (start : Square)
    (mask : list (list Z)) (seen : list Square) : Prop :=
  mask_wf mask
  /\ List.NoDup seen
  /\ (forall q, In q seen ->
        is_on_board q = true /\ connected mask0 start q /\ mask_at mask q = 0)
  /\ (forall q, is_on_board q = true -> ~ In q seen -> mask_at mask q = mask_at mask0 q).

(** Five legal moves after which black, who is to move, has placed both
    Taverns: the Cathedral in the centre and four Taverns side by side on
    the first row. *)
Definition taverns_spent_actions : list Z := [5255; 0; 1; 2; 3].

Definition taverns_spent : CathedralState :=
  Eval vm_compute in
    match legal_run taverns_spent_actions initial_state with
    | Some s => s
    | None => initial_state
    end.

(** * Properties *)

(** ** Squares and the ordered set *)

Lemma Square_eqb_eq (a b : Square) : Square_eqb a b = true <-> a = b.
Proof.
  destruct a as [ax ay], b as [bx b_y]; unfold Square_eqb; simpl.
  rewrite andb_true_iff, !Z.eqb_eq. split.
  - intros [-> ->]; reflexivity.
  - intros H; injection H; auto.
Qed.

Lemma Square_eqb_refl (a : Square) : Square_eqb a a = true.
Proof. apply Square_eqb_eq; reflexivity. Qed.

Lemma Square_eqb_sym (a b : Square) : Square_eqb a b = Square_eqb b a.
Proof. unfold Square_eqb. rewrite (Z.eqb_sym (sq_x a)), (Z.eqb_sym (sq_y a)). reflexivity. Qed.

(** Two squares are distinct exactly when operator< orders them one way
    or the other: equivalence under the set's order is equality. *)
Lemma Square_ltb_apart (a b : Square) :
  Square_ltb a b || Square_ltb b a = true <-> a <> b.
Proof.
  destruct a as [ax ay], b as [bx b_y]; unfold Square_ltb; simpl.
  rewrite orb_true_iff. split.
  - intros H E; injection E as -> ->.
    rewrite Z.eqb_refl, Z.ltb_irrefl in H. destruct H; discriminate.
  - intros H.
    destruct (Z.eqb_spec ay b_y) as [->|Hy].
    + rewrite Z.eqb_refl, !Z.ltb_lt.
      assert (ax <> bx) by (intros ->; apply H; reflexivity). lia.
    + destruct (Z.eqb_spec b_y ay); [congruence|]. rewrite !Z.ltb_lt. lia.
Qed.

Lemma In_set_insert (q a : Square) (l : list Square) :
  In q (set_insert a l) <-> q = a \/ In q l.
Proof.
  induction l as [|h t IH]; simpl.
  - intuition.
  - destruct (Square_ltb a h) eqn:Hah; simpl; [intuition|].
    destruct (Square_ltb h a) eqn:Hha; simpl.
    + rewrite IH. intuition.
    + assert (a = h) as ->.
      { destruct (decide (a = h)) as [E|N]; [exact E|].
        apply Square_ltb_apart in N. rewrite Hah, Hha in N. discriminate. }
      intuition.
Qed.

Lemma In_set_erase (q a : Square) (l : list Square) :
  In q (set_erase a l) <-> In q l /\ q <> a.
Proof.
  unfold set_erase. rewrite filter_In, Square_ltb_apart.
  split; intros [H1 H2]; split; auto.
Qed.

(** ** Adjacency, in the words of the specification *)

Lemma In_insert_neighbours (q p : Square) (cs : list Square) :
  In q (insert_neighbours cs p) <-> orthogonally_adjacent q p \/ In q cs.
Proof.
  unfold insert_neighbours. rewrite !In_set_insert.
  unfold orthogonally_adjacent. destruct q as [qx qy], p as [px py]; simpl.
  split.
  - intros [E|[E|[E|[E|H]]]]; try (injection E as -> ->; left; lia). right; exact H.
  - intros [H|H]; [|tauto].
    assert (Hc : (qx = px /\ qy = py - 1) \/ (qx = px /\ qy = py + 1)
                 \/ (qx = px - 1 /\ qy = py) \/ (qx = px + 1 /\ qy = py)) by lia.
    destruct Hc as [[-> ->]|[[-> ->]|[[-> ->]|[-> ->]]]]; tauto.
Qed.

Lemma In_fold_insert_neighbours (q : Square) (f acc : list Square) :
  In q (fold_left insert_neighbours f acc)
  <-> (exists p, In p f /\ orthogonally_adjacent q p) \/ In q acc.
Proof.
  revert acc. induction f as [|p f IH]; intros acc; simpl.
  - split; [auto|]. intros [[p [[] _]]|H]; exact H.
  - rewrite IH, In_insert_neighbours. split.
    + intros [[p' [Hin Hadj]]|[Hadj|Hacc]]; eauto.
    + intros [[p' [[<-|Hin] Hadj]]|Hacc]; eauto.
Qed.

Lemma In_fold_set_erase (q : Square) (f acc : list Square) :
  In q (fold_left (fun cs sq => set_erase sq cs) f acc) <-> In q acc /\ ~ In q f.
Proof.
  revert acc. induction f as [|p f IH]; intros acc; simpl.
  - tauto.
  - rewrite IH, In_set_erase. split.
    + intros [[Hacc Hne] Hnin]. split; [exact Hacc|]. intros [E|H]; [subst; auto|auto].
    + intros [Hacc Hnin]. repeat split; auto; intros ->; apply Hnin; left; reflexivity.
Qed.

(** What the loop body of pre_calculate_corners computes for any form. *)
Lemma corners_of_form_spec (f : list Square) (q : Square) :
  In q (corners_of_form f)
  <-> (exists p, In p f /\ orthogonally_adjacent q p) /\ ~ In q f.
Proof.
  unfold corners_of_form. rewrite In_fold_set_erase, In_fold_insert_neighbours.
  simpl. intuition.
Qed.

Lemma instances_eq : instances = create_instances.
Proof. vm_compute. reflexivity. Qed.

(** The catalogue stores, for each legal rotation, the rotated canonical
    form and the corners computed from it. *)
Lemma catalogue_entries (type : BuildingType) (rot : Rotation) :
  rotation_legal type rot ->
  Building_form_rot (get_instance type) rot
    = Ok (rotate_form (default_form_ (get_instance type)) rot)
  /\ Building_corners_rot (get_instance type) rot
    = Ok (corners_of_form (rotate_form (default_form_ (get_instance type)) rot)).
Proof.
  unfold rotation_legal.
  destruct type, rot; vm_compute; intros H; try (exfalso; apply H; reflexivity);
    split; reflexivity.
Qed.

(** C5, as the code has it.  For every building type and every rotation
    legal for its symmetry class, the pre-calculated form is the rotated
    canonical shape, and the pre-calculated corner set is exactly the set
    of squares that share an edge with (are orthogonally adjacent to) at
    least one square of the rotated form and are not part of the form;
    [corners(rotation, pos)] and [form(rotation, pos)] are these two lists
    translated by [pos]. *)
Theorem corners_are_edge_neighbours (type : BuildingType) (rot : Rotation) :
  rotation_legal type rot ->
  exists f c,
    Building_form_rot (get_instance type) rot = Ok f
    /\ Building_corners_rot (get_instance type) rot = Ok c
    /\ f = rotate_form (default_form_ (get_instance type)) rot
    /\ (forall q, In q c <->
                  (exists p, In p f /\ orthogonally_adjacent q p) /\ ~ In q f)
    /\ (forall position,
          Building_form (get_instance type) rot position
            = Ok (List.map (fun s => Square_add s position) f)
          /\ Building_corners (get_instance type) rot position
            = Ok (List.map (fun s => Square_add s position) c)).
Proof.
  intros Hlegal. destruct (catalogue_entries type rot Hlegal) as [Hf Hc].
  eexists _, _. split; [exact Hf|]. split; [exact Hc|]. split; [reflexivity|].
  split.
  - intros q. apply corners_of_form_spec.
  - intros position. unfold Building_form, Building_corners.
    rewrite Hf, Hc. simpl. split; reflexivity.
Qed.

Lemma corners_are_edge_neighbours_witness :
  rotation_legal Inn ROTATE_90 /\
  exists f c,
    Building_form_rot (get_instance Inn) ROTATE_90 = Ok f
    /\ Building_corners_rot (get_instance Inn) ROTATE_90 = Ok c
    /\ f = rotate_form (default_form_ (get_instance Inn)) ROTATE_90
    /\ (forall q, In q c <->
                  (exists p, In p f /\ orthogonally_adjacent q p) /\ ~ In q f)
    /\ (forall position,
          Building_form (get_instance Inn) ROTATE_90 position
            = Ok (List.map (fun s => Square_add s position) f)
          /\ Building_corners (get_instance Inn) ROTATE_90 position
            = Ok (List.map (fun s => Square_add s position) c)).
Proof.
  assert (H : rotation_legal Inn ROTATE_90) by (vm_compute; discriminate).
  split; [exact H|]. exact (corners_are_edge_neighbours Inn ROTATE_90 H).
Defined.

(** C5 as stated fails: the square (1,1) touches the Tavern's only square
    (0,0) diagonally and is not part of the form, yet it is not among the
    Tavern's corners. *)
Lemma corners_miss_diagonal_neighbours :
  rotation_legal Tavern ROTATE_0
  /\ Building_form_rot (get_instance Tavern) ROTATE_0 = Ok [mkSquare 0 0]
  /\ diagonally_adjacent (mkSquare 1 1) (mkSquare 0 0)
  /\ ~ In (mkSquare 1 1) [mkSquare 0 0]
  /\ exists c, Building_corners_rot (get_instance Tavern) ROTATE_0 = Ok c
               /\ ~ In (mkSquare 1 1) c.
Proof.
  split; [vm_compute; discriminate|].
  split; [reflexivity|].
  split; [unfold diagonally_adjacent; simpl; lia|].
  split; [simpl; intros [E|[]]; discriminate|].
  eexists. split; [vm_compute; reflexivity|].
  simpl. intros H. repeat (destruct H as [H|H]; [discriminate|]). exact H.
Qed.

(** ** Moves and their encoding *)

Lemma Move_new_ok (position : Square) (type : BuildingType) (rot : Rotation) :
  rotation_legal type rot ->
  Move_new position type rot
  = Ok (mkMoveRecord
          (translate_positions (rotate_form (default_form_ (get_instance type)) rot) position)
          (translate_positions
             (corners_of_form (rotate_form (default_form_ (get_instance type)) rot)) position)
          position type rot).
Proof.
  intros Hlegal. destruct (catalogue_entries type rot Hlegal) as [Hf Hc].
  unfold Move_new, Building_form, Building_corners.
  unfold rotation_legal in Hlegal.
  destruct (Z.gtb_spec (rotation_index rot) (turnable_index (turnable (get_instance type))));
    [lia|].
  rewrite Hf, Hc. reflexivity.
Qed.

Lemma Move_new_throws (position : Square) (type : BuildingType) (rot : Rotation) :
  ~ rotation_legal type rot -> Move_new position type rot = Throw invalid_argument.
Proof.
  unfold rotation_legal, Move_new. intros H.
  destruct (Z.gtb_spec (rotation_index rot) (turnable_index (turnable (get_instance type))));
    [reflexivity|lia].
Qed.

Lemma rotation_legal_dec (type : BuildingType) (rot : Rotation) :
  {rotation_legal type rot} + {~ rotation_legal type rot}.
Proof. unfold rotation_legal. apply Z_le_dec. Qed.

Lemma Move_new_inv (position : Square) (type : BuildingType) (rot : Rotation) (m : Move) :
  Move_new position type rot = Ok m ->
  rotation_legal type rot /\ pos m = position /\ building_type m = type /\ rotation m = rot.
Proof.
  intros H. destruct (rotation_legal_dec type rot) as [L|N].
  - rewrite (Move_new_ok _ _ _ L) in H. injection H as <-. auto.
  - rewrite (Move_new_throws _ _ _ N) in H. discriminate.
Qed.

Lemma building_of_index_index (t : BuildingType) :
  building_of_index (building_index t) = Some t.
Proof. destruct t; reflexivity. Qed.

Lemma rotation_of_index_index (r : Rotation) :
  rotation_of_index (rotation_index r) = Some r.
Proof. destruct r; reflexivity. Qed.

Lemma building_index_range (t : BuildingType) : 0 <= building_index t < 14.
Proof. destruct t; simpl; lia. Qed.

Lemma rotation_index_range (r : Rotation) : 0 <= rotation_index r < 4.
Proof. destruct r; simpl; lia. Qed.

Lemma building_of_index_inv (i : Z) (t : BuildingType) :
  building_of_index i = Some t -> building_index t = i.
Proof.
  unfold building_of_index.
  destruct (Z.leb_spec 0 i) as [H0|H0]; simpl; [|discriminate].
  destruct (Z.ltb_spec i 14) as [H1|H1]; [|discriminate].
  intros H. rewrite <- (Z2Nat.id i) by lia.
  assert (Hn : (Z.to_nat i < 14)%nat) by lia.
  revert H. generalize (Z.to_nat i) Hn. intros n Hlt.
  do 14 (destruct n as [|n]; [simpl; intros [= <-]; reflexivity|]). lia.
Qed.

Lemma rotation_of_index_inv (i : Z) (r : Rotation) :
  rotation_of_index i = Some r -> rotation_index r = i.
Proof.
  unfold rotation_of_index.
  destruct (Z.leb_spec 0 i) as [H0|H0]; simpl; [|discriminate].
  destruct (Z.ltb_spec i 4) as [H1|H1]; [|discriminate].
  intros H. rewrite <- (Z2Nat.id i) by lia.
  assert (Hn : (Z.to_nat i < 4)%nat) by lia.
  revert H. generalize (Z.to_nat i) Hn. intros n Hlt.
  do 4 (destruct n as [|n]; [simpl; intros [= <-]; reflexivity|]). lia.
Qed.

(** The four digits of an action id, for components in range. *)
Lemma action_digits (t r y x : Z) :
  0 <= t -> 0 <= r < 4 -> 0 <= y < 10 -> 0 <= x < 10 ->
  let a := t * 400 + r * 100 + y * 10 + x in
  Z.quot a 400 = t /\ Z.quot (Z.rem a 400) 100 = r
  /\ Z.quot (Z.rem a 100) 10 = y /\ Z.rem a 10 = x.
Proof.
  intros Ht Hr Hy Hx a. subst a.
  Z.to_euclidean_division_equations. lia.
Qed.

(** Truncated division recomposes every integer from its four digits,
    negative ones included. *)
Lemma action_recompose (a : Z) :
  Z.quot a 400 * 400 + Z.quot (Z.rem a 400) 100 * 100
  + Z.quot (Z.rem a 100) 10 * 10 + Z.rem a 10 = a.
Proof. Z.to_euclidean_division_equations. lia. Qed.

Lemma encode_unfold (m : Move) :
  encode m = building_index (building_type m) * 400
             + rotation_index (rotation m) * 100
             + sq_y (pos m) * 10 + sq_x (pos m).
Proof.
  unfold encode, board_size, board_width, board_height, max_rotations. lia.
Qed.

Lemma decode_move_unfold (a : Z) :
  decode_move a
  = match building_of_index (Z.quot a 400),
          rotation_of_index (Z.quot (Z.rem a 400) 100) with
    | Some type, Some rot =>
        Move_new (mkSquare (Z.rem a 10) (Z.quot (Z.rem a 100) 10)) type rot
    | _, _ => Throw undefined_behaviour
    end.
Proof. reflexivity. Qed.

Lemma is_on_board_iff (s : Square) :
  is_on_board s = true <-> 0 <= sq_x s < 10 /\ 0 <= sq_y s < 10.
Proof.
  unfold is_on_board. rewrite !andb_true_iff, !Z.geb_le, !Z.ltb_lt. lia.
Qed.

Lemma decode_encode (position : Square) (type : BuildingType) (rot : Rotation) (m : Move) :
  Move_new position type rot = Ok m ->
  is_on_board position = true ->
  0 <= encode m < range_of_nn_distribution /\ decode_move (encode m) = Ok m.
Proof.
  intros Hm Hon. pose proof Hm as Hm'.
  apply Move_new_inv in Hm' as (_ & Hp & Ht & Hr).
  apply is_on_board_iff in Hon as [Hx Hy].
  pose proof (building_index_range type). pose proof (rotation_index_range rot).
  rewrite encode_unfold, Hp, Ht, Hr. split.
  - unfold range_of_nn_distribution. lia.
  - rewrite decode_move_unfold.
    destruct (action_digits (building_index type) (rotation_index rot)
                (sq_y position) (sq_x position)) as (E1 & E2 & E3 & E4); try lia.
    rewrite E1, E2, E3, E4, building_of_index_index, rotation_of_index_index.
    destruct position; exact Hm.
Qed.

Lemma encode_decode (a : Z) (m : Move) :
  decode_move a = Ok m -> encode m = a.
Proof.
  rewrite decode_move_unfold.
  destruct (building_of_index (Z.quot a 400)) as [type|] eqn:Ht; [|discriminate].
  destruct (rotation_of_index (Z.quot (Z.rem a 400) 100)) as [rot|] eqn:Hr; [|discriminate].
  intros Hm. apply Move_new_inv in Hm as (_ & Hp & Hty & Hro).
  rewrite encode_unfold, Hp, Hty, Hro. simpl.
  rewrite (building_of_index_inv _ _ Ht), (rotation_of_index_inv _ _ Hr).
  apply action_recompose.
Qed.

Lemma decode_nonneg_on_board (a : Z) (m : Move) :
  0 <= a -> decode_move a = Ok m ->
  a < range_of_nn_distribution
  /\ is_on_board (pos m) = true
  /\ Move_new (pos m) (building_type m) (rotation m) = Ok m.
Proof.
  intros Ha H. pose proof H as H'. rewrite decode_move_unfold in H'.
  destruct (building_of_index (Z.quot a 400)) as [type|] eqn:Ht; [|discriminate].
  destruct (rotation_of_index (Z.quot (Z.rem a 400) 100)) as [rot|] eqn:Hr; [|discriminate].
  pose proof (building_of_index_inv _ _ Ht) as Eb.
  pose proof (building_index_range type) as Rb.
  pose proof H' as Hnew. apply Move_new_inv in H' as (_ & Hp & Hty & Hro).
  rewrite Hp, Hty, Hro. split; [|split; [|exact Hnew]].
  - unfold range_of_nn_distribution. rewrite Eb in Rb.
    revert Rb. Z.to_euclidean_division_equations. lia.
  - apply is_on_board_iff. simpl. Z.to_euclidean_division_equations. lia.
Qed.

(** C4, as the code has it.  The encoding
    [id = type*400 + rotation*100 + y*10 + x] is one-to-one between the
    moves with a legal rotation whose anchor is a board cell and the
    non-negative action ids that decode: every such move has an id in
    [0, 5600) that decodes back to the same move, two such moves with the
    same id are equal, every non-negative id that decodes is below 5600
    and decodes to such a move, and for every action id [a] whose decoding
    succeeds with a move [m], [encode m = a], so that decoding
    [encode (decode a)] gives [decode a] again. *)
Theorem encoding_round_trip :
  (forall position type rot m,
      Move_new position type rot = Ok m ->
      is_on_board position = true ->
      0 <= encode m < range_of_nn_distribution /\ decode_move (encode m) = Ok m)
  /\ (forall p1 t1 r1 m1 p2 t2 r2 m2,
         Move_new p1 t1 r1 = Ok m1 -> is_on_board p1 = true ->
         Move_new p2 t2 r2 = Ok m2 -> is_on_board p2 = true ->
         encode m1 = encode m2 -> m1 = m2)
  /\ (forall a m,
         0 <= a -> decode_move a = Ok m ->
         a < range_of_nn_distribution
         /\ is_on_board (pos m) = true
         /\ Move_new (pos m) (building_type m) (rotation m) = Ok m)
  /\ (forall a m,
         decode_move a = Ok m ->
         encode m = a /\ decode_move (encode m) = decode_move a).
Proof.
  split; [|split; [|split]].
  - exact decode_encode.
  - intros p1 t1 r1 m1 p2 t2 r2 m2 H1 O1 H2 O2 E.
    destruct (decode_encode _ _ _ _ H1 O1) as [_ D1].
    destruct (decode_encode _ _ _ _ H2 O2) as [_ D2].
    rewrite E in D1. rewrite D1 in D2. injection D2; auto.
  - exact decode_nonneg_on_board.
  - intros a m H. pose proof (encode_decode a m H) as E. rewrite E. auto.
Qed.

Lemma encoding_round_trip_witness :
  exists m,
    Move_new (mkSquare 1 0) Inn ROTATE_90 = Ok m
    /\ is_on_board (mkSquare 1 0) = true
    /\ 0 <= encode m < range_of_nn_distribution
    /\ decode_move (encode m) = Ok m
    /\ decode_move 901 = Ok m
    /\ encode m = 901.
Proof.
  destruct encoding_round_trip as (H1 & _ & _ & H3).
  eexists. split; [vm_compute; reflexivity|]. split; [reflexivity|].
  split; [|split; [|split]].
  - eapply (H1 (mkSquare 1 0) Inn ROTATE_90); [vm_compute; reflexivity|reflexivity].
  - eapply (H1 (mkSquare 1 0) Inn ROTATE_90); [vm_compute; reflexivity|reflexivity].
  - vm_compute; reflexivity.
  - eapply (H3 901). vm_compute; reflexivity.
Defined.

(** C4 as stated fails for a move whose anchor is not a board cell: the
    Tavern anchored at (10, 0) has a legal rotation, its id is 10, and id
    10 decodes to the Tavern anchored at (0, 1). *)
Lemma encoding_off_board_anchor_collides :
  exists m m',
    Move_new (mkSquare 10 0) Tavern ROTATE_0 = Ok m
    /\ rotation_legal (building_type m) (rotation m)
    /\ decode_move (encode m) = Ok m'
    /\ Move_eqb m' m = false
    /\ m' <> m.
Proof.
  eexists _, _. split; [vm_compute; reflexivity|].
  split; [vm_compute; discriminate|].
  split; [vm_compute; reflexivity|].
  split; [vm_compute; reflexivity|].
  discriminate.
Qed.

(** ** Board legality *)

Lemma color_is_compatible_iff (on_position to_place : CellState) :
  color_is_compatible on_position to_place = true <-> compatible on_position to_place.
Proof.
  unfold compatible. split.
  - destruct on_position, to_place; vm_compute; intros H; try discriminate;
      auto using territory_black, territory_white.
  - intros [->|H]; [reflexivity|]. destruct H; reflexivity.
Qed.

Lemma neutral_only_on_empty (on_position : CellState) :
  compatible on_position BLUE <-> on_position = EMPTY.
Proof.
  unfold compatible. split; [|auto]. intros [H|H]; [exact H|inversion H].
Qed.

(** C7.  [is_move_valid] holds exactly when every square of the move's
    form lies within the 10x10 grid and the cell there is compatible with
    the colour the move would place (empty, or territory owned by that
    colour); a Cathedral placement has the neutral colour, which is
    compatible with empty cells only. *)
Theorem is_move_valid_iff (b : Board) (m : Move) (p : Z) :
  (is_move_valid b m p = true
   <-> forall square, In square (form m) ->
         within_grid square /\ compatible (cell b square) (get_square_color m p))
  /\ (building_type m = Cathedral ->
      get_square_color m p = BLUE
      /\ (is_move_valid b m p = true
          <-> forall square, In square (form m) ->
                within_grid square /\ cell b square = EMPTY)).
Proof.
  assert (Hmain : is_move_valid b m p = true
     <-> forall square, In square (form m) ->
           within_grid square /\ compatible (cell b square) (get_square_color m p)).
  { unfold is_move_valid. rewrite forallb_forall.
    split; intros H square Hin; specialize (H square Hin).
    - rewrite negb_true_iff, orb_false_iff, !negb_false_iff in H.
      destruct H as [Hon Hc]. split.
      + apply is_on_board_iff, Hon.
      + apply color_is_compatible_iff, Hc.
    - destruct H as [Hon Hc].
      apply is_on_board_iff in Hon. apply color_is_compatible_iff in Hc.
      rewrite Hon, Hc. reflexivity. }
  split; [exact Hmain|].
  intros Hc.
  assert (Hcol : get_square_color m p = BLUE).
  { unfold get_square_color. rewrite Hc. reflexivity. }
  split; [exact Hcol|].
  rewrite Hmain, Hcol.
  split; intros H square Hin; destruct (H square Hin) as [Hg Hcell];
    (split; [exact Hg|]); apply neutral_only_on_empty; exact Hcell.
Qed.

Lemma is_move_valid_iff_witness :
  building_type cathedral_centre = Cathedral
  /\ get_square_color cathedral_centre 0 = BLUE
  /\ (is_move_valid Board_new cathedral_centre 0 = true
      <-> forall square, In square (form cathedral_centre) ->
            within_grid square /\ cell Board_new square = EMPTY).
Proof.
  assert (H : building_type cathedral_centre = Cathedral) by reflexivity.
  split; [exact H|].
  exact (proj2 (is_move_valid_iff Board_new cathedral_centre 0) H).
Defined.

(** ** Rejected moves and the legal-move query *)

(** C9.  A move that fails the board's legality check makes [make_move]
    return false and leaves the whole state as it was: board cells, both
    inventories, removed-move set and current player. *)
Theorem make_move_invalid_no_change (s : CathedralState) (m : Move) :
  is_move_valid (board s) m (current_player_ s) = false ->
  exists s',
    make_move s m = Ok (false, s')
    /\ s' = s
    /\ board s' = board s
    /\ players s' = players s
    /\ removed_moves s' = removed_moves s
    /\ current_player_ s' = current_player_ s.
Proof.
  intros H. exists s. unfold make_move. rewrite H. simpl. auto 10.
Qed.

Lemma make_move_invalid_no_change_witness :
  Move_new (mkSquare 9 0) Stable ROTATE_0 = Ok stable_over_the_edge
  /\ is_move_valid (board initial_state) stable_over_the_edge
       (current_player_ initial_state) = false
  /\ exists s',
      make_move initial_state stable_over_the_edge = Ok (false, s')
      /\ s' = initial_state
      /\ board s' = board initial_state
      /\ players s' = players initial_state
      /\ removed_moves s' = removed_moves initial_state
      /\ current_player_ s' = current_player_ initial_state.
Proof.
  split; [vm_compute; reflexivity|].
  split; [vm_compute; reflexivity|].
  apply (make_move_invalid_no_change initial_state stable_over_the_edge).
  vm_compute; reflexivity.
Defined.

(** C10.  The legal-move query for a player who is not the current player
    returns the empty list, whatever the inventories and the board; so a
    non-empty list of possible moves is only ever reported for the
    current player. *)
Theorem get_possible_moves_other_player (s : CathedralState) (p : Z) :
  (p <> current_player_ s -> get_possible_moves_for s p = Ok [])
  /\ (forall moves, get_possible_moves_for s p = Ok moves -> moves <> [] ->
        p = current_player_ s).
Proof.
  assert (H : p <> current_player_ s -> get_possible_moves_for s p = Ok []).
  { intros N. unfold get_possible_moves_for.
    destruct (Z.eqb_spec p (current_player_ s)); [contradiction|reflexivity]. }
  split; [exact H|].
  intros moves Hm Hne. destruct (Z.eq_dec p (current_player_ s)) as [E|N]; [exact E|].
  rewrite (H N) in Hm. injection Hm as <-. contradiction.
Qed.

Lemma get_possible_moves_other_player_witness :
  1 <> current_player_ initial_state /\ get_possible_moves_for initial_state 1 = Ok [].
Proof.
  assert (H : 1 <> current_player_ initial_state) by (vm_compute; discriminate).
  split; [exact H|]. exact (proj1 (get_possible_moves_other_player initial_state 1) H).
Defined.

(** ** The action interface *)

Lemma action_in_range_components (a : Z) :
  0 <= a < range_of_nn_distribution ->
  exists type rot,
    building_of_index (Z.quot a 400) = Some type
    /\ rotation_of_index (Z.quot (Z.rem a 400) 100) = Some rot
    /\ within_grid (mkSquare (Z.rem a 10) (Z.quot (Z.rem a 100) 10)).
Proof.
  unfold range_of_nn_distribution. intros Ha.
  assert (Ht : 0 <= Z.quot a 400 < 14) by (Z.to_euclidean_division_equations; lia).
  assert (Hr : 0 <= Z.quot (Z.rem a 400) 100 < 4) by (Z.to_euclidean_division_equations; lia).
  assert (Hg : within_grid (mkSquare (Z.rem a 10) (Z.quot (Z.rem a 100) 10))).
  { unfold within_grid; simpl. Z.to_euclidean_division_equations. lia. }
  destruct (building_of_index (Z.quot a 400)) as [type|] eqn:E1.
  - destruct (rotation_of_index (Z.quot (Z.rem a 400) 100)) as [rot|] eqn:E2.
    + exists type, rot. auto.
    + exfalso. unfold rotation_of_index in E2.
      destruct (Z.leb_spec 0 (Z.quot (Z.rem a 400) 100)); [|lia].
      destruct (Z.ltb_spec (Z.quot (Z.rem a 400) 100) 4); [|lia].
      simpl in E2. apply lookup_ge_None in E2. simpl in E2. lia.
  - exfalso. unfold building_of_index in E1.
    destruct (Z.leb_spec 0 (Z.quot a 400)); [|lia].
    destruct (Z.ltb_spec (Z.quot a 400) 14); [|lia].
    simpl in E1. apply lookup_ge_None in E1. simpl in E1. lia.
Qed.

(** An id of the action space is not changed by the narrowing to [int]. *)
Lemma Move_of_action_in_range (a : Z) :
  0 <= a < range_of_nn_distribution -> Move_of_action a = decode_move a.
Proof.
  unfold range_of_nn_distribution, Move_of_action, int_wrap. intros Ha.
  rewrite Z.mod_small by lia. f_equal. lia.
Qed.

(** ** Legal placements and the turn *)

Lemma In_seqZ (m n k : Z) : In k (seqZ m n) <-> m <= k < m + n.
Proof. rewrite <- list_elem_of_In. apply elem_of_seqZ. Qed.

Lemma In_rotations_upto (t : Turnable) (r : Rotation) :
  In r (rotations_upto t) <-> rotation_index r <= turnable_index t.
Proof.
  destruct t, r; simpl; split; intros H; try lia; auto 6;
    repeat (destruct H as [H|H]; try discriminate); contradiction.
Qed.

Lemma In_candidate_placements (t : Turnable) (position : Square) (r : Rotation) :
  In (position, r) (candidate_placements t)
  <-> within_grid position /\ In r (rotations_upto t).
Proof.
  unfold candidate_placements, within_grid. rewrite in_flat_map. split.
  - intros (y & Hy & H). apply in_flat_map in H as (x & Hx & H).
    apply in_map_iff in H as (r' & E & Hr). injection E as <- <-.
    apply In_seqZ in Hx, Hy. simpl. split; [lia|exact Hr].
  - intros [[Hx Hy] Hr]. exists (sq_y position). split; [apply In_seqZ; lia|].
    apply in_flat_map. exists (sq_x position). split; [apply In_seqZ; lia|].
    apply in_map_iff. exists r. split; [destruct position; reflexivity|exact Hr].
Qed.

Lemma collect_valid_moves_spec (b : Board) (type : BuildingType) (p : Z)
    (cands : list (Square * Rotation)) :
  (forall position r, In (position, r) cands -> rotation_legal type r) ->
  exists l,
    collect_valid_moves b type p cands = Ok l
    /\ forall m, In m l <->
                 exists position r,
                   In (position, r) cands
                   /\ Move_new position type r = Ok m
                   /\ is_move_valid b m p = true.
Proof.
  induction cands as [|[position r] rest IH]; intros Hlegal; simpl.
  - exists []. split; [reflexivity|]. intros m; split; [intros []|].
    intros (? & ? & [] & _).
  - destruct IH as (l & Hl & Hspec).
    { intros q r' Hin. apply (Hlegal q r'). right; exact Hin. }
    assert (L : rotation_legal type r) by (apply (Hlegal position r); left; reflexivity).
    rewrite (Move_new_ok _ _ _ L), Hl. simpl.
    match goal with |- context [is_move_valid b ?m0 p] => set (cur := m0) end.
    exists (if is_move_valid b cur p then cur :: l else l).
    split; [reflexivity|]. intros m. split.
    + intros Hin.
      assert (Hcase : (m = cur /\ is_move_valid b cur p = true) \/ In m l).
      { destruct (is_move_valid b cur p); [destruct Hin as [<-|Hin]|]; auto. }
      destruct Hcase as [[-> Hv]|Hin'].
      * exists position, r. split; [left; reflexivity|].
        split; [apply Move_new_ok, L|exact Hv].
      * apply Hspec in Hin' as (q & r' & Hq & Hm & Hv).
        exists q, r'. split; [right; exact Hq|auto].
    + intros (q & r' & [E|Hq] & Hm & Hv).
      * injection E as <- <-. rewrite (Move_new_ok _ _ _ L) in Hm. injection Hm as <-.
        fold cur in Hv |- *. rewrite Hv. left; reflexivity.
      * assert (In m l) by (apply Hspec; eauto).
        destruct (is_move_valid b cur p); [right|]; assumption.
Qed.

Lemma get_possible_moves_of_type_spec (s : CathedralState) (type : BuildingType)
    (p : Z) (pieces : Playerpieces) :
  players_at (players s) p = Ok pieces ->
  exists l,
    get_possible_moves_of_type s type p = Ok l
    /\ forall m, In m l <->
                 is_building_available pieces type = true
                 /\ exists position r,
                      within_grid position
                      /\ Move_new position type r = Ok m
                      /\ is_move_valid (board s) m p = true.
Proof.
  intros Hp. unfold get_possible_moves_of_type. rewrite Hp. simpl.
  destruct (is_building_available pieces type) eqn:Hav; simpl.
  - destruct (collect_valid_moves_spec (board s) type p
                (candidate_placements (turnable (get_instance type)))) as (l & Hl & Hspec).
    { intros q r Hin. apply In_candidate_placements in Hin as [_ Hr].
      apply In_rotations_upto in Hr. exact Hr. }
    exists l. split; [exact Hl|]. intros m. rewrite Hspec. split.
    + intros (q & r & Hin & Hm & Hv). split; [reflexivity|].
      apply In_candidate_placements in Hin as [Hg _]. eauto.
    + intros (_ & q & r & Hg & Hm & Hv). exists q, r.
      split; [|auto]. apply In_candidate_placements. split; [exact Hg|].
      apply In_rotations_upto. apply Move_new_inv in Hm as [L _]. exact L.
  - exists []. split; [reflexivity|]. intros m. split; [intros []|].
    intros [H _]. discriminate.
Qed.

Lemma any_type_has_moves_spec (s : CathedralState) (p : Z) (pieces : Playerpieces)
    (types : list BuildingType) :
  players_at (players s) p = Ok pieces ->
  exists found,
    any_type_has_moves s p types = Ok found
    /\ (found = true <->
        exists type position r m,
          In type types
          /\ is_building_available pieces type = true
          /\ within_grid position
          /\ Move_new position type r = Ok m
          /\ is_move_valid (board s) m p = true).
Proof.
  intros Hp. induction types as [|type rest IH]; simpl.
  - exists false. split; [reflexivity|]. split; [discriminate|].
    intros (? & ? & ? & ? & [] & _).
  - destruct (get_possible_moves_of_type_spec s type p pieces Hp) as (l & Hl & Hspec).
    rewrite Hl. simpl. destruct l as [|m0 l].
    + destruct IH as (found & Hf & Hiff). exists found. split; [exact Hf|].
      rewrite Hiff. split.
      * intros (t & q & r & m & Hin & H). exists t, q, r, m. split; [right; exact Hin|exact H].
      * intros (t & q & r & m & [<-|Hin] & Hav & Hg & Hm & Hv).
        -- exfalso. apply (proj2 (Hspec m)). split; eauto.
        -- exists t, q, r, m. auto.
    + exists true. split; [reflexivity|]. split; [|reflexivity]. intros _.
      destruct (proj1 (Hspec m0)) as (Hav & q & r & Hg & Hm & Hv); [left; reflexivity|].
      exists type, q, r, m0. split; [left; reflexivity|auto].
Qed.

Lemma In_get_available_building_types (pieces : Playerpieces) (type : BuildingType) :
  In type (get_available_building_types pieces) <-> is_building_available pieces type = true.
Proof.
  unfold get_available_building_types, is_building_available. rewrite filter_In.
  split; [intros [_ H]; exact H|]. intros H. split; [|exact H].
  destruct type; simpl; auto 20.
Qed.

Lemma player_has_moves_spec (s : CathedralState) (p : Z) :
  p = 0 \/ p = 1 ->
  exists found,
    player_has_moves s p = Ok found /\ (found = true <-> has_legal_placement s p).
Proof.
  intros Hp.
  assert (Hpieces : exists pieces, players_at (players s) p = Ok pieces).
  { unfold players_at. destruct Hp as [-> | ->]; simpl; eauto. }
  destruct Hpieces as (pieces & Hpieces).
  unfold player_has_moves. rewrite Hpieces. simpl.
  destruct (any_type_has_moves_spec s p pieces (get_available_building_types pieces) Hpieces)
    as (found & Hf & Hiff).
  exists found. split; [exact Hf|]. rewrite Hiff. unfold has_legal_placement. split.
  - intros (t & q & r & m & _ & H). exists pieces, t, q, r, m. auto.
  - intros (pieces' & t & q & r & m & Hp' & Hav & H).
    rewrite Hpieces in Hp'. injection Hp' as <-.
    exists t, q, r, m. split; [apply In_get_available_building_types, Hav|auto].
Qed.

(** update_current_player never throws on a state whose current player
    is 0 or 1, and hands the turn over exactly when the other player has
    a legal placement. *)
Lemma update_current_player_spec (s : CathedralState) :
  current_player_ s = 0 \/ current_player_ s = 1 ->
  exists s',
    update_current_player s = Ok s'
    /\ (has_legal_placement s (1 - current_player_ s) ->
        s' = with_current_player s (1 - current_player_ s))
    /\ (~ has_legal_placement s (1 - current_player_ s) -> s' = s).
Proof.
  intros Hc. unfold update_current_player.
  assert (E : Z.rem (current_player_ s + 1) 2 = 1 - current_player_ s).
  { destruct Hc as [-> | ->]; reflexivity. }
  rewrite E.
  destruct (player_has_moves_spec s (1 - current_player_ s)) as (found & Hf & Hiff); [lia|].
  rewrite Hf. simpl. destruct found.
  - eexists. split; [reflexivity|]. split; [reflexivity|].
    intros N. exfalso. apply N, Hiff. reflexivity.
  - eexists. split; [reflexivity|]. split; [|reflexivity].
    intros H. apply Hiff in H. discriminate.
Qed.

(** ** What region capture leaves alone *)

Lemma bind_Ok_inv {A B} (m : M A) (f : A -> M B) (b : B) :
  bind m f = Ok b -> exists a, m = Ok a /\ f a = Ok b.
Proof. destruct m as [a|e]; simpl; [eauto|discriminate]. Qed.

Lemma foldM_invariant {A S} (P : S -> Prop) (f : S -> A -> M S) (l : list A) :
  (forall s a s', P s -> f s a = Ok s' -> P s') ->
  forall s s', P s -> foldM f l s = Ok s' -> P s'.
Proof.
  intros Hstep. induction l as [|a l IH]; simpl; intros s s' Hs H.
  - injection H as <-. exact Hs.
  - apply bind_Ok_inv in H as (s1 & H1 & H2). eauto.
Qed.

Lemma same_frame_refl (s : CathedralState) : same_frame s s.
Proof. unfold same_frame; auto. Qed.

Lemma same_frame_trans (a b c : CathedralState) :
  same_frame a b -> same_frame b c -> same_frame a c.
Proof. unfold same_frame. intros (?&?&?&?&?) (?&?&?&?&?). repeat split; congruence. Qed.

Lemma remove_move_frame (s : CathedralState) (pm : PlayerMove) (s' : CathedralState) :
  remove_move s pm = Ok s' -> same_frame s s'.
Proof.
  unfold remove_move. intros H.
  apply bind_Ok_inv in H as (b & _ & H).
  apply bind_Ok_inv in H as (owner & _ & H).
  injection H as <-. unfold same_frame; simpl; auto.
Qed.

Lemma foldM_frame {A} (f : CathedralState -> A -> M CathedralState) (l : list A) :
  (forall s a s', f s a = Ok s' -> same_frame s s') ->
  forall s s', foldM f l s = Ok s' -> same_frame s s'.
Proof.
  intros Hstep s s' H.
  apply (foldM_invariant (same_frame s) f l) with (s := s); [|apply same_frame_refl|exact H].
  intros s1 a s2 H1 H2. eapply same_frame_trans; eauto.
Qed.

Lemma process_region_frame (s s' : CathedralState) (region : list Square) (color : CellState) :
  process_region s region color = Ok s' -> same_frame s s'.
Proof.
  unfold process_region. intros H.
  apply bind_Ok_inv in H as (enemies & _ & H).
  destruct (Z.of_nat (length enemies) <? 2).
  - apply bind_Ok_inv in H as (s1 & H1 & H).
    apply bind_Ok_inv in H as (b & _ & H). injection H as <-.
    apply (foldM_frame remove_move) in H1; [|apply remove_move_frame].
    destruct H1 as (?&?&?&?&?). unfold same_frame; simpl; auto.
  - injection H as <-. apply same_frame_refl.
Qed.

Lemma sweep_color_frame (s : CathedralState) (color : CellState) (s' : CathedralState) :
  sweep_color s color = Ok s' -> same_frame s s'.
Proof.
  unfold sweep_color. intros H.
  apply bind_Ok_inv in H as (r & H & E). injection E as <-.
  revert H.
  apply (foldM_invariant (fun acc => same_frame s (fst acc)) (sweep_cell color));
    [|apply same_frame_refl].
  intros acc runner acc' Hacc Hstep. unfold sweep_cell in Hstep.
  destruct (mask_at (snd acc) _ =? 1).
  - apply bind_Ok_inv in Hstep as (found & _ & Hstep).
    apply bind_Ok_inv in Hstep as (s1 & H1 & Hstep). injection Hstep as <-. simpl.
    eapply same_frame_trans; [exact Hacc|]. eapply process_region_frame; eauto.
  - injection Hstep as <-. exact Hacc.
Qed.

Lemma build_regions_frame (s s' : CathedralState) :
  build_regions s = Ok s' -> same_frame s s'.
Proof. apply (foldM_frame sweep_color). apply sweep_color_frame. Qed.

Lemma count_connections_frame (color : CellState) (cs : list Square) :
  forall (s s' : CathedralState) (n : Z),
    count_connections s color cs n = Ok s' -> same_frame s s'.
Proof.
  induction cs as [|c cs IH]; simpl; intros s s' n H.
  - injection H as <-. apply same_frame_refl.
  - destruct (negb (is_on_board c) || CellState_eqb (cell (board s) c) color
              || (get_move_count s =? 3)).
    + destruct (n + 1 >? 1); [apply build_regions_frame; exact H|eauto].
    + eauto.
Qed.

Lemma place_building_frame (s s' : CathedralState) (m : Move) :
  place_building s m = Ok s' -> same_frame s s'.
Proof.
  unfold place_building. intros H.
  apply bind_Ok_inv in H as (b & _ & H).
  destruct (get_move_count (with_board s b) >? 2).
  - apply count_connections_frame in H.
    destruct H as (?&?&?&?&?). unfold same_frame; simpl in *; auto.
  - injection H as <-. unfold same_frame; simpl; auto.
Qed.

Lemma has_legal_placement_ext (s t : CathedralState) (p : Z) :
  board s = board t -> players s = players t ->
  has_legal_placement s p <-> has_legal_placement t p.
Proof. unfold has_legal_placement. intros -> ->. reflexivity. Qed.

(** C8.  Whenever a move application completes, the turn has passed to
    the other player if and only if, on the resulting board and with the
    resulting inventories, that player has at least one legal placement
    over their available building types; otherwise the player who moved
    keeps the turn. *)
Theorem turn_passes_iff_other_can_move (s s' : CathedralState) (m : Move) :
  current_player_ s = 0 \/ current_player_ s = 1 ->
  make_unvalidated_move s m = Ok s' ->
  (current_player_ s' = 1 - current_player_ s
   <-> has_legal_placement s' (1 - current_player_ s))
  /\ (~ has_legal_placement s' (1 - current_player_ s)
      -> current_player_ s' = current_player_ s).
Proof.
  intros Hc H. unfold make_unvalidated_move in H.
  apply bind_Ok_inv in H as (s1 & H1 & H).
  apply bind_Ok_inv in H as (pieces & _ & H).
  apply bind_Ok_inv in H as (pieces' & _ & H).
  apply place_building_frame in H1 as (_ & _ & _ & Hcur & _).
  set (s2 := with_players s1 _) in H.
  assert (Hcur2 : current_player_ s2 = current_player_ s) by exact Hcur.
  destruct (update_current_player_spec s2) as (s3 & H3 & Hyes & Hno); [rewrite Hcur2; exact Hc|].
  rewrite H in H3. injection H3 as <-. rewrite Hcur2 in Hyes, Hno.
  assert (Hdec : has_legal_placement s2 (1 - current_player_ s)
                 \/ ~ has_legal_placement s2 (1 - current_player_ s)).
  { destruct (player_has_moves_spec s2 (1 - current_player_ s)) as ([|] & _ & Hiff); [lia| |].
    - left. apply Hiff. reflexivity.
    - right. intros N. apply Hiff in N. discriminate. }
  destruct Hdec as [Y|N].
  - rewrite (Hyes Y). simpl. split.
    + split; [intros _|reflexivity].
      apply (has_legal_placement_ext _ s2); [reflexivity|reflexivity|exact Y].
    + intros N. exfalso. apply N.
      apply (has_legal_placement_ext _ s2); [reflexivity|reflexivity|exact Y].
  - rewrite (Hno N). split.
    + split; [rewrite Hcur2; lia|]. intros Y. contradiction.
    + intros _. exact Hcur2.
Qed.

Lemma turn_passes_iff_other_can_move_witness :
  exists s',
    (current_player_ initial_state = 0 \/ current_player_ initial_state = 1)
    /\ make_unvalidated_move initial_state cathedral_centre = Ok s'
    /\ (current_player_ s' = 1 - current_player_ initial_state
        <-> has_legal_placement s' (1 - current_player_ initial_state))
    /\ (~ has_legal_placement s' (1 - current_player_ initial_state)
        -> current_player_ s' = current_player_ initial_state).
Proof.
  eexists.
  assert (Hc : current_player_ initial_state = 0 \/ current_player_ initial_state = 1)
    by (left; reflexivity).
  split; [exact Hc|].
  assert (Hm : make_unvalidated_move initial_state cathedral_centre = Ok ?[s'])
    by (vm_compute; reflexivity).
  split; [exact Hm|].
  exact (turn_passes_iff_other_can_move initial_state _ cathedral_centre Hc Hm).
Defined.

(** ** Reachable positions *)

Lemma existsb_eqb_In (a : Z) (l : list Z) : existsb (Z.eqb a) l = true -> In a l.
Proof.
  intros H. apply existsb_exists in H as (x & Hx & E).
  apply Z.eqb_eq in E. subst x. exact Hx.
Qed.

Lemma legal_run_reachable (actions : list Z) :
  forall s s', reachable s -> legal_run actions s = Some s' -> reachable s'.
Proof.
  induction actions as [|a rest IH]; simpl; intros s s' Hr H.
  - injection H as <-. exact Hr.
  - destruct (LegalActions s) as [legal|] eqn:HL; [|discriminate].
    destruct (ApplyAction s a) as [s1|] eqn:HA; [|discriminate].
    destruct (existsb (Z.eqb a) legal) eqn:Hin; [|discriminate].
    apply (IH s1 s'); [|exact H].
    apply (reachable_step s s1 a legal Hr HL); [|exact HA].
    apply existsb_eqb_In, Hin.
Qed.

Lemma legal_run_play (actions : list Z) :
  forall s s', legal_run actions s = Some s' -> play actions s = Ok s'.
Proof.
  unfold play. induction actions as [|a rest IH]; simpl; intros s s' H.
  - injection H as <-. reflexivity.
  - destruct (LegalActions s) as [legal|]; [|discriminate].
    destruct (ApplyAction s a) as [s1|]; [|discriminate].
    destruct (existsb (Z.eqb a) legal); [|discriminate].
    simpl. apply IH, H.
Qed.

(** ** Undo by replay *)

Lemma corner_pocket_reachable :
  legal_run corner_pocket_actions initial_state = Some corner_pocket
  /\ reachable corner_pocket.
Proof.
  assert (H : legal_run corner_pocket_actions initial_state = Some corner_pocket)
    by (vm_compute; reflexivity).
  split; [exact H|]. exact (legal_run_reachable _ _ _ reachable_initial H).
Qed.

(** C3 at a failing input.  In the reachable position [corner_pocket]
    (black to move, corner cell (0,0) empty) the black Tavern at (9,0),
    action 9, is legal.  Applying it and undoing it at once leaves the
    history, the inventories, the removed-move set and (through
    UndoAction) the current player as they were, but the cell (0,0) is
    black territory instead of empty: the replay runs every move with the
    move count of the whole remaining history (3), so that the capture
    check, skipped when the Inn was first played as the second move, now
    fires while the Inn is replayed. *)
Theorem undo_changes_the_board :
  exists legal s1 s2 s3,
    reachable corner_pocket
    /\ LegalActions corner_pocket = Ok legal /\ In 9 legal
    /\ ApplyAction corner_pocket 9 = Ok s1
    /\ undo_move s1 = Ok s2
    /\ UndoAction s1 (current_player_ corner_pocket) 9 = Ok s3
    /\ history_ s2 = history_ corner_pocket
    /\ players s2 = players corner_pocket
    /\ removed_moves s2 = removed_moves corner_pocket
    /\ current_player_ s2 = current_player_ corner_pocket
    /\ board s3 = board s2
    /\ cell (board corner_pocket) (mkSquare 0 0) = EMPTY
    /\ cell (board s2) (mkSquare 0 0) = BLACK_REGION
    /\ board s2 <> board corner_pocket.
Proof.
  eexists _, _, _, _.
  split; [apply corner_pocket_reachable|].
  split; [vm_compute; reflexivity|].
  split; [apply existsb_eqb_In; vm_compute; reflexivity|].
  split; [vm_compute; reflexivity|].
  split; [vm_compute; reflexivity|].
  split; [vm_compute; reflexivity|].
  repeat (split; [vm_compute; reflexivity|]).
  vm_compute. discriminate.
Qed.

(** ** Scoring *)


Lemma int_wrap_minus (a b : Z) : int_wrap (int_wrap a - b) = int_wrap (a - b).
Proof.
  unfold int_wrap.
  replace ((a + 2 ^ 31) mod 2 ^ 32 - 2 ^ 31 - b + 2 ^ 31)
    with ((a + 2 ^ 31) mod 2 ^ 32 - b) by lia.
  rewrite Zminus_mod_idemp_l. f_equal. f_equal. lia.
Qed.

Lemma int_wrap_idem (a : Z) : int_wrap (int_wrap a) = int_wrap a.
Proof.
  pose proof (int_wrap_minus a 0) as H. rewrite !Z.sub_0_r in H. exact H.
Qed.

Lemma calc_score_step (s : CathedralState) (w b : Z) (pa : PlayerAction) (m : Move) :
  Move_of_action (action pa) = Ok m ->
  int_wrap w = w -> int_wrap b = b ->
  score_step s (w, b) pa = Ok (int_wrap (w - squares_counted s 0 pa),
                       int_wrap (b - squares_counted s 1 pa)).
Proof.
  intros Hm Hw Hb. unfold score_step, is_piece_removed, squares_counted.
  rewrite Hm. simpl. fold (marked_removed s (player pa) m).
  destruct (marked_removed s (player pa) m); simpl.
  - rewrite !andb_false_r, !Z.sub_0_r, Hw, Hb. reflexivity.
  - rewrite !andb_true_r. unfold get_square_color, score_minus.
    destruct (BuildingType_eqb (building_type m) Cathedral); simpl.
    + rewrite !andb_false_r, !Z.sub_0_r, Hw, Hb. reflexivity.
    + rewrite !andb_true_r.
      destruct (Z.eqb_spec (player pa) 0) as [E0|N0].
      * rewrite E0. simpl. rewrite Z.sub_0_r, Hb. reflexivity.
      * destruct (Z.eqb_spec (player pa) 1) as [E1|N1]; simpl.
        -- rewrite Z.sub_0_r, Hw. reflexivity.
        -- rewrite !Z.sub_0_r, Hw, Hb. reflexivity.
Qed.

Lemma calc_score_loop (s : CathedralState) (h : list PlayerAction) :
  forall w b,
    forallb (fun pa => match Move_of_action (action pa) with
                       | Ok _ => true | Throw _ => false end) h = true ->
    int_wrap w = w -> int_wrap b = b ->
    foldM (score_step s) h (w, b)
    = Ok (int_wrap (w - fold_right Z.add 0 (List.map (squares_counted s 0) h)),
          int_wrap (b - fold_right Z.add 0 (List.map (squares_counted s 1) h))).
Proof.
  induction h as [|pa h IH]; intros w b Hd Hw Hb.
  - simpl. rewrite !Z.sub_0_r, Hw, Hb. reflexivity.
  - cbn [forallb] in Hd. apply andb_true_iff in Hd as [Hpa Hd].
    destruct (Move_of_action (action pa)) as [m|] eqn:Hm; [|discriminate].
    cbn [foldM]. rewrite (calc_score_step s w b pa m Hm Hw Hb). cbn [bind].
    rewrite IH; [|exact Hd|apply int_wrap_idem|apply int_wrap_idem].
    rewrite !int_wrap_minus. cbn [List.map fold_right].
    f_equal. f_equal; f_equal; lia.
Qed.

Lemma calc_score_spec (s : CathedralState) :
  history_decodes s = true ->
  calc_score s = Ok (int_wrap (47 - occupied_squares s 0),
                     int_wrap (47 - occupied_squares s 1)).
Proof.
  intros Hd. unfold calc_score.
  apply (calc_score_loop s (history_ s) 47 47 Hd); reflexivity.
Qed.


Lemma full_game_reachable :
  legal_run full_game_actions initial_state = Some full_game /\ reachable full_game.
Proof.
  assert (H : legal_run full_game_actions initial_state = Some full_game)
    by (vm_compute; reflexivity).
  split; [exact H|]. exact (legal_run_reachable _ _ _ reachable_initial H).
Qed.



(** ** Board writes *)

Lemma board_wf_rows (b : Board) :
  board_wf b = true ->
  length (field b) = 10%nat /\ forall i row, field b !! i = Some row -> length row = 10%nat.
Proof.
  unfold board_wf. rewrite andb_true_iff, Nat.eqb_eq, forallb_forall.
  intros [Hl Hrows]. split; [exact Hl|]. intros i row Hi.
  apply Nat.eqb_eq, Hrows. apply list_elem_of_In. eapply list_elem_of_lookup_2; eauto.
Qed.

Lemma Square_eqb_coords (a b : Square) :
  within_grid a -> within_grid b ->
  Square_eqb a b = false ->
  Z.to_nat (sq_y a) <> Z.to_nat (sq_y b) \/ Z.to_nat (sq_x a) <> Z.to_nat (sq_x b).
Proof.
  unfold within_grid, Square_eqb. intros Ha Hb H.
  apply andb_false_iff in H as [H|H]; apply Z.eqb_neq in H; lia.
Qed.

Lemma set_cell_spec (b b' : Board) (s : Square) (color : CellState) :
  board_wf b = true ->
  set_cell b s color = Ok b' ->
  board_wf b' = true
  /\ forall q, within_grid q ->
       cell b' q = if Square_eqb s q then color else cell b q.
Proof.
  intros Hwf H. unfold set_cell in H.
  destruct (is_on_board s) eqn:Hon; [|discriminate]. injection H as <-.
  apply is_on_board_iff in Hon.
  destruct (board_wf_rows b Hwf) as [Hlen Hrows].
  assert (Hy : (Z.to_nat (sq_y s) < length (field b))%nat) by lia.
  destruct (lookup_lt_is_Some_2 _ _ Hy) as [row Hrow].
  pose proof (Hrows _ _ Hrow) as Hrowlen.
  split.
  - unfold board_wf. simpl. rewrite length_alter, Hlen. simpl.
    apply forallb_forall. intros r Hr. apply Nat.eqb_eq.
    apply list_elem_of_In, list_elem_of_lookup_1 in Hr as [i Hi].
    rewrite list_lookup_alter in Hi.
    destruct (decide (Z.to_nat (sq_y s) = i)) as [<-|N].
    + rewrite Hrow in Hi. simpl in Hi. injection Hi as <-.
      rewrite length_insert. exact Hrowlen.
    + eapply Hrows; eauto.
  - intros q Hq. unfold cell. simpl.
    destruct (Square_eqb s q) eqn:E.
    + apply Square_eqb_eq in E. subst q.
      rewrite !nth_lookup, list_lookup_alter_eq, Hrow. simpl.
      rewrite list_lookup_insert_eq by lia. reflexivity.
    + destruct (Square_eqb_coords s q Hon Hq E) as [Ny|Nx].
      * rewrite !nth_lookup, list_lookup_alter_ne by exact Ny. reflexivity.
      * destruct (decide (Z.to_nat (sq_y s) = Z.to_nat (sq_y q))) as [Ey|Ny].
        -- rewrite <- Ey, !nth_lookup, list_lookup_alter_eq, Hrow. simpl.
           rewrite list_lookup_insert_ne by exact Nx. reflexivity.
        -- rewrite !nth_lookup, list_lookup_alter_ne by exact Ny. reflexivity.
Qed.

(** Writing one colour over a list of board squares. *)
Lemma recolor_region_spec (region : list Square) (color : CellState) :
  forall b,
    board_wf b = true ->
    forallb is_on_board region = true ->
    exists b',
      recolor_region b region color = Ok b'
      /\ board_wf b' = true
      /\ forall q, within_grid q ->
           cell b' q = if is_in_region q region then color else cell b q.
Proof.
  unfold recolor_region.
  induction region as [|s region IH]; intros b Hwf Hon; simpl.
  - exists b. auto.
  - simpl in Hon. apply andb_true_iff in Hon as [Hs Hon].
    destruct (set_cell b s color) as [b1|] eqn:H1;
      [|unfold set_cell in H1; rewrite Hs in H1; discriminate].
    destruct (set_cell_spec b b1 s color Hwf H1) as [Hwf1 Hcell1].
    destruct (IH b1 Hwf1 Hon) as (b' & Hb' & Hwf' & Hcell').
    exists b'. simpl. split; [exact Hb'|]. split; [exact Hwf'|].
    intros q Hq. rewrite (Hcell' q Hq), (Hcell1 q Hq).
    destruct (is_in_region q region); simpl; [rewrite orb_true_r; reflexivity|].
    rewrite orb_false_r. reflexivity.
Qed.

(** Clearing the squares of a removed building; squares off the board
    are skipped. *)
Lemma clear_squares_spec (squares : list Square) :
  forall b,
    board_wf b = true ->
    exists b',
      clear_squares b squares = Ok b'
      /\ board_wf b' = true
      /\ forall q, within_grid q ->
           cell b' q = if is_in_region q squares then EMPTY else cell b q.
Proof.
  unfold clear_squares.
  induction squares as [|s squares IH]; intros b Hwf; simpl.
  - exists b. auto.
  - destruct (is_on_board s) eqn:Hs.
    + destruct (set_cell b s EMPTY) as [b1|] eqn:H1;
        [|unfold set_cell in H1; rewrite Hs in H1; discriminate].
      destruct (set_cell_spec b b1 s EMPTY Hwf H1) as [Hwf1 Hcell1].
      destruct (IH b1 Hwf1) as (b' & Hb' & Hwf' & Hcell').
      exists b'. simpl. split; [exact Hb'|]. split; [exact Hwf'|].
      intros q Hq. rewrite (Hcell' q Hq), (Hcell1 q Hq).
      destruct (is_in_region q squares); simpl; [rewrite orb_true_r; reflexivity|].
      rewrite orb_false_r. reflexivity.
    + simpl. destruct (IH b Hwf) as (b' & Hb' & Hwf' & Hcell').
      exists b'. split; [exact Hb'|]. split; [exact Hwf'|].
      intros q Hq. rewrite (Hcell' q Hq).
      assert (E : Square_eqb s q = false).
      { destruct (Square_eqb s q) eqn:E; [|reflexivity].
        apply Square_eqb_eq in E. subst q. apply is_on_board_iff in Hq. congruence. }
      rewrite E. reflexivity.
Qed.

(** ** Inventories *)

Lemma building_index_inj (t t' : BuildingType) :
  building_index t = building_index t' -> t = t'.
Proof. destruct t, t'; simpl; intros H; try reflexivity; discriminate. Qed.

Lemma available_count_set (p : Playerpieces) (t t' : BuildingType) (n : Z) :
  inventory_wf p = true ->
  available_count (set_available_count p t n) t'
  = if BuildingType_eqb t t' then n else available_count p t'.
Proof.
  unfold inventory_wf, available_count, set_available_count. rewrite Nat.eqb_eq.
  intros Hlen. simpl. unfold BuildingType_eqb.
  pose proof (building_index_range t). pose proof (building_index_range t').
  destruct (bool_decide_reflect (t = t')) as [<-|N].
  - rewrite nth_lookup, list_lookup_insert_eq by lia. reflexivity.
  - rewrite !nth_lookup, list_lookup_insert_ne; [reflexivity|].
    intros E. apply N, building_index_inj. lia.
Qed.

Lemma return_building_count (p : Playerpieces) (t t' : BuildingType) :
  inventory_wf p = true ->
  available_count (return_building p t) t'
  = available_count p t'
    + (if BuildingType_eqb t t' && negb (BuildingType_eqb t Cathedral) then 1 else 0).
Proof.
  intros Hwf. unfold return_building.
  destruct (BuildingType_eqb t Cathedral) eqn:Ec; simpl.
  - rewrite andb_false_r. lia.
  - rewrite andb_true_r, available_count_set by exact Hwf.
    unfold BuildingType_eqb.
    destruct (bool_decide_reflect (t = t')) as [<-|N]; lia.
Qed.

(** ** Capturing a region *)

Lemma enemy_buildings_loop_spec (s : CathedralState) (region : list Square) (c : CellState)
    (h : list PlayerAction) :
  forallb (fun pa => match Move_of_action (action pa) with
                     | Ok _ => true | Throw _ => false end) h = true ->
  enemy_buildings_loop s region c h
  = Ok (List.flat_map
          (fun pa =>
             match Move_of_action (action pa) with
             | Ok m =>
                 if negb (marked_removed s (player pa) m)
                    && is_in_region (pos m) region
                    && negb (CellState_eqb (get_square_color m (player pa)) c)
                 then [mkPlayerMove (player pa) m] else []
             | Throw _ => []
             end) h).
Proof.
  induction h as [|pa h IH]; intros Hd; [reflexivity|].
  cbn [forallb] in Hd. apply andb_true_iff in Hd as [Hpa Hd].
  cbn [enemy_buildings_loop List.flat_map]. unfold is_piece_removed.
  destruct (Move_of_action (action pa)) as [m|] eqn:Hm; [|discriminate].
  cbn [bind]. fold (marked_removed s (player pa) m). rewrite (IH Hd).
  destruct (marked_removed s (player pa) m); cbn [bind negb andb]; [reflexivity|].
  destruct (is_in_region (pos m) region && _); reflexivity.
Qed.

Lemma get_all_enemy_buildings_spec (s : CathedralState) (region : list Square)
    (c : CellState) :
  history_decodes s = true ->
  get_all_enemy_buildings_in_region s region c = Ok (enemy_buildings s region c).
Proof. intros Hd. apply enemy_buildings_loop_spec, Hd. Qed.

Lemma enemy_buildings_player (s : CathedralState) (region : list Square) (c : CellState)
    (pm : PlayerMove) :
  history_players_valid s = true ->
  In pm (enemy_buildings s region c) -> pm_player pm = 0 \/ pm_player pm = 1.
Proof.
  unfold history_players_valid, enemy_buildings. rewrite forallb_forall.
  intros Hv Hin. apply in_flat_map in Hin as (pa & Hpa & Hin).
  specialize (Hv pa Hpa). apply orb_true_iff in Hv. rewrite !Z.eqb_eq in Hv.
  destruct (Move_of_action (action pa)) as [m|]; [|destruct Hin].
  destruct (_ && _ && _); [|destruct Hin].
  destruct Hin as [<-|[]]. exact Hv.
Qed.

Lemma get_sub_color_territory (t c : CellState) :
  territory_of t c -> get_sub_color c = t.
Proof. intros []; reflexivity. Qed.

Lemma players_at_set (ps : Playerpieces * Playerpieces) (i p : Z) (q : Playerpieces) :
  i = 0 \/ i = 1 -> p = 0 \/ p = 1 ->
  players_at (set_players_at ps i q) p
  = if p =? i then Ok q else players_at ps p.
Proof.
  unfold players_at, set_players_at.
  intros [-> | ->] [-> | ->]; reflexivity.
Qed.

Lemma players_at_valid (ps : Playerpieces * Playerpieces) (p : Z) :
  p = 0 \/ p = 1 -> players_at ps p = Ok (if p =? 0 then fst ps else snd ps).
Proof. intros [-> | ->]; reflexivity. Qed.

Lemma remove_move_ok (s : CathedralState) (pm : PlayerMove) (b1 : Board) :
  clear_squares (board s) (form (pm_move pm)) = Ok b1 ->
  pm_player pm = 0 \/ pm_player pm = 1 ->
  remove_move s pm
  = Ok (with_players
          (with_removed_moves (with_board s b1) (removed_moves s ++ [pm]))
          (set_players_at (players s) (pm_player pm)
             (return_building (if pm_player pm =? 0 then fst (players s) else snd (players s))
                              (building_type (pm_move pm))))).
Proof.
  intros Hb1 Howner. unfold remove_move. rewrite Hb1. cbn [bind].
  cbn [with_board with_removed_moves players].
  rewrite (players_at_valid _ _ Howner). reflexivity.
Qed.

(** C2.  What process_region does with one discovered region during the
    sweep for colour [c], whose territory state is [t].  With fewer than
    two enemy buildings in the region, each of them (zero or one) is
    removed: its pair is appended to the removed set, its building goes
    back to its owner's inventory unless it is the Cathedral, its squares
    are cleared; and every square of the region is recoloured to [t], so
    that afterwards a cell of the region holds [t], a cell of a removed
    building outside the region is empty, and every other cell is as
    before.  With two or more enemy buildings the state is left exactly as
    it was. *)
Theorem process_region_capture (s : CathedralState) (region : list Square)
    (c t : CellState) :
  territory_of t c ->
  history_decodes s = true ->
  history_players_valid s = true ->
  board_wf (board s) = true ->
  inventory_wf (fst (players s)) = true ->
  inventory_wf (snd (players s)) = true ->
  forallb is_on_board region = true ->
  get_all_enemy_buildings_in_region s region c = Ok (enemy_buildings s region c)
  /\ ((length (enemy_buildings s region c) < 2)%nat ->
      exists s',
        process_region s region c = Ok s'
        /\ (forall q, within_grid q ->
              cell (board s') q
              = if is_in_region q region then t
                else if existsb (fun pm => is_in_region q (form (pm_move pm)))
                                (enemy_buildings s region c)
                     then EMPTY
                     else cell (board s) q)
        /\ removed_moves s' = removed_moves s ++ enemy_buildings s region c
        /\ (forall p type, p = 0 \/ p = 1 ->
              exists before after,
                players_at (players s) p = Ok before
                /\ players_at (players s') p = Ok after
                /\ available_count after type
                   = available_count before type
                     + returned_to (enemy_buildings s region c) p type)
        /\ same_frame s s')
  /\ ((2 <= length (enemy_buildings s region c))%nat ->
      process_region s region c = Ok s).
Proof.
  intros Ht Hd Hv Hwf Hi0 Hi1 Hon.
  pose proof (get_all_enemy_buildings_spec s region c Hd) as Hget.
  pose proof (enemy_buildings_player s region c) as Hplayer.
  split; [exact Hget|].
  unfold process_region. rewrite Hget. cbn [bind].
  rewrite (get_sub_color_territory t c Ht).
  destruct (enemy_buildings s region c) as [|pm [|pm2 rest]] eqn:He.
  - (* no enemy building: the region is recoloured, nothing else changes *)
    split; [intros _|simpl; lia].
    destruct (recolor_region_spec region t (board s) Hwf Hon) as (b' & Hb' & _ & Hcell).
    exists (with_board s b'). simpl. rewrite Hb'. simpl.
    split; [reflexivity|]. split; [exact Hcell|].
    split; [rewrite app_nil_r; reflexivity|].
    split; [|unfold same_frame; simpl; auto].
    intros p type Hp. rewrite (players_at_valid _ p Hp).
    eexists _, _. split; [reflexivity|]. split; [reflexivity|].
    unfold returned_to. simpl. lia.
  - (* one enemy building: removed, then the region is recoloured *)
    split; [intros _|simpl; lia].
    assert (Howner : pm_player pm = 0 \/ pm_player pm = 1)
      by (apply Hplayer; [exact Hv|left; reflexivity]).
    destruct (clear_squares_spec (form (pm_move pm)) (board s) Hwf)
      as (b1 & Hb1 & Hwf1 & Hcell1).
    destruct (recolor_region_spec region t b1 Hwf1 Hon) as (b' & Hb' & _ & Hcell').
    change (Z.of_nat (length [pm]) <? 2) with true. cbn iota.
    cbn [foldM]. rewrite (remove_move_ok s pm b1 Hb1 Howner). cbn [bind].
    cbn [with_board with_removed_moves with_players board].
    rewrite Hb'. cbn [bind].
    eexists. split; [reflexivity|].
    cbn [with_board with_players with_removed_moves board removed_moves players].
    split.
    { intros q Hq. rewrite (Hcell' q Hq), (Hcell1 q Hq). simpl.
      rewrite orb_false_r. reflexivity. }
    split; [reflexivity|].
    split; [|unfold same_frame; simpl; auto].
    intros p type Hp.
    rewrite (players_at_set _ _ _ _ Howner Hp), (players_at_valid _ p Hp).
    unfold returned_to. cbn [List.filter].
    rewrite (Z.eqb_sym (pm_player pm) p).
    destruct (Z.eqb_spec p (pm_player pm)) as [E|N].
    + eexists _, _. split; [reflexivity|]. split; [reflexivity|].
      assert (Hinv : inventory_wf (if pm_player pm =? 0 then fst (players s)
                                   else snd (players s)) = true)
        by (destruct (pm_player pm =? 0); assumption).
      rewrite (return_building_count _ _ type Hinv). rewrite <- E.
      cbn [andb]. destruct (_ && _); simpl; lia.
    + eexists _, _. split; [reflexivity|]. split; [reflexivity|].
      simpl. lia.
  - (* two or more: nothing happens *)
    split; [simpl; lia|intros _].
    destruct (Z.ltb_spec (Z.of_nat (length (pm :: pm2 :: rest))) 2) as [L|_];
      [simpl in L; lia|reflexivity].
Qed.

Lemma tavern_in_pocket_reachable :
  legal_run tavern_in_pocket_actions initial_state = Some tavern_in_pocket
  /\ reachable tavern_in_pocket.
Proof.
  assert (H : legal_run tavern_in_pocket_actions initial_state = Some tavern_in_pocket)
    by (vm_compute; reflexivity).
  split; [exact H|]. exact (legal_run_reachable _ _ _ reachable_initial H).
Qed.

Lemma process_region_capture_witness :
  territory_of BLACK_REGION BLACK
  /\ history_decodes tavern_in_pocket = true
  /\ history_players_valid tavern_in_pocket = true
  /\ board_wf (board tavern_in_pocket) = true
  /\ inventory_wf (fst (players tavern_in_pocket)) = true
  /\ inventory_wf (snd (players tavern_in_pocket)) = true
  /\ forallb is_on_board [mkSquare 0 0] = true
  /\ (length (enemy_buildings tavern_in_pocket [mkSquare 0 0] BLACK) < 2)%nat
  /\ exists s',
      process_region tavern_in_pocket [mkSquare 0 0] BLACK = Ok s'
      /\ cell (board s') (mkSquare 0 0) = BLACK_REGION
      /\ removed_moves s'
         = removed_moves tavern_in_pocket
           ++ enemy_buildings tavern_in_pocket [mkSquare 0 0] BLACK
      /\ same_frame tavern_in_pocket s'.
Proof.
  assert (H1 : history_decodes tavern_in_pocket = true) by (vm_compute; reflexivity).
  assert (H2 : history_players_valid tavern_in_pocket = true) by (vm_compute; reflexivity).
  assert (H3 : board_wf (board tavern_in_pocket) = true) by (vm_compute; reflexivity).
  assert (H4 : inventory_wf (fst (players tavern_in_pocket)) = true) by (vm_compute; reflexivity).
  assert (H5 : inventory_wf (snd (players tavern_in_pocket)) = true) by (vm_compute; reflexivity).
  assert (H6 : forallb is_on_board [mkSquare 0 0] = true) by (vm_compute; reflexivity).
  assert (H7 : (length (enemy_buildings tavern_in_pocket [mkSquare 0 0] BLACK) < 2)%nat)
    by (vm_compute; lia).
  destruct (process_region_capture tavern_in_pocket [mkSquare 0 0] BLACK BLACK_REGION
              territory_black H1 H2 H3 H4 H5 H6) as (_ & Hlt & _).
  destruct (Hlt H7) as (s' & Hs' & Hcell & Hrem & _ & Hframe).
  repeat (split; [assumption || exact territory_black|]).
  exists s'. split; [exact Hs'|]. split; [|split; assumption].
  rewrite Hcell; [reflexivity|]. unfold within_grid; simpl; lia.
Defined.

(** The region used above is the first one the black sweep discovers on
    that board: the flood fill started at runner 0 returns the single
    cell (0,0). *)
Example pocket_is_first_black_region :
  mask_at (field_without_color (board tavern_in_pocket) BLACK) (mkSquare 0 0) = 1
  /\ exists mask,
      flood_fill 100
        (mask_clear (field_without_color (board tavern_in_pocket) BLACK) (mkSquare 0 0))
        [mkSquare 0 0] []
      = Ok (mask, [mkSquare 0 0]).
Proof.
  split; [vm_compute; reflexivity|].
  eexists. vm_compute. reflexivity.
Qed.

(** The consecutive-move rule at work: in the reachable position
    [squeezed] black (player 1) is to move; after black's Tavern at (3,9),
    action 93, white has no legal placement, the turn stays with black,
    and black's next action is legal. *)
Example turn_retained_when_opponent_is_stuck :
  exists s' legal,
    legal_run squeezed_actions initial_state = Some squeezed
    /\ current_player_ squeezed = 1
    /\ legal_run [93] squeezed = Some s'
    /\ player_has_moves s' 0 = Ok false
    /\ current_player_ s' = 1
    /\ LegalActions s' = Ok legal /\ In 81 legal.
Proof.
  eexists _, _.
  split; [vm_compute; reflexivity|].
  split; [reflexivity|].
  split; [vm_compute; reflexivity|].
  split; [vm_compute; reflexivity|].
  split; [reflexivity|].
  split; [vm_compute; reflexivity|].
  apply existsb_eqb_In. vm_compute. reflexivity.
Qed.

(** ** The flood-fill budget is never exhausted *)

Lemma count_ones_cons (v : Z) (row : list Z) :
  count_ones (v :: row) = ((if (1 =? v)%Z then 1 else 0) + count_ones row)%nat.
Proof. unfold count_ones. cbn [List.filter]. destruct (1 =? v)%Z; reflexivity. Qed.

Lemma count_ones_insert (row : list Z) (i : nat) :
  List.nth i row 0 = 1 -> (count_ones (<[i:=0%Z]> row) + 1 = count_ones row)%nat.
Proof.
  revert i. induction row as [|v row IH]; intros [|i] H; simpl in H.
  - discriminate.
  - discriminate.
  - subst v. change (<[0%nat:=0]> (1 :: row)) with (0 :: row).
    rewrite !count_ones_cons. simpl. lia.
  - specialize (IH i H).
    change (<[S i:=0]> (v :: row)) with (v :: <[i:=0]> row).
    rewrite !count_ones_cons. lia.
Qed.

Lemma ones_cons (row : list Z) (mask : list (list Z)) :
  ones (row :: mask) = (count_ones row + ones mask)%nat.
Proof. reflexivity. Qed.

Lemma ones_mask_clear (mask : list (list Z)) (s : Square) :
  mask_at mask s = 1 -> (ones (mask_clear mask s) + 1 = ones mask)%nat.
Proof.
  unfold mask_at, mask_clear.
  generalize (Z.to_nat (sq_y s)) as j. generalize (Z.to_nat (sq_x s)) as i.
  intros i. induction mask as [|row mask IH]; intros [|j] H; simpl in H.
  - destruct i; discriminate.
  - destruct i; discriminate.
  - change (alter (fun row => <[i:=0]> row) 0%nat (row :: mask))
      with (<[i:=0]> row :: mask).
    rewrite !ones_cons. pose proof (count_ones_insert row i H). lia.
  - change (alter (fun row => <[i:=0]> row) (S j) (row :: mask))
      with (row :: alter (fun row => <[i:=0]> row) j mask).
    rewrite !ones_cons. specialize (IH j H). lia.
Qed.

Lemma visit_neighbours_measure (current_field : Square) (acc : list (list Z) * list Square) :
  (length (snd (visit_neighbours current_field acc))
   + ones (fst (visit_neighbours current_field acc))
   = length (snd acc) + ones (fst acc))%nat.
Proof.
  unfold visit_neighbours. revert acc.
  induction neighbour_offsets as [|d ds IH]; intros acc; simpl; [reflexivity|].
  rewrite IH.
  destruct (is_on_board _ && (mask_at (fst acc) _ =? 1)) eqn:E; [|reflexivity].
  apply andb_true_iff in E as [_ E]. apply Z.eqb_eq in E.
  simpl. rewrite length_app. simpl.
  pose proof (ones_mask_clear _ _ E). lia.
Qed.

(** With a budget of at least the queue length plus the number of free
    cells, the flood fill returns, and it leaves no more free cells than
    that. *)
Lemma flood_fill_total (budget : nat) :
  forall mask queue region,
    (length queue + ones mask <= budget)%nat ->
    exists mask' region',
      flood_fill budget mask queue region = Ok (mask', region')
      /\ (ones mask' <= length queue + ones mask)%nat.
Proof.
  induction budget as [|budget IH]; intros mask queue region Hle.
  - destruct queue as [|c rest]; [|simpl in Hle; lia].
    exists mask, region. split; [reflexivity|simpl; lia].
  - destruct queue as [|c rest].
    + exists mask, region. split; [reflexivity|simpl; lia].
    + cbn [flood_fill].
      pose proof (visit_neighbours_measure c (mask, rest)) as Hm.
      change (snd (mask, rest)) with rest in Hm. change (fst (mask, rest)) with mask in Hm.
      cbn [length] in Hle.
      destruct (IH (fst (visit_neighbours c (mask, rest)))
                   (snd (visit_neighbours c (mask, rest)))
                   (region ++ [c])) as (mask' & region' & Hff & Hones); [lia|].
      exists mask', region'. split; [exact Hff|]. cbn [length]. lia.
Qed.

Lemma count_ones_le (row : list Z) : (count_ones row <= length row)%nat.
Proof.
  induction row as [|v row IH]; [reflexivity|].
  rewrite count_ones_cons. cbn [length]. destruct (1 =? v); lia.
Qed.

Lemma ones_grid {A B} (f : A -> B -> Z) (xs : list B) (ys : list A) :
  (ones (List.map (fun y => List.map (f y) xs) ys) <= length ys * length xs)%nat.
Proof.
  induction ys as [|y ys IH]; simpl; [lia|].
  pose proof (count_ones_le (List.map (f y) xs)) as H. rewrite length_map in H. lia.
Qed.

Lemma ones_field_without_color (b : Board) (color : CellState) :
  (ones (field_without_color b color) <= 100)%nat.
Proof.
  unfold field_without_color.
  pose proof (ones_grid
    (fun y x => if negb (CellState_eqb (cell b (mkSquare x y)) color) then 1 else 0)
    (seqZ 0 10) (seqZ 0 10)) as H.
  rewrite length_seqZ in H. exact H.
Qed.

Lemma within_budget_Ok {A} (a : A) : within_budget (Ok a).
Proof. discriminate. Qed.

Lemma within_budget_bind {A B} (m : M A) (f : A -> M B) :
  within_budget m -> (forall a, m = Ok a -> within_budget (f a)) ->
  within_budget (bind m f).
Proof.
  intros Hm Hf. destruct m as [a|e]; simpl; [apply Hf; reflexivity|].
  intros E. apply Hm. injection E as ->. reflexivity.
Qed.

Lemma within_budget_foldM {A S} (P : S -> Prop) (f : S -> A -> M S) (l : list A) :
  (forall s a, P s -> within_budget (f s a) /\ forall s', f s a = Ok s' -> P s') ->
  forall s, P s -> within_budget (foldM f l s).
Proof.
  intros Hstep. induction l as [|a l IH]; intros s Hs; simpl; [apply within_budget_Ok|].
  destruct (Hstep s a Hs) as [Hb Hnext].
  apply within_budget_bind; [exact Hb|]. intros s' Hs'. apply IH, Hnext, Hs'.
Qed.

Lemma Move_new_budget (position : Square) (type : BuildingType) (rot : Rotation) :
  within_budget (Move_new position type rot).
Proof.
  destruct (rotation_legal_dec type rot) as [L|N].
  - rewrite (Move_new_ok _ _ _ L). discriminate.
  - rewrite (Move_new_throws _ _ _ N). discriminate.
Qed.

Lemma Move_of_action_budget (a : Z) : within_budget (Move_of_action a).
Proof.
  unfold Move_of_action. rewrite decode_move_unfold.
  destruct (building_of_index _); [|discriminate].
  destruct (rotation_of_index _); [|discriminate].
  apply Move_new_budget.
Qed.

Lemma players_at_budget (ps : Playerpieces * Playerpieces) (i : Z) :
  within_budget (players_at ps i).
Proof. unfold players_at. destruct (i =? 0), (i =? 1); discriminate. Qed.

Lemma set_cell_budget (b : Board) (s : Square) (color : CellState) :
  within_budget (set_cell b s color).
Proof. unfold set_cell. destruct (is_on_board s); discriminate. Qed.

Lemma is_piece_removed_budget (s : CathedralState) (pa : PlayerAction) :
  within_budget (is_piece_removed s pa).
Proof.
  unfold is_piece_removed. apply within_budget_bind; [apply Move_of_action_budget|].
  intros; apply within_budget_Ok.
Qed.

Lemma enemy_buildings_loop_budget (s : CathedralState) (region : list Square)
    (c : CellState) (h : list PlayerAction) :
  within_budget (enemy_buildings_loop s region c h).
Proof.
  induction h as [|pa h IH]; simpl; [apply within_budget_Ok|].
  apply within_budget_bind; [apply is_piece_removed_budget|]. intros removed _.
  destruct removed; [exact IH|].
  apply within_budget_bind; [apply Move_of_action_budget|]. intros m _.
  apply within_budget_bind; [exact IH|]. intros; apply within_budget_Ok.
Qed.

Lemma remove_move_budget (s : CathedralState) (pm : PlayerMove) :
  within_budget (remove_move s pm).
Proof.
  unfold remove_move. apply within_budget_bind.
  - unfold clear_squares. apply (within_budget_foldM (fun _ => True)); [|exact I].
    intros b sq _. split; [|auto].
    destruct (is_on_board sq); [apply set_cell_budget|apply within_budget_Ok].
  - intros b _. apply within_budget_bind; [apply players_at_budget|].
    intros; apply within_budget_Ok.
Qed.

Lemma process_region_budget (s : CathedralState) (region : list Square) (c : CellState) :
  within_budget (process_region s region c).
Proof.
  unfold process_region, get_all_enemy_buildings_in_region.
  apply within_budget_bind; [apply enemy_buildings_loop_budget|]. intros enemies _.
  destruct (Z.of_nat (length enemies) <? 2); [|apply within_budget_Ok].
  apply within_budget_bind.
  - apply (within_budget_foldM (fun _ => True)); [|exact I].
    intros s1 pm _. split; [apply remove_move_budget|auto].
  - intros s1 _. apply within_budget_bind; [|intros; apply within_budget_Ok].
    unfold recolor_region. apply (within_budget_foldM (fun _ => True)); [|exact I].
    intros b sq _. split; [apply set_cell_budget|auto].
Qed.

Lemma sweep_cell_budget (color : CellState) (acc : CathedralState * list (list Z))
    (runner : Z) :
  (ones (snd acc) <= 100)%nat ->
  within_budget (sweep_cell color acc runner)
  /\ forall acc', sweep_cell color acc runner = Ok acc' -> (ones (snd acc') <= 100)%nat.
Proof.
  intros Hle. unfold sweep_cell.
  destruct (Z.eqb_spec (mask_at (snd acc) (mkSquare (Z.rem runner 10) (Z.quot runner 10))) 1)
    as [E|N].
  - pose proof (ones_mask_clear _ _ E) as Hc.
    destruct (flood_fill_total 100
                (mask_clear (snd acc) (mkSquare (Z.rem runner 10) (Z.quot runner 10)))
                [mkSquare (Z.rem runner 10) (Z.quot runner 10)] [])
      as (mask' & region' & Hff & Hones); [simpl; lia|].
    rewrite Hff. simpl in Hones |- *. split.
    + apply within_budget_bind; [apply process_region_budget|].
      intros; apply within_budget_Ok.
    + intros acc' H. apply bind_Ok_inv in H as (s' & _ & H). injection H as <-.
      simpl. lia.
  - split; [apply within_budget_Ok|]. intros acc' H. injection H as <-. exact Hle.
Qed.

Lemma sweep_color_budget (s : CathedralState) (color : CellState) :
  within_budget (sweep_color s color).
Proof.
  unfold sweep_color. apply within_budget_bind; [|intros; apply within_budget_Ok].
  apply (within_budget_foldM (fun acc => (ones (snd acc) <= 100)%nat)).
  - intros acc runner Hacc. apply sweep_cell_budget, Hacc.
  - simpl. apply ones_field_without_color.
Qed.

(** The sweep always has budget to spare: build_regions never ends with
    the model's [loop_budget] exception. *)
Lemma build_regions_budget (s : CathedralState) : within_budget (build_regions s).
Proof.
  unfold build_regions. apply (within_budget_foldM (fun _ => True)); [|exact I].
  intros s1 color _. split; [apply sweep_color_budget|auto].
Qed.

Lemma count_connections_budget (color : CellState) (cs : list Square) :
  forall s n, within_budget (count_connections s color cs n).
Proof.
  induction cs as [|c cs IH]; intros s n; simpl; [apply within_budget_Ok|].
  destruct (negb (is_on_board c) || _ || _); [|apply IH].
  destruct (n + 1 >? 1); [apply build_regions_budget|apply IH].
Qed.

Lemma place_building_budget (s : CathedralState) (m : Move) :
  within_budget (place_building s m).
Proof.
  unfold place_building. apply within_budget_bind.
  - unfold place_color. apply (within_budget_foldM (fun _ => True)); [|exact I].
    intros b sq _. split; [apply set_cell_budget|auto].
  - intros b _. destruct (_ >? 2); [apply count_connections_budget|apply within_budget_Ok].
Qed.

Lemma collect_valid_moves_budget (b : Board) (type : BuildingType) (p : Z)
    (cands : list (Square * Rotation)) :
  within_budget (collect_valid_moves b type p cands).
Proof.
  induction cands as [|[position rot] rest IH]; simpl; [apply within_budget_Ok|].
  apply within_budget_bind; [apply Move_new_budget|]. intros m _.
  apply within_budget_bind; [exact IH|]. intros; apply within_budget_Ok.
Qed.

Lemma get_possible_moves_of_type_budget (s : CathedralState) (type : BuildingType) (p : Z) :
  within_budget (get_possible_moves_of_type s type p).
Proof.
  unfold get_possible_moves_of_type.
  apply within_budget_bind; [apply players_at_budget|]. intros pieces _.
  destruct (negb _); [apply within_budget_Ok|apply collect_valid_moves_budget].
Qed.

Lemma player_has_moves_budget (s : CathedralState) (p : Z) :
  within_budget (player_has_moves s p).
Proof.
  unfold player_has_moves.
  apply within_budget_bind; [apply players_at_budget|]. intros pieces _.
  induction (get_available_building_types pieces) as [|type rest IH]; simpl;
    [apply within_budget_Ok|].
  apply within_budget_bind; [apply get_possible_moves_of_type_budget|].
  intros [|m l] _; [exact IH|apply within_budget_Ok].
Qed.

Lemma update_current_player_budget (s : CathedralState) :
  within_budget (update_current_player s).
Proof.
  unfold update_current_player.
  apply within_budget_bind; [apply player_has_moves_budget|].
  intros [|] _; apply within_budget_Ok.
Qed.

Lemma use_building_budget (p : Playerpieces) (t : BuildingType) :
  within_budget (use_building p t).
Proof. unfold use_building. destruct (negb _); discriminate. Qed.

Lemma make_unvalidated_move_budget (s : CathedralState) (m : Move) :
  within_budget (make_unvalidated_move s m).
Proof.
  unfold make_unvalidated_move.
  apply within_budget_bind; [apply place_building_budget|]. intros s1 _.
  apply within_budget_bind; [apply players_at_budget|]. intros pieces _.
  apply within_budget_bind; [apply use_building_budget|]. intros pieces' _.
  apply update_current_player_budget.
Qed.

Lemma is_finished_budget (s : CathedralState) : within_budget (is_finished s).
Proof.
  unfold is_finished.
  apply within_budget_bind; [apply player_has_moves_budget|]. intros [|] _;
    [apply within_budget_Ok|].
  apply within_budget_bind; [apply player_has_moves_budget|].
  intros; apply within_budget_Ok.
Qed.

Lemma DoApplyAction_budget (s : CathedralState) (a : Z) : within_budget (DoApplyAction s a).
Proof.
  unfold DoApplyAction.
  apply within_budget_bind; [apply Move_of_action_budget|]. intros m _.
  apply within_budget_bind; [|intros; apply within_budget_Ok].
  unfold make_move. destruct (negb _); [apply within_budget_Ok|].
  apply within_budget_bind; [apply make_unvalidated_move_budget|].
  intros; apply within_budget_Ok.
Qed.

(** No operation of the engine ends because the model's flood-fill
    budget ran out: whatever exception a move application or an undo
    ends with is one the source throws (or an undefined access). *)
Lemma engine_within_budget (s : CathedralState) (a : Z) :
  within_budget (DoApplyAction s a)
  /\ within_budget (ApplyAction s a)
  /\ within_budget (undo_move s).
Proof.
  split; [apply DoApplyAction_budget|]. split.
  - unfold ApplyAction, CurrentPlayer, IsTerminal.
    apply within_budget_bind.
    + apply within_budget_bind; [|intros; apply within_budget_Ok].
      destruct (negb _); [apply within_budget_Ok|apply is_finished_budget].
    + intros p _. apply within_budget_bind; [apply DoApplyAction_budget|].
      intros; apply within_budget_Ok.
  - unfold undo_move. destruct (history_ s); [apply within_budget_Ok|].
    apply (within_budget_foldM (fun _ => True)); [|exact I].
    intros s1 pa _. split; [|auto].
    apply within_budget_bind; [apply Move_of_action_budget|].
    intros m _. apply make_unvalidated_move_budget.
Qed.

(** ** Reachable positions are well formed *)

Lemma set_available_count_wf (p : Playerpieces) (t : BuildingType) (n : Z) :
  inventory_wf p = true -> inventory_wf (set_available_count p t n) = true.
Proof.
  unfold inventory_wf, set_available_count. simpl. rewrite length_insert. auto.
Qed.

Lemma return_building_wf (p : Playerpieces) (t : BuildingType) :
  inventory_wf p = true -> inventory_wf (return_building p t) = true.
Proof.
  intros H. unfold return_building.
  destruct (negb _); [apply set_available_count_wf, H|exact H].
Qed.

Lemma use_building_wf (p p' : Playerpieces) (t : BuildingType) :
  inventory_wf p = true -> use_building p t = Ok p' -> inventory_wf p' = true.
Proof.
  intros H. unfold use_building. destruct (negb _); [discriminate|].
  intros [= <-]. apply set_available_count_wf, H.
Qed.

Lemma players_at_wf (ps : Playerpieces * Playerpieces) (i : Z) (p : Playerpieces) :
  inventory_wf (fst ps) = true -> inventory_wf (snd ps) = true ->
  players_at ps i = Ok p -> inventory_wf p = true.
Proof.
  intros H0 H1. unfold players_at.
  destruct (i =? 0); [intros [= <-]; exact H0|].
  destruct (i =? 1); [intros [= <-]; exact H1|discriminate].
Qed.

Lemma set_players_at_wf (ps : Playerpieces * Playerpieces) (i : Z) (p : Playerpieces) :
  inventory_wf (fst ps) = true -> inventory_wf (snd ps) = true -> inventory_wf p = true ->
  inventory_wf (fst (set_players_at ps i p)) = true
  /\ inventory_wf (snd (set_players_at ps i p)) = true.
Proof. intros H0 H1 Hp. unfold set_players_at. destruct (i =? 0); simpl; auto. Qed.

Lemma foldM_set_cell_wf (g : Board -> Square -> M Board) (squares : list Square) :
  (forall b sq b', board_wf b = true -> g b sq = Ok b' -> board_wf b' = true) ->
  forall b b', board_wf b = true -> foldM g squares b = Ok b' -> board_wf b' = true.
Proof.
  intros Hg b b' Hb. apply (foldM_invariant (fun b => board_wf b = true)); [|exact Hb].
  intros b1 sq b2 H1 H2. eapply Hg; eauto.
Qed.

Lemma set_cell_wf (color : CellState) (b : Board) (sq : Square) (b' : Board) :
  board_wf b = true -> set_cell b sq color = Ok b' -> board_wf b' = true.
Proof. intros Hb H. apply (set_cell_spec b b' sq color Hb H). Qed.

Lemma remove_move_wf (s : CathedralState) (pm : PlayerMove) (s' : CathedralState) :
  storage_wf s -> remove_move s pm = Ok s' -> storage_wf s'.
Proof.
  intros (Hb & H0 & H1) H. unfold remove_move in H.
  apply bind_Ok_inv in H as (b & Hclear & H).
  apply bind_Ok_inv in H as (owner & Howner & H). injection H as <-.
  simpl in Howner. pose proof (players_at_wf _ _ _ H0 H1 Howner) as Hw.
  destruct (set_players_at_wf (players s) (pm_player pm)
              (return_building owner (building_type (pm_move pm))) H0 H1
              (return_building_wf _ _ Hw)) as [G0 G1].
  repeat split; simpl; [|exact G0|exact G1].
  revert Hclear. unfold clear_squares. apply foldM_set_cell_wf; [|exact Hb].
  intros b1 sq b2 Hb1. destruct (is_on_board sq); [apply set_cell_wf, Hb1|].
  intros [= <-]. exact Hb1.
Qed.

Lemma process_region_wf (s : CathedralState) (region : list Square) (c : CellState)
    (s' : CathedralState) :
  storage_wf s -> process_region s region c = Ok s' -> storage_wf s'.
Proof.
  intros Hs H. unfold process_region in H.
  apply bind_Ok_inv in H as (enemies & _ & H).
  destruct (Z.of_nat (length enemies) <? 2); [|injection H as <-; exact Hs].
  apply bind_Ok_inv in H as (s1 & H1 & H).
  apply bind_Ok_inv in H as (b & Hb & H). injection H as <-.
  assert (Hs1 : storage_wf s1).
  { revert H1. apply (foldM_invariant storage_wf); [|exact Hs].
    intros a pm a' Ha. apply remove_move_wf, Ha. }
  destruct Hs1 as (Hb1 & H0 & H1').
  repeat split; simpl; [|exact H0|exact H1'].
  revert Hb. unfold recolor_region. apply foldM_set_cell_wf; [|exact Hb1].
  intros b1 sq b2. apply set_cell_wf.
Qed.

Lemma build_regions_wf (s s' : CathedralState) :
  storage_wf s -> build_regions s = Ok s' -> storage_wf s'.
Proof.
  intros Hs. unfold build_regions. apply (foldM_invariant storage_wf); [|exact Hs].
  intros s1 color s2 Hs1 H. unfold sweep_color in H.
  apply bind_Ok_inv in H as (r & H & E). injection E as <-. revert H.
  apply (foldM_invariant (fun acc => storage_wf (fst acc))); [|exact Hs1].
  intros acc runner acc' Hacc Hstep. unfold sweep_cell in Hstep.
  destruct (mask_at (snd acc) _ =? 1); [|injection Hstep as <-; exact Hacc].
  apply bind_Ok_inv in Hstep as (found & _ & Hstep).
  apply bind_Ok_inv in Hstep as (s3 & H3 & Hstep). injection Hstep as <-. simpl.
  eapply process_region_wf; eauto.
Qed.

Lemma count_connections_wf (color : CellState) (cs : list Square) :
  forall s s' n, storage_wf s -> count_connections s color cs n = Ok s' -> storage_wf s'.
Proof.
  induction cs as [|c cs IH]; simpl; intros s s' n Hs H.
  - injection H as <-. exact Hs.
  - destruct (negb (is_on_board c) || _ || _); [|eauto].
    destruct (n + 1 >? 1); [eapply build_regions_wf; eauto|eauto].
Qed.

Lemma place_building_wf (s s' : CathedralState) (m : Move) :
  storage_wf s -> place_building s m = Ok s' -> storage_wf s'.
Proof.
  intros (Hb & H0 & H1) H. unfold place_building in H.
  apply bind_Ok_inv in H as (b & Hplace & H).
  assert (Hwb : storage_wf (with_board s b)).
  { repeat split; simpl; [|exact H0|exact H1].
    revert Hplace. unfold place_color. apply foldM_set_cell_wf; [|exact Hb].
    intros b1 sq b2. apply set_cell_wf. }
  destruct (_ >? 2); [eapply count_connections_wf; eauto|].
  injection H as <-. exact Hwb.
Qed.

Lemma update_current_player_cases (s s' : CathedralState) :
  update_current_player s = Ok s' ->
  s' = s \/ s' = with_current_player s (Z.rem (current_player_ s + 1) 2).
Proof.
  unfold update_current_player. intros H.
  apply bind_Ok_inv in H as ([|] & _ & H); injection H as <-; auto.
Qed.

(** A completed move application keeps the history and the storage
    invariants, and leaves one of the two players to move. *)
Lemma make_unvalidated_move_wf (s s' : CathedralState) (m : Move) :
  storage_wf s -> current_player_ s = 0 \/ current_player_ s = 1 ->
  make_unvalidated_move s m = Ok s' ->
  storage_wf s'
  /\ (current_player_ s' = 0 \/ current_player_ s' = 1)
  /\ history_ s' = history_ s
  /\ move_number_ s' = move_number_ s
  /\ outcome_ s' = outcome_ s.
Proof.
  intros Hs Hc H. unfold make_unvalidated_move in H.
  apply bind_Ok_inv in H as (s1 & H1 & H).
  apply bind_Ok_inv in H as (pieces & Hp & H).
  apply bind_Ok_inv in H as (pieces' & Hu & H).
  pose proof (place_building_frame _ _ _ H1) as (Hh & Hn & _ & Hcur & Hout).
  destruct (place_building_wf _ _ _ Hs H1) as (Hb & H0 & H1').
  pose proof (use_building_wf _ _ _ (players_at_wf _ _ _ H0 H1' Hp) Hu) as Hw.
  destruct (set_players_at_wf (players s1) (current_player_ s1) pieces' H0 H1' Hw)
    as [G0 G1].
  set (s2 := with_players s1 _) in H.
  assert (Hs2 : storage_wf s2) by (repeat split; assumption).
  assert (Hc' : Z.rem (current_player_ s + 1) 2 = 0 \/ Z.rem (current_player_ s + 1) 2 = 1)
    by (destruct Hc as [-> | ->]; simpl; auto).
  apply update_current_player_cases in H.
  change (current_player_ s2) with (current_player_ s1) in H. rewrite Hcur in H.
  destruct H as [-> | ->].
  - split; [exact Hs2|]. split; [change (current_player_ s2) with (current_player_ s1);
                                 rewrite Hcur; exact Hc|].
    repeat split; assumption.
  - split; [exact Hs2|]. split; [exact Hc'|]. repeat split; assumption.
Qed.

(** A non-empty answer of the legal-move query is backed by a legal
    placement of the current player. *)
Lemma possible_moves_legal (s : CathedralState) (moves : list Move) (m : Move) :
  current_player_ s = 0 \/ current_player_ s = 1 ->
  get_possible_moves s = Ok moves -> In m moves ->
  has_legal_placement s (current_player_ s).
Proof.
  intros Hc H Hin. unfold get_possible_moves, get_possible_moves_for in H.
  rewrite Z.eqb_refl in H. simpl in H.
  pose proof (players_at_valid (players s) _ Hc) as Hp.
  set (pieces := if current_player_ s =? 0 then fst (players s) else snd (players s)) in Hp.
  assert (Htype : forall type l,
             get_possible_moves_of_type s type (current_player_ s) = Ok l -> In m l ->
             has_legal_placement s (current_player_ s)).
  { intros type l Hl Hm.
    destruct (get_possible_moves_of_type_spec s type _ pieces Hp) as (l' & Hl' & Hspec).
    rewrite Hl in Hl'. injection Hl' as <-.
    apply Hspec in Hm as (Hav & q & r & Hg & Hnew & Hv).
    exists pieces, type, q, r, m. auto. }
  destruct (get_move_count s =? 0); [eapply Htype; eauto|].
  unfold generate_all_possible_moves in H. rewrite Hp in H. simpl in H.
  revert H Hin.
  generalize (get_available_building_types pieces) as types.
  assert (Hgen : forall types acc,
             foldM (fun all_possible_moves type =>
                      let* moves0 := get_possible_moves_of_type s type (current_player_ s) in
                      Ok (all_possible_moves ++ moves0)) types acc = Ok moves ->
             In m moves -> In m acc \/ has_legal_placement s (current_player_ s)).
  { induction types as [|type types IH]; simpl; intros acc H Hin.
    - injection H as <-. auto.
    - apply bind_Ok_inv in H as (acc' & Hstep & H).
      apply bind_Ok_inv in Hstep as (l & Hl & E). injection E as <-.
      destruct (IH _ H Hin) as [Hacc|Hlegal]; [|auto].
      apply in_app_or in Hacc as [Hacc|Hl']; [auto|right; eapply Htype; eauto]. }
  intros types H Hin. destruct (Hgen types [] H Hin) as [[]|Hlegal]. exact Hlegal.
Qed.

Lemma In_sort_insert (x a : Z) (l : list Z) : In x (sort_insert a l) <-> x = a \/ In x l.
Proof.
  induction l as [|h t IH]; simpl; [intuition|].
  destruct (a <=? h); simpl; [intuition|]. rewrite IH. intuition.
Qed.

Lemma In_sort_actions (x : Z) (l : list Z) : In x (sort_actions l) <-> In x l.
Proof.
  unfold sort_actions. induction l as [|h t IH]; simpl; [tauto|].
  rewrite In_sort_insert, IH. intuition.
Qed.

(** Applying a legal action through the framework keeps the invariant. *)
Lemma ApplyAction_wf (s s' : CathedralState) (a : Z) (legal : list Z) :
  state_wf s -> LegalActions s = Ok legal -> In a legal -> ApplyAction s a = Ok s' ->
  state_wf s'.
Proof.
  intros (Hd & Hv & Hb & H0 & H1 & Hc & Hout) HL Hin HA.
  unfold LegalActions in HL. apply bind_Ok_inv in HL as (moves & Hmoves & E).
  injection E as <-. apply In_sort_actions, in_map_iff in Hin as (m & _ & Hm).
  pose proof (possible_moves_legal s moves m Hc Hmoves Hm) as Hlegal.
  assert (Hfin : is_finished s = Ok false).
  { unfold is_finished. rewrite Z.add_0_r.
    assert (E : Z.rem (current_player_ s) 2 = current_player_ s)
      by (destruct Hc as [-> | ->]; reflexivity).
    rewrite E. destruct (player_has_moves_spec s _ Hc) as (found & Hf & Hiff).
    rewrite Hf. apply Hiff in Hlegal. subst found. reflexivity. }
  unfold ApplyAction, CurrentPlayer, IsTerminal in HA.
  rewrite Hout, Z.eqb_refl, Hfin in HA. simpl in HA.
  apply bind_Ok_inv in HA as (s1 & HD & HA). injection HA as <-.
  unfold DoApplyAction in HD.
  apply bind_Ok_inv in HD as (mv & Hmv & HD).
  apply bind_Ok_inv in HD as ([flag s2] & Hmake & E). simpl in E. injection E as ->.
  assert (Hs1 : storage_wf s1 /\ (current_player_ s1 = 0 \/ current_player_ s1 = 1)
                /\ history_ s1 = history_ s /\ move_number_ s1 = move_number_ s
                /\ outcome_ s1 = outcome_ s).
  { unfold make_move in Hmake. destruct (negb _).
    - injection Hmake as _ <-. repeat split; auto.
    - apply bind_Ok_inv in Hmake as (s3 & H3 & E). injection E as _ <-.
      apply (make_unvalidated_move_wf s s3 mv); [repeat split; assumption|exact Hc|exact H3]. }
  destruct Hs1 as ((Gb & G0 & G1) & Gc & Gh & _ & Go).
  unfold state_wf, history_decodes, history_players_valid. simpl.
  rewrite Gh, !forallb_app. simpl. rewrite Hmv.
  unfold history_decodes in Hd. unfold history_players_valid in Hv. rewrite Hd, Hv.
  assert (Ep : (current_player_ s =? 0) || (current_player_ s =? 1) = true)
    by (destruct Hc as [-> | ->]; reflexivity).
  rewrite Ep. simpl. repeat split; try assumption. congruence.
Qed.

Lemma initial_state_wf : state_wf initial_state.
Proof. unfold state_wf. repeat split; try reflexivity. left; reflexivity. Qed.

(** Every reachable position is well formed: its history decodes and
    records players 0 and 1 only, its board and inventories have the
    sizes of the source's arrays, one of the two players is to move, and
    no outcome is recorded. *)
Lemma reachable_wf (s : CathedralState) : reachable s -> state_wf s.
Proof.
  induction 1 as [|s s' a legal _ IH HL Hin HA].
  - apply initial_state_wf.
  - eapply ApplyAction_wf; eauto.
Qed.

(** ** Discovered regions lie on the board *)

Lemma visit_neighbours_on_board (current_field : Square) (acc : list (list Z) * list Square) :
  forallb is_on_board (snd acc) = true ->
  forallb is_on_board (snd (visit_neighbours current_field acc)) = true.
Proof.
  unfold visit_neighbours. revert acc.
  induction neighbour_offsets as [|d ds IH]; intros acc Hacc; simpl; [exact Hacc|].
  apply IH.
  destruct (is_on_board _) eqn:Hon; simpl; [|exact Hacc].
  destruct (mask_at (fst acc) _ =? 1); [|exact Hacc].
  simpl. rewrite forallb_app, Hacc. simpl. rewrite Hon. reflexivity.
Qed.

Lemma flood_fill_on_board (budget : nat) :
  forall mask queue region mask' region',
    forallb is_on_board queue = true ->
    forallb is_on_board region = true ->
    flood_fill budget mask queue region = Ok (mask', region') ->
    forallb is_on_board region' = true.
Proof.
  induction budget as [|budget IH]; intros mask queue region mask' region' Hq Hr H.
  - destruct queue; [injection H as _ <-; exact Hr|discriminate].
  - destruct queue as [|c rest]; [injection H as _ <-; exact Hr|].
    cbn [flood_fill] in H. cbn [forallb] in Hq. apply andb_true_iff in Hq as [Hc Hrest].
    apply IH in H; [exact H| |].
    + apply (visit_neighbours_on_board c (mask, rest)). exact Hrest.
    + rewrite forallb_app, Hr. simpl. rewrite Hc. reflexivity.
Qed.

(** Every region the sweep hands to process_region consists of board
    squares. *)
Lemma discovered_region_on_board (mask mask' : list (list Z)) (runner : Z)
    (region : list Square) :
  0 <= runner < 100 ->
  flood_fill 100 (mask_clear mask (mkSquare (Z.rem runner 10) (Z.quot runner 10)))
    [mkSquare (Z.rem runner 10) (Z.quot runner 10)] [] = Ok (mask', region) ->
  forallb is_on_board region = true.
Proof.
  intros Hr H. apply flood_fill_on_board in H; [exact H| |reflexivity].
  simpl. rewrite andb_true_r. apply is_on_board_iff. simpl.
  Z.to_euclidean_division_equations. lia.
Qed.

(** * Further properties of the code *)

(** ** Rotation of squares *)

Lemma Square_ext (a b : Square) : sq_x a = sq_x b -> sq_y a = sq_y b -> a = b.
Proof. destruct a, b; simpl; intros -> ->; reflexivity. Qed.

(** X1.  Square::rotate by ROTATE_0 is the identity, rotating twice is
    rotating once by the sum of the quarter turns modulo four, so four
    equal quarter turns come back to the start, and rotating is
    one-to-one and keeps edge adjacency. *)
Theorem rotate_composes (s q : Square) (r1 r2 : Rotation) :
  Square_rotate s ROTATE_0 = s
  /\ Square_rotate (Square_rotate s r1) r2 = Square_rotate s (rotation_sum r1 r2)
  /\ Square_rotate (Square_rotate (Square_rotate (Square_rotate s r1) r1) r1) r1 = s
  /\ (Square_rotate s r1 = Square_rotate q r1 <-> s = q)
  /\ (orthogonally_adjacent (Square_rotate s r1) (Square_rotate q r1)
      <-> orthogonally_adjacent s q).
Proof.
  destruct s as [sx sy], q as [qx qy].
  split; [apply Square_ext; simpl; lia|].
  split; [destruct r1, r2; apply Square_ext; simpl; lia|].
  split; [destruct r1; apply Square_ext; simpl; lia|].
  split.
  - split; [|intros ->; reflexivity].
    destruct r1; unfold Square_rotate; simpl; intros [= H1 H2]; apply Square_ext; simpl; lia.
  - unfold orthogonally_adjacent. destruct r1; simpl; lia.
Qed.

(** ** The order on squares *)

Lemma Square_ltb_lt (a b : Square) :
  Square_ltb a b = true
  <-> sq_y a < sq_y b \/ (sq_y a = sq_y b /\ sq_x a < sq_x b).
Proof.
  unfold Square_ltb. destruct (Z.eqb_spec (sq_y a) (sq_y b)); rewrite Z.ltb_lt; lia.
Qed.

Lemma Square_ltb_trans (a b c : Square) :
  Square_ltb a b = true -> Square_ltb b c = true -> Square_ltb a c = true.
Proof. rewrite !Square_ltb_lt. lia. Qed.

Lemma Square_ltb_irrefl (a : Square) : Square_ltb a a = false.
Proof.
  destruct (Square_ltb a a) eqn:E; [|reflexivity]. apply Square_ltb_lt in E. lia.
Qed.

(** X2.  Square::operator< is a strict total order, row by row and then
    column by column: it is irreflexive, transitive, and of two squares
    exactly one is smaller unless operator== holds. *)
Theorem Square_lt_strict_total_order (a b c : Square) :
  Square_ltb a a = false
  /\ (Square_ltb a b = true -> Square_ltb b c = true -> Square_ltb a c = true)
  /\ (Square_ltb a b = true -> Square_ltb b a = false)
  /\ (Square_ltb a b = false -> Square_ltb b a = false -> Square_eqb a b = true)
  /\ (Square_eqb a b = true -> Square_ltb a b = false /\ Square_ltb b a = false).
Proof.
  split; [apply Square_ltb_irrefl|].
  split; [apply Square_ltb_trans|].
  split.
  { intros H. destruct (Square_ltb b a) eqn:E; [|reflexivity].
    apply Square_ltb_lt in H, E. lia. }
  split.
  { intros H1 H2. apply Square_eqb_eq.
    destruct (decide (a = b)) as [E|N]; [exact E|].
    apply Square_ltb_apart in N. rewrite H1, H2 in N. discriminate. }
  intros E. apply Square_eqb_eq in E. subst b. split; apply Square_ltb_irrefl.
Qed.

Lemma Square_lt_strict_total_order_witness :
  Square_ltb (mkSquare 5 0) (mkSquare 0 1) = true
  /\ Square_ltb (mkSquare 0 1) (mkSquare 1 1) = true
  /\ Square_ltb (mkSquare 5 0) (mkSquare 1 1) = true.
Proof.
  assert (H1 : Square_ltb (mkSquare 5 0) (mkSquare 0 1) = true) by reflexivity.
  assert (H2 : Square_ltb (mkSquare 0 1) (mkSquare 1 1) = true) by reflexivity.
  split; [exact H1|]. split; [exact H2|].
  exact (proj1 (proj2 (Square_lt_strict_total_order
                         (mkSquare 5 0) (mkSquare 0 1) (mkSquare 1 1))) H1 H2).
Defined.

(** ** The corner set as an ordered set *)

Lemma set_insert_bound (s x : Square) (l : list Square) :
  Square_ltb x s = true ->
  Forall (fun b => Square_ltb x b = true) l ->
  Forall (fun b => Square_ltb x b = true) (set_insert s l).
Proof.
  intros Hx Hl. apply Forall_forall. intros b Hb.
  apply list_elem_of_In, In_set_insert in Hb as [->|Hb]; [exact Hx|].
  rewrite Forall_forall in Hl. apply Hl, list_elem_of_In, Hb.
Qed.

Lemma set_insert_ascending (s : Square) (l : list Square) :
  strictly_ascending l -> strictly_ascending (set_insert s l).
Proof.
  unfold strictly_ascending. induction 1 as [|h t Ht IH Hh]; simpl.
  - repeat constructor.
  - destruct (Square_ltb s h) eqn:Esh.
    + constructor; [constructor; assumption|].
      constructor; [exact Esh|].
      eapply Forall_impl; [exact Hh|]. intros b Hb. simpl in Hb.
      eapply Square_ltb_trans; eauto.
    + destruct (Square_ltb h s) eqn:Ehs.
      * constructor; [exact IH|]. apply set_insert_bound; assumption.
      * constructor; assumption.
Qed.

Lemma filter_ascending (f : Square -> bool) (l : list Square) :
  strictly_ascending l -> strictly_ascending (List.filter f l).
Proof.
  unfold strictly_ascending. induction 1 as [|h t Ht IH Hh]; simpl; [constructor|].
  destruct (f h); [|exact IH]. constructor; [exact IH|].
  apply Forall_forall. intros b Hb. apply list_elem_of_In, filter_In in Hb as [Hb _].
  rewrite Forall_forall in Hh. apply Hh, list_elem_of_In, Hb.
Qed.

Lemma corners_of_form_ascending (f : list Square) : strictly_ascending (corners_of_form f).
Proof.
  unfold corners_of_form.
  assert (H1 : forall acc, strictly_ascending acc ->
                           strictly_ascending (fold_left insert_neighbours f acc)).
  { induction f as [|p f IH]; intros acc Hacc; simpl; [exact Hacc|].
    apply IH. unfold insert_neighbours. repeat apply set_insert_ascending. exact Hacc. }
  assert (H2 : forall g acc, strictly_ascending acc ->
                 strictly_ascending (fold_left (fun cs sq => set_erase sq cs) g acc)).
  { induction g as [|p g IH]; intros acc Hacc; simpl; [exact Hacc|].
    apply IH. unfold set_erase. apply filter_ascending, Hacc. }
  apply H2, H1. constructor.
Qed.

Lemma ascending_NoDup (l : list Square) : strictly_ascending l -> List.NoDup l.
Proof.
  unfold strictly_ascending. induction 1 as [|h t Ht IH Hh]; constructor; [|exact IH].
  intros Hin. rewrite Forall_forall in Hh.
  specialize (Hh h (proj2 (list_elem_of_In _ _) Hin)). simpl in Hh.
  rewrite Square_ltb_irrefl in Hh. discriminate.
Qed.

Lemma Square_ltb_add (a b d : Square) :
  Square_ltb (Square_add a d) (Square_add b d) = Square_ltb a b.
Proof.
  destruct (Square_ltb a b) eqn:E.
  - apply Square_ltb_lt. apply Square_ltb_lt in E. simpl. lia.
  - destruct (Square_ltb (Square_add a d) (Square_add b d)) eqn:E'; [|reflexivity].
    apply Square_ltb_lt in E'. simpl in E'.
    assert (Square_ltb a b = true) by (apply Square_ltb_lt; lia). congruence.
Qed.

Lemma translate_ascending (l : list Square) (d : Square) :
  strictly_ascending l -> strictly_ascending (translate_positions l d).
Proof.
  unfold strictly_ascending, translate_positions.
  induction 1 as [|h t Ht IH Hh]; simpl; constructor; [exact IH|].
  apply Forall_forall. intros b Hb. apply list_elem_of_In, in_map_iff in Hb as (b0 & <- & Hb0).
  rewrite Square_ltb_add. rewrite Forall_forall in Hh. apply Hh, list_elem_of_In, Hb0.
Qed.

(** X3.  The corners of a move come out of the std::set in operator<
    order: whatever the form, the pre-calculated corner list is strictly
    ascending (row-major) and so holds no square twice, and the corners
    of every constructed Move inherit this. *)
Theorem corners_strictly_ascending (position : Square) (type : BuildingType)
    (rot : Rotation) (m : Move) (f : list Square) :
  strictly_ascending (corners_of_form f)
  /\ List.NoDup (corners_of_form f)
  /\ (Move_new position type rot = Ok m ->
      strictly_ascending (corners m) /\ List.NoDup (corners m)).
Proof.
  split; [apply corners_of_form_ascending|].
  split; [apply ascending_NoDup, corners_of_form_ascending|].
  intros H. pose proof (Move_new_inv _ _ _ _ H) as (L & _).
  rewrite (Move_new_ok _ _ _ L) in H. injection H as <-. simpl.
  assert (Hs : strictly_ascending
                 (translate_positions
                    (corners_of_form (rotate_form (default_form_ (get_instance type)) rot))
                    position))
    by apply translate_ascending, corners_of_form_ascending.
  split; [exact Hs|apply ascending_NoDup, Hs].
Qed.

Lemma corners_strictly_ascending_witness :
  Move_new (mkSquare 5 5) Cathedral ROTATE_0 = Ok cathedral_centre
  /\ strictly_ascending (corners cathedral_centre)
  /\ List.NoDup (corners cathedral_centre).
Proof.
  assert (H : Move_new (mkSquare 5 5) Cathedral ROTATE_0 = Ok cathedral_centre)
    by (vm_compute; reflexivity).
  split; [exact H|].
  exact (proj2 (proj2 (corners_strictly_ascending (mkSquare 5 5) Cathedral ROTATE_0
                         cathedral_centre [])) H).
Defined.

(** ** The shapes of the catalogue *)

Lemma Square_add_origin (p : Square) : Square_add (mkSquare 0 0) p = p.
Proof. destruct p; reflexivity. Qed.

Lemma Square_add_inj (a b d : Square) : Square_add a d = Square_add b d -> a = b.
Proof. intros [= H1 H2]. apply Square_ext; lia. Qed.

Lemma In_translate (q d : Square) (l : list Square) :
  In q (translate_positions l d) <-> exists p, In p l /\ q = Square_add p d.
Proof.
  unfold translate_positions. rewrite in_map_iff. split; intros (p & H1 & H2); eauto.
Qed.

Lemma translate_NoDup (l : list Square) (d : Square) :
  List.NoDup l -> List.NoDup (translate_positions l d).
Proof.
  unfold translate_positions. induction 1 as [|h t Hh Ht IH]; simpl; constructor; [|exact IH].
  intros Hin. apply in_map_iff in Hin as (p & E & Hp).
  apply Square_add_inj in E. subst p. contradiction.
Qed.

Lemma no_repeatb_sound (l : list Square) : no_repeatb l = true -> List.NoDup l.
Proof.
  induction l as [|h t IH]; simpl; [constructor|].
  rewrite andb_true_iff, negb_true_iff. intros [Hh Ht]. constructor; [|apply IH, Ht].
  intros Hin. assert (existsb (Square_eqb h) t = true); [|congruence].
  apply existsb_exists. exists h. split; [exact Hin|apply Square_eqb_refl].
Qed.

Lemma catalogue_shapes (type : BuildingType) (rot : Rotation) :
  shape_ok (rotate_form (default_form_ (get_instance type)) rot) = true.
Proof. destruct type, rot; vm_compute; reflexivity. Qed.

(** X4.  Every constructed Move occupies its own anchor; its form has
    between one and six squares, as many as the canonical shape, none of
    them twice; and no corner of the move is a square of its form. *)
Theorem move_shape (position : Square) (type : BuildingType) (rot : Rotation) (m : Move) :
  Move_new position type rot = Ok m ->
  In (pos m) (form m)
  /\ List.NoDup (form m)
  /\ (1 <= length (form m) <= 6)%nat
  /\ length (form m) = length (default_form_ (get_instance type))
  /\ (forall q, In q (corners m) -> ~ In q (form m))
  /\ (forall q, In q (corners m) -> exists p, In p (form m) /\ orthogonally_adjacent q p).
Proof.
  intros H. pose proof (Move_new_inv _ _ _ _ H) as (L & _).
  rewrite (Move_new_ok _ _ _ L) in H. injection H as <-. simpl.
  pose proof (catalogue_shapes type rot) as Hok. unfold shape_ok in Hok.
  apply andb_true_iff in Hok as [Hok Hnd]. apply andb_true_iff in Hok as [Horigin Hlen].
  apply no_repeatb_sound in Hnd. apply Z.leb_le in Hlen.
  apply existsb_exists in Horigin as (o & Ho & Eo). apply Square_eqb_eq in Eo. subst o.
  set (shape := rotate_form (default_form_ (get_instance type)) rot) in *.
  assert (Hlen' : length (translate_positions shape position) = length shape)
    by (unfold translate_positions; apply length_map).
  split.
  { apply In_translate. exists (mkSquare 0 0). split; [exact Ho|].
    symmetry. apply Square_add_origin. }
  split; [apply translate_NoDup, Hnd|].
  split.
  { rewrite Hlen'. destruct shape; [destruct Ho|]. simpl in *. lia. }
  split.
  { rewrite Hlen'. unfold shape, rotate_form. apply length_map. }
  split.
  - intros q Hq Hf. apply In_translate in Hq as (c & Hc & ->).
    apply In_translate in Hf as (p & Hp & E). apply Square_add_inj in E. subst c.
    apply corners_of_form_spec in Hc as [_ Hc]. contradiction.
  - intros q Hq. apply In_translate in Hq as (c & Hc & ->).
    apply corners_of_form_spec in Hc as [(p & Hp & Hadj) _].
    exists (Square_add p position). split; [apply In_translate; eauto|].
    unfold orthogonally_adjacent in *. simpl. lia.
Qed.

Lemma move_shape_witness :
  Move_new (mkSquare 5 5) Cathedral ROTATE_0 = Ok cathedral_centre
  /\ In (pos cathedral_centre) (form cathedral_centre)
  /\ length (form cathedral_centre) = 6%nat.
Proof.
  assert (H : Move_new (mkSquare 5 5) Cathedral ROTATE_0 = Ok cathedral_centre)
    by (vm_compute; reflexivity).
  destruct (move_shape _ _ _ _ H) as (H1 & _ & _ & H4 & _).
  split; [exact H|]. split; [exact H1|]. rewrite H4. reflexivity.
Defined.

(** ** Symmetry classes *)

Lemma same_squaresb_sound (l1 l2 : list Square) :
  same_squaresb l1 l2 = true -> same_squares l1 l2.
Proof.
  unfold same_squaresb, same_squares. rewrite andb_true_iff, !forallb_forall.
  intros [H1 H2] q. split; intros Hq.
  - apply H1, existsb_exists in Hq as (x & Hx & E). apply Square_eqb_eq in E. subst x. exact Hx.
  - apply H2, existsb_exists in Hq as (x & Hx & E). apply Square_eqb_eq in E. subst x. exact Hx.
Qed.

Lemma legal_equivalent_found (type : BuildingType) (rot : Rotation) :
  exists r d, legal_equivalent type rot = Some (r, d).
Proof. destruct type, rot; vm_compute; eauto. Qed.

Lemma legal_equivalent_sound (type : BuildingType) (rot r : Rotation) (d : Square) :
  legal_equivalent type rot = Some (r, d) ->
  rotation_legal type r
  /\ same_squares (rotate_form (default_form_ (get_instance type)) rot)
       (translate_positions (rotate_form (default_form_ (get_instance type)) r) d).
Proof.
  unfold legal_equivalent. intros H. apply find_some in H as [Hin Hsame].
  split; [|apply same_squaresb_sound, Hsame].
  apply in_flat_map in Hin as (r0 & Hr0 & Hin).
  apply in_flat_map in Hin as (x & _ & Hin).
  apply in_map_iff in Hin as (y & E & _). injection E as <- _.
  apply In_rotations_upto in Hr0. exact Hr0.
Qed.

(** X5.  The symmetry classes lose no placement: for every building,
    every one of the four rotations and every anchor, the squares covered
    are exactly those of a Move with a rotation legal for the building at
    some anchor.  (Turnable::NO shapes look the same under every quarter
    turn, Turnable::HALF shapes under a half turn.) *)
Theorem symmetry_classes_complete (type : BuildingType) (rot : Rotation) (position : Square) :
  exists rot' position' m,
    Move_new position' type rot' = Ok m
    /\ same_squares
         (translate_positions (rotate_form (default_form_ (get_instance type)) rot) position)
         (form m).
Proof.
  destruct (legal_equivalent_found type rot) as (r & d & Hfound).
  destruct (legal_equivalent_sound _ _ _ _ Hfound) as [L Hsame].
  exists r, (Square_add d position). eexists. split; [apply Move_new_ok, L|].
  simpl. intros q. rewrite !In_translate. split.
  - intros (p & Hp & ->). apply Hsame, In_translate in Hp as (p0 & Hp0 & ->).
    exists p0. split; [exact Hp0|]. apply Square_ext; simpl; lia.
  - intros (p0 & Hp0 & ->).
    exists (Square_add p0 d). split.
    + apply Hsame, In_translate. eauto.
    + apply Square_ext; simpl; lia.
Qed.

(** ** Inventories: use and return *)

Lemma available_count_lookup (p : Playerpieces) (t : BuildingType) :
  inventory_wf p = true ->
  available_buildings_ p !! Z.to_nat (building_index t) = Some (available_count p t).
Proof.
  unfold inventory_wf, available_count. rewrite Nat.eqb_eq. intros Hlen.
  pose proof (building_index_range t).
  destruct (lookup_lt_is_Some_2 (available_buildings_ p) (Z.to_nat (building_index t)))
    as [v Hv]; [lia|].
  rewrite Hv. symmetry. f_equal. apply nth_lookup_Some, Hv.
Qed.

(** X6.  use_building throws out_of_range exactly when no building of
    the type is left; otherwise it lowers that type's count by one and no
    other count, and return_building then gives back the very inventory
    one started from, unless the type is the Cathedral, which
    return_building never gives back. *)
Theorem use_and_return_building (p : Playerpieces) (t : BuildingType) :
  inventory_wf p = true ->
  (available_count p t <= 0 -> use_building p t = Throw out_of_range)
  /\ (0 < available_count p t ->
      exists p',
        use_building p t = Ok p'
        /\ inventory_wf p' = true
        /\ (forall t', available_count p' t'
                       = available_count p t' - (if BuildingType_eqb t t' then 1 else 0))
        /\ (t <> Cathedral -> return_building p' t = p)
        /\ (t = Cathedral -> return_building p' t = p'))
  /\ return_building p Cathedral = p.
Proof.
  intros Hwf. unfold use_building, is_building_available.
  split; [|split; [|reflexivity]].
  - intros H. destruct (Z.gtb_spec (available_count p t) 0); [lia|reflexivity].
  - intros H. destruct (Z.gtb_spec (available_count p t) 0); [|lia]. simpl.
    eexists. split; [reflexivity|].
    pose proof (set_available_count_wf p t (available_count p t - 1) Hwf) as Hwf'.
    split; [exact Hwf'|]. split.
    { intros t'. rewrite available_count_set by exact Hwf.
      destruct (BuildingType_eqb t t') eqn:E; [|lia].
      apply bool_decide_eq_true in E. subst t'. lia. }
    split.
    + intros Hne. unfold return_building.
      assert (E : BuildingType_eqb t Cathedral = false)
        by (apply bool_decide_eq_false; exact Hne).
      rewrite E. simpl. rewrite available_count_set by exact Hwf.
      assert (E' : BuildingType_eqb t t = true) by (apply bool_decide_eq_true; reflexivity).
      rewrite E'. unfold set_available_count. simpl.
      rewrite list_insert_insert_eq.
      replace (available_count p t - 1 + 1) with (available_count p t) by lia.
      rewrite list_insert_id by (apply available_count_lookup, Hwf).
      destruct p; reflexivity.
    + intros ->. reflexivity.
Qed.

Lemma use_and_return_building_witness :
  inventory_wf (Playerpieces_new white_specific_buildings) = true
  /\ 0 < available_count (Playerpieces_new white_specific_buildings) Tavern
  /\ exists p',
      use_building (Playerpieces_new white_specific_buildings) Tavern = Ok p'
      /\ available_count p' Tavern = 1
      /\ return_building p' Tavern = Playerpieces_new white_specific_buildings.
Proof.
  assert (Hwf : inventory_wf (Playerpieces_new white_specific_buildings) = true)
    by reflexivity.
  assert (Hpos : 0 < available_count (Playerpieces_new white_specific_buildings) Tavern)
    by (vm_compute; reflexivity).
  split; [exact Hwf|]. split; [exact Hpos|].
  destruct (proj1 (proj2 (use_and_return_building _ Tavern Hwf)) Hpos)
    as (p' & Hu & _ & Hc & Hr & _).
  exists p'. split; [exact Hu|]. split; [rewrite Hc; vm_compute; reflexivity|].
  apply Hr. discriminate.
Defined.

(** ** Identifiers of the Java client *)

Lemma java_ids_checked :
  forallb (fun id =>
             let r := java_building_to_cpp_building_player id in
             player_building_to_java_building_id (fst r) (snd r) =? id)
          (seqZ 1 23) = true.
Proof. vm_compute. reflexivity. Qed.

(** X7.  The two identifier translations are inverse to each other on
    the 23 Java ids: every id from 1 to 23 is translated to a building
    and a player that translate back to it, ids up to 11 being black's
    (player 1) and the others white's (player 0); and a building that
    player 0 or 1 starts with translates to an id between 1 and 23 that
    translates back to the building and the player.  An id outside 1..23
    raises nothing: it comes back as the Tavern of player 0. *)
Theorem java_ids_round_trip :
  (forall id, 1 <= id <= 23 ->
     player_building_to_java_building_id
       (fst (java_building_to_cpp_building_player id))
       (snd (java_building_to_cpp_building_player id)) = id
     /\ snd (java_building_to_cpp_building_player id) = (if id >? 11 then 0 else 1))
  /\ (forall type p, (p = 0 \/ p = 1) -> In type (buildings_of_player p) ->
        1 <= player_building_to_java_building_id type p <= 23
        /\ java_building_to_cpp_building_player
             (player_building_to_java_building_id type p) = (type, p))
  /\ (forall id, id < 1 \/ 23 < id ->
        java_building_to_cpp_building_player id = (Tavern, 0)).
Proof.
  split; [|split].
  - intros id Hid. pose proof java_ids_checked as H. rewrite forallb_forall in H.
    specialize (H id (proj2 (In_seqZ 1 23 id) ltac:(lia))). simpl in H.
    apply Z.eqb_eq in H. split; [exact H|].
    assert (Hc : In id (seqZ 1 23)) by (apply In_seqZ; lia).
    vm_compute in Hc.
    repeat (destruct Hc as [<-|Hc]; [reflexivity|]). destruct Hc.
  - intros type p [-> | ->] Hin; vm_compute in Hin;
      repeat (destruct Hin as [<-|Hin]; [split; [vm_compute; split; discriminate|reflexivity]|]);
      destruct Hin.
  - intros id Hid. unfold java_building_to_cpp_building_player.
    repeat match goal with
           | |- context [?a =? ?b] =>
               destruct (Z.eqb_spec a b); [lia|]
           end.
    reflexivity.
Qed.

Lemma java_ids_round_trip_witness :
  1 <= 18 <= 23
  /\ java_building_to_cpp_building_player 18 = (White_Abbey, 0)
  /\ player_building_to_java_building_id White_Abbey 0 = 18.
Proof.
  assert (H : 1 <= 18 <= 23) by lia.
  split; [exact H|]. split; [reflexivity|].
  exact (proj1 (proj1 java_ids_round_trip 18 H)).
Defined.

(** X8.  parse_rotation_angle maps the four angles 0, 90, 180 and 270
    (the values operator<< prints, index times 90) back to their
    rotations; any angle from 0 up to 359 is truncated to the quarter
    turn below it, and angles of 360 degrees or more, or of -90 or less,
    name no rotation. *)
Theorem parse_rotation_angle_cases (r : Rotation) (angle : Z) :
  parse_rotation_angle (rotation_index r * 90) = Some r
  /\ (0 <= angle < 360 ->
      exists r', parse_rotation_angle angle = Some r'
                 /\ rotation_index r' * 90 <= angle < rotation_index r' * 90 + 90)
  /\ (angle >= 360 \/ angle <= -90 -> parse_rotation_angle angle = None).
Proof.
  unfold parse_rotation_angle. split; [destruct r; reflexivity|]. split.
  - intros H.
    assert (Hq : 0 <= Z.quot angle 90 < 4) by (Z.to_euclidean_division_equations; lia).
    destruct (rotation_of_index (Z.quot angle 90)) as [r'|] eqn:E.
    + exists r'. split; [reflexivity|]. apply rotation_of_index_inv in E. rewrite E.
      Z.to_euclidean_division_equations. lia.
    + exfalso. unfold rotation_of_index in E.
      destruct (Z.leb_spec 0 (Z.quot angle 90)); [|lia].
      destruct (Z.ltb_spec (Z.quot angle 90) 4); [|lia].
      simpl in E. apply lookup_ge_None in E. simpl in E. lia.
  - intros H. unfold rotation_of_index.
    destruct (Z.leb_spec 0 (Z.quot angle 90)); simpl; [|reflexivity].
    destruct (Z.ltb_spec (Z.quot angle 90) 4); [|reflexivity].
    exfalso. revert H0 H1. Z.to_euclidean_division_equations. lia.
Qed.

Lemma parse_rotation_angle_cases_witness :
  0 <= 135 < 360 /\ parse_rotation_angle 135 = Some ROTATE_90.
Proof.
  assert (H : 0 <= 135 < 360) by lia. split; [exact H|].
  destruct (proj1 (proj2 (parse_rotation_angle_cases ROTATE_0 135)) H) as (r' & _ & _).
  reflexivity.
Defined.

(** ** The textual dump of the board *)

Lemma digit_char_inj (a b : CellState) :
  digit_char (cell_code a) = digit_char (cell_code b) -> a = b.
Proof. destruct a, b; vm_compute; intros H; try reflexivity; discriminate. Qed.

Lemma digit_not_newline (c : CellState) : digit_char (cell_code c) <> newline_char.
Proof. destruct c; vm_compute; discriminate. Qed.

Lemma row_to_string_split (r1 r2 : list CellState) (rest1 rest2 : list ascii) :
  row_to_string r1 ++ rest1 = row_to_string r2 ++ rest2 -> r1 = r2 /\ rest1 = rest2.
Proof.
  unfold row_to_string. revert r2.
  induction r1 as [|c1 r1 IH]; intros [|c2 r2]; simpl; intros H.
  - injection H as ->. auto.
  - injection H as H _. symmetry in H. destruct (digit_not_newline _ H).
  - injection H as H _. destruct (digit_not_newline _ H).
  - injection H as Hd H. apply digit_char_inj in Hd. subst c2.
    destruct (IH r2 H) as [-> ->]. auto.
Qed.

Lemma row_to_string_length (row : list CellState) :
  length (row_to_string row) = (2 * length row + 1)%nat.
Proof.
  unfold row_to_string. rewrite length_app. simpl.
  induction row as [|c row IH]; simpl; lia.
Qed.

(** X9.  The dump written by Board::to_string determines the board: two
    boards with the same dump have the same cells; and for a board of 10
    rows of 10 cells the dump has 210 characters (10 lines of 10 codes,
    each followed by a blank, and a newline). *)
Theorem to_string_determines_board (b1 b2 : Board) :
  (to_string b1 = to_string b2 -> b1 = b2)
  /\ (board_wf b1 = true -> length (to_string b1) = 210%nat).
Proof.
  split.
  - destruct b1 as [f1], b2 as [f2]. unfold to_string. simpl. intros H. f_equal.
    revert f2 H. induction f1 as [|r1 f1 IH]; intros [|r2 f2]; simpl; intros H.
    + reflexivity.
    + exfalso. pose proof (f_equal (@length _) H) as L. simpl in L.
      rewrite length_app, row_to_string_length in L. lia.
    + exfalso. pose proof (f_equal (@length _) H) as L. simpl in L.
      rewrite length_app, row_to_string_length in L. lia.
    + apply row_to_string_split in H as [-> H]. f_equal. apply IH, H.
  - intros Hwf. destruct (board_wf_rows b1 Hwf) as [Hlen Hrows].
    unfold to_string.
    assert (Hgen : forall rows : list (list CellState),
               (forall row, In row rows -> length row = 10%nat) ->
               length (List.flat_map row_to_string rows) = (21 * length rows)%nat).
    { induction rows as [|row rows IH]; intros Hr; simpl; [reflexivity|].
      rewrite length_app, row_to_string_length.
      rewrite IH by (intros r Hin; apply Hr; right; exact Hin).
      rewrite (Hr row) by (left; reflexivity). lia. }
    rewrite Hgen, Hlen; [reflexivity|].
    intros row Hin. apply list_elem_of_In, list_elem_of_lookup_1 in Hin as [i Hi].
    eapply Hrows, Hi.
Qed.

Lemma to_string_determines_board_witness :
  board_wf Board_new = true /\ length (to_string Board_new) = 210%nat.
Proof.
  assert (H : board_wf Board_new = true) by reflexivity.
  split; [exact H|]. exact (proj2 (to_string_determines_board Board_new Board_new) H).
Defined.

(** ** Placing a valid move *)

Lemma is_move_valid_on_board (b : Board) (m : Move) (p : Z) :
  is_move_valid b m p = true -> forallb is_on_board (form m) = true.
Proof.
  unfold is_move_valid. rewrite !forallb_forall. intros H q Hq.
  specialize (H q Hq). rewrite negb_true_iff, orb_false_iff, negb_false_iff in H. tauto.
Qed.

(** X10.  A move that passes is_move_valid can be placed: place_color
    writes inside the array only, and afterwards exactly the squares of
    the form hold the placed colour while every other cell is as before.
    Before the placement every square of the form was empty or territory
    of the placed colour. *)
Theorem place_color_valid_move (b : Board) (m : Move) (p : Z) :
  board_wf b = true ->
  is_move_valid b m p = true ->
  exists b',
    place_color b (form m) (get_square_color m p) = Ok b'
    /\ board_wf b' = true
    /\ (forall q, within_grid q ->
          cell b' q = if is_in_region q (form m) then get_square_color m p else cell b q)
    /\ (forall q, In q (form m) ->
          cell b q = EMPTY \/ cell b q = get_sub_color (get_square_color m p)).
Proof.
  intros Hwf Hv.
  destruct (recolor_region_spec (form m) (get_square_color m p) b Hwf
              (is_move_valid_on_board b m p Hv)) as (b' & Hb' & Hwf' & Hcell).
  exists b'. split; [exact Hb'|]. split; [exact Hwf'|]. split; [exact Hcell|].
  intros q Hq. unfold is_move_valid in Hv. rewrite forallb_forall in Hv.
  specialize (Hv q Hq). rewrite negb_true_iff, orb_false_iff, !negb_false_iff in Hv.
  destruct Hv as [_ Hc]. apply color_is_compatible_iff in Hc as [He|Ht]; [auto|].
  right. destruct Ht; reflexivity.
Qed.

Lemma place_color_valid_move_witness :
  board_wf Board_new = true
  /\ is_move_valid Board_new cathedral_centre 0 = true
  /\ exists b',
      place_color Board_new (form cathedral_centre) (get_square_color cathedral_centre 0) = Ok b'
      /\ cell b' (mkSquare 5 5) = BLUE
      /\ cell b' (mkSquare 0 0) = EMPTY.
Proof.
  assert (H1 : board_wf Board_new = true) by reflexivity.
  assert (H2 : is_move_valid Board_new cathedral_centre 0 = true) by reflexivity.
  split; [exact H1|]. split; [exact H2|].
  destruct (place_color_valid_move Board_new cathedral_centre 0 H1 H2)
    as (b' & Hb' & _ & Hcell & _).
  exists b'. split; [exact Hb'|].
  split; (rewrite Hcell; [reflexivity|unfold within_grid; simpl; lia]).
Defined.

(** ** The removed-move set *)

Lemma Move_eqb_refl (m : Move) : Move_eqb m m = true.
Proof.
  unfold Move_eqb, BuildingType_eqb, Rotation_eqb.
  rewrite !bool_decide_eq_true_2 by reflexivity. apply Square_eqb_refl.
Qed.

(** X11.  remove_move and is_piece_removed are insert and lookup on the
    removed-move set: once remove_move has returned for a (player, move)
    pair, is_piece_removed answers true for every history entry of that
    player whose action constructs that move, and every entry it answered
    true for before is still answered true. *)
Theorem removed_after_remove_move (s s' : CathedralState) (pm : PlayerMove)
    (pa : PlayerAction) :
  remove_move s pm = Ok s' ->
  removed_moves s' = removed_moves s ++ [pm]
  /\ (player pa = pm_player pm -> Move_of_action (action pa) = Ok (pm_move pm) ->
      is_piece_removed s' pa = Ok true)
  /\ (is_piece_removed s pa = Ok true -> is_piece_removed s' pa = Ok true).
Proof.
  intros H. unfold remove_move in H.
  apply bind_Ok_inv in H as (b & _ & H).
  apply bind_Ok_inv in H as (owner & _ & H). injection H as <-. simpl.
  split; [reflexivity|]. unfold is_piece_removed. simpl. split.
  - intros Hp Hm. rewrite Hm. simpl. f_equal.
    rewrite existsb_app. simpl. unfold PlayerMove_eqb. simpl.
    rewrite Hp, Z.eqb_refl, Move_eqb_refl. simpl. apply orb_true_r.
  - intros Hr. destruct (Move_of_action (action pa)) as [m|]; [|discriminate].
    simpl in *. injection Hr as Hr. rewrite existsb_app, Hr. reflexivity.
Qed.

Lemma removed_after_remove_move_witness :
  exists pm s',
    enemy_buildings tavern_in_pocket [mkSquare 0 0] BLACK = [pm]
    /\ remove_move tavern_in_pocket pm = Ok s'
    /\ removed_moves s' = removed_moves tavern_in_pocket ++ [pm]
    /\ is_piece_removed tavern_in_pocket (mkPlayerAction 0 0) = Ok false
    /\ is_piece_removed s' (mkPlayerAction 0 0) = Ok true.
Proof.
  eexists _, _.
  split; [vm_compute; reflexivity|].
  match goal with
  | |- remove_move ?st ?pm = Ok ?x /\ _ =>
      assert (H : remove_move st pm = Ok x) by (vm_compute; reflexivity)
  end.
  split; [exact H|].
  destruct (removed_after_remove_move _ _ _ (mkPlayerAction 0 0) H) as (H1 & H2 & _).
  split; [exact H1|]. split; [vm_compute; reflexivity|].
  apply H2; vm_compute; reflexivity.
Defined.

(** ** What a placement with its captures can change *)

Lemma enemy_buildings_loop_from (s : CathedralState) (region : list Square) (c : CellState)
    (h : list PlayerAction) (l : list PlayerMove) :
  enemy_buildings_loop s region c h = Ok l ->
  forall pm, In pm l ->
    exists pa, In pa h /\ player pa = pm_player pm
               /\ Move_of_action (action pa) = Ok (pm_move pm)
               /\ is_piece_removed s pa = Ok false
               /\ get_square_color (pm_move pm) (pm_player pm) <> c.
Proof.
  revert l. induction h as [|pa h IH]; simpl; intros l H pm Hin.
  - injection H as <-. destruct Hin.
  - apply bind_Ok_inv in H as (removed & Hrem & H). destruct removed.
    + destruct (IH l H pm Hin) as (pa' & Hpa' & Hrest). exists pa'. split; [right|]; assumption.
    + apply bind_Ok_inv in H as (mv & Hmv & H).
      apply bind_Ok_inv in H as (others & Ho & H). injection H as <-.
      destruct (is_in_region (pos mv) region
                && negb (CellState_eqb (get_square_color mv (player pa)) c)) eqn:E.
      * destruct Hin as [<-|Hin].
        -- exists pa. simpl. split; [left; reflexivity|]. split; [reflexivity|].
           split; [exact Hmv|]. split; [exact Hrem|].
           apply andb_true_iff in E as [_ E]. apply negb_true_iff in E.
           apply bool_decide_eq_false in E. exact E.
        -- destruct (IH others Ho pm Hin) as (pa' & Hpa' & Hrest).
           exists pa'. split; [right|]; assumption.
      * destruct (IH others Ho pm Hin) as (pa' & Hpa' & Hrest).
        exists pa'. split; [right|]; assumption.
Qed.

Lemma capture_effect_refl (s : CathedralState) : capture_effect s s.
Proof.
  split; [apply same_frame_refl|]. exists []. split; [symmetry; apply app_nil_r|constructor].
Qed.

Lemma from_history_frame (s s' : CathedralState) (pm : PlayerMove) :
  same_frame s s' -> from_history s' pm -> from_history s pm.
Proof. intros (Hh & _) (pa & Hin & H). rewrite Hh in Hin. exists pa. auto. Qed.

Lemma capture_effect_trans (a b c : CathedralState) :
  capture_effect a b -> capture_effect b c -> capture_effect a c.
Proof.
  intros (F1 & e1 & R1 & H1) (F2 & e2 & R2 & H2).
  split; [eapply same_frame_trans; eauto|].
  exists (e1 ++ e2). split; [rewrite R2, R1, app_assoc; reflexivity|].
  apply Forall_app. split; [exact H1|].
  eapply Forall_impl; [exact H2|]. intros pm. apply from_history_frame, F1.
Qed.

Lemma foldM_capture_effect {A} (f : CathedralState -> A -> M CathedralState) (l : list A) :
  (forall s a s', f s a = Ok s' -> capture_effect s s') ->
  forall s s', foldM f l s = Ok s' -> capture_effect s s'.
Proof.
  intros Hstep s s' H.
  apply (foldM_invariant (capture_effect s) f l) with (s := s);
    [|apply capture_effect_refl|exact H].
  intros s1 a s2 H1 H2. eapply capture_effect_trans; eauto.
Qed.

Lemma remove_move_capture_effect (s s' : CathedralState) (pm : PlayerMove) :
  from_history s pm -> remove_move s pm = Ok s' -> capture_effect s s'.
Proof.
  intros Hpm H. split; [eapply remove_move_frame; eauto|].
  exists [pm]. split; [|repeat constructor; exact Hpm].
  unfold remove_move in H. apply bind_Ok_inv in H as (b & _ & H).
  apply bind_Ok_inv in H as (owner & _ & H). injection H as <-. reflexivity.
Qed.

Lemma remove_moves_capture_effect (l : list PlayerMove) :
  forall s s', Forall (from_history s) l -> foldM remove_move l s = Ok s' ->
               capture_effect s s'.
Proof.
  induction l as [|pm l IH]; simpl; intros s s' Hl H.
  - injection H as <-. apply capture_effect_refl.
  - apply bind_Ok_inv in H as (s1 & H1 & H).
    apply Forall_cons in Hl as [Hpm Hl].
    pose proof (remove_move_capture_effect s s1 pm Hpm H1) as C1.
    eapply capture_effect_trans; [exact C1|]. apply IH; [|exact H].
    eapply Forall_impl; [exact Hl|]. intros x (pa & Hin & Hx).
    destruct C1 as ((Hh & _) & _). exists pa. rewrite Hh. auto.
Qed.

Lemma process_region_effect (s : CathedralState) (region : list Square)
    (c : CellState) (s' : CathedralState) :
  process_region s region c = Ok s' -> capture_effect s s'.
Proof.
  unfold process_region, get_all_enemy_buildings_in_region. intros H.
  apply bind_Ok_inv in H as (enemies & He & H).
  destruct (Z.of_nat (length enemies) <? 2); [|injection H as <-; apply capture_effect_refl].
  apply bind_Ok_inv in H as (s1 & H1 & H).
  apply bind_Ok_inv in H as (b & _ & H). injection H as <-.
  apply remove_moves_capture_effect in H1.
  - destruct H1 as ((?&?&?&?&?) & extra & R & Hx).
    split; [unfold same_frame; simpl; auto|]. exists extra. simpl. auto.
  - apply Forall_forall. intros pm Hin. apply list_elem_of_In in Hin.
    destruct (enemy_buildings_loop_from _ _ _ _ _ He pm Hin) as (pa & ? & ? & ? & _).
    exists pa. auto.
Qed.

Lemma build_regions_capture_effect (s s' : CathedralState) :
  build_regions s = Ok s' -> capture_effect s s'.
Proof.
  apply (foldM_capture_effect sweep_color). clear s s'.
  intros s color s' H. unfold sweep_color in H.
  apply bind_Ok_inv in H as (r & H & E). injection E as <-. revert H.
  apply (foldM_invariant (fun acc => capture_effect s (fst acc)) (sweep_cell color));
    [|apply capture_effect_refl].
  intros acc runner acc' Hacc Hstep. unfold sweep_cell in Hstep.
  destruct (mask_at (snd acc) _ =? 1); [|injection Hstep as <-; exact Hacc].
  apply bind_Ok_inv in Hstep as (found & _ & Hstep).
  apply bind_Ok_inv in Hstep as (s1 & H1 & Hstep). injection Hstep as <-. simpl.
  eapply capture_effect_trans; [exact Hacc|]. eapply process_region_effect; eauto.
Qed.

Lemma count_connections_capture_effect (color : CellState) (cs : list Square) :
  forall s s' n, count_connections s color cs n = Ok s' -> capture_effect s s'.
Proof.
  induction cs as [|c cs IH]; simpl; intros s s' n H.
  - injection H as <-. apply capture_effect_refl.
  - destruct (negb (is_on_board c) || _ || _); [|eauto].
    destruct (n + 1 >? 1); [apply build_regions_capture_effect; exact H|eauto].
Qed.

(** X12.  Placing a building, captures included, never touches the
    history, the move counter, the current player or the outcome, never
    takes a pair out of the removed-move set, and every pair it adds to
    the set is a (player, move) of the history -- the move being placed,
    which is not yet in the history, can therefore not be captured by its
    own placement.  No sweep is run before the fourth move. *)
Theorem place_building_bookkeeping (s s' : CathedralState) (m : Move) :
  place_building s m = Ok s' ->
  history_ s' = history_ s
  /\ move_number_ s' = move_number_ s
  /\ current_player_ s' = current_player_ s
  /\ outcome_ s' = outcome_ s
  /\ (exists extra, removed_moves s' = removed_moves s ++ extra
                    /\ Forall (from_history s) extra)
  /\ (get_move_count s <= 2 ->
      removed_moves s' = removed_moves s
      /\ players s' = players s
      /\ place_color (board s) (form m) (get_square_color m (current_player_ s))
         = Ok (board s')).
Proof.
  intros H. unfold place_building in H.
  apply bind_Ok_inv in H as (b & Hb & H).
  change (get_move_count (with_board s b)) with (get_move_count s) in H.
  destruct (Z.gtb_spec (get_move_count s) 2) as [Hgt|Hle].
  - apply count_connections_capture_effect in H.
    destruct H as ((Hh & Hn & _ & Hc & Ho) & extra & R & Hx). simpl in *.
    repeat split; try assumption; [|lia|lia|lia].
    exists extra. split; [exact R|].
    eapply Forall_impl; [exact Hx|]. intros pm (pa & Hin & Hpa). exists pa. auto.
  - injection H as <-. simpl. repeat split; try reflexivity; try assumption.
    exists []. split; [symmetry; apply app_nil_r|constructor].
Qed.

Lemma place_building_bookkeeping_witness :
  exists s',
    place_building initial_state cathedral_centre = Ok s'
    /\ history_ s' = history_ initial_state
    /\ removed_moves s' = removed_moves initial_state
    /\ players s' = players initial_state.
Proof.
  eexists.
  assert (H : place_building initial_state cathedral_centre = Ok ?[s'])
    by (vm_compute; reflexivity).
  split; [exact H|].
  destruct (place_building_bookkeeping _ _ _ H) as (Hh & _ & _ & _ & _ & Hsmall).
  split; [exact Hh|]. destruct Hsmall as (Hr & Hp & _); [vm_compute; discriminate|].
  split; assumption.
Defined.

(** ** Undo *)

Lemma make_unvalidated_move_frame (s : CathedralState) (m : Move) (s' : CathedralState) :
  make_unvalidated_move s m = Ok s' ->
  history_ s' = history_ s /\ move_number_ s' = move_number_ s
  /\ initial_board s' = initial_board s /\ outcome_ s' = outcome_ s.
Proof.
  intros H. unfold make_unvalidated_move in H.
  apply bind_Ok_inv in H as (s1 & H1 & H).
  apply bind_Ok_inv in H as (pieces & _ & H).
  apply bind_Ok_inv in H as (pieces' & _ & H).
  apply place_building_frame in H1 as (Hh & Hn & Hi & _ & Ho).
  apply update_current_player_cases in H. destruct H as [-> | ->]; simpl; auto.
Qed.

(** X13.  undo_move does nothing on an empty history; otherwise, when
    the replay completes, exactly the last history entry is gone, the
    move counter is one lower, and the initial-board snapshot and the
    outcome are untouched.  UndoAction then sets the current player to
    the player it is given, whatever the replay arrived at. *)
Theorem undo_move_pops_last (s s' s'' : CathedralState) (p a : Z) :
  (history_ s = [] -> undo_move s = Ok s)
  /\ (undo_move s = Ok s' -> history_ s <> [] ->
      history_ s' = List.removelast (history_ s)
      /\ move_number_ s' = move_number_ s - 1
      /\ initial_board s' = initial_board s
      /\ outcome_ s' = outcome_ s)
  /\ (UndoAction s p a = Ok s'' ->
      exists r, undo_move s = Ok r
                /\ current_player_ s'' = p
                /\ outcome_ s'' = kInvalidPlayer
                /\ history_ s'' = history_ r
                /\ board s'' = board r
                /\ players s'' = players r).
Proof.
  split; [|split].
  - intros H. unfold undo_move. rewrite H. reflexivity.
  - intros H Hne. unfold undo_move in H.
    destruct (history_ s) as [|pa h] eqn:Eh; [contradiction|].
    revert H.
    match goal with
    | |- foldM ?f ?l ?s0 = Ok s' -> _ =>
        apply (foldM_invariant
                 (fun x => history_ x = history_ s0 /\ move_number_ x = move_number_ s0
                           /\ initial_board x = initial_board s0
                           /\ outcome_ x = outcome_ s0) f l)
    end; [|auto].
    intros s1 x s2 (E1 & E2 & E3 & E4) Hstep.
    apply bind_Ok_inv in Hstep as (mv & _ & Hstep).
    apply make_unvalidated_move_frame in Hstep as (F1 & F2 & F3 & F4).
    repeat split; congruence.
  - intros H. unfold UndoAction in H. apply bind_Ok_inv in H as (r & Hr & H).
    injection H as <-. exists r. simpl. auto 10.
Qed.

Lemma undo_move_pops_last_witness :
  exists s',
    undo_move corner_pocket = Ok s'
    /\ history_ corner_pocket <> []
    /\ List.map action (history_ s') = [5255; 901]
    /\ move_number_ s' = 2.
Proof.
  eexists.
  assert (H : undo_move corner_pocket = Ok ?[s']) by (vm_compute; reflexivity).
  assert (Hne : history_ corner_pocket <> []) by (vm_compute; discriminate).
  split; [exact H|]. split; [exact Hne|].
  destruct (proj1 (proj2 (undo_move_pops_last corner_pocket _ corner_pocket 0 0)) H Hne)
    as (Hh & Hn & _).
  split; [rewrite Hh; vm_compute; reflexivity|rewrite Hn; vm_compute; reflexivity].
Defined.

(** ** Legal-move generation *)

Lemma NoDup_flat_map {A B} (f : A -> list B) (l : list A) :
  List.NoDup l ->
  (forall a, In a l -> List.NoDup (f a)) ->
  (forall a1 a2 b, In a1 l -> In a2 l -> In b (f a1) -> In b (f a2) -> a1 = a2) ->
  List.NoDup (List.flat_map f l).
Proof.
  induction 1 as [|a l Ha Hl IH]; simpl; intros Hf Hdis; [constructor|].
  apply NoDup_ListNoDup, NoDup_app. split; [apply NoDup_ListNoDup, Hf; left; reflexivity|].
  split.
  - intros b Hb Hb'. apply list_elem_of_In in Hb, Hb'.
    apply in_flat_map in Hb' as (a' & Ha' & Hb').
    assert (a = a')
      by (apply (Hdis a a' b); [left; reflexivity|right; exact Ha'|exact Hb|exact Hb']).
    subst a'. contradiction.
  - apply NoDup_ListNoDup, IH.
    + intros a' Ha'. apply Hf. right; exact Ha'.
    + intros a1 a2 b H1 H2. apply Hdis; right; assumption.
Qed.

Lemma NoDup_map_on {A B} (f : A -> B) (l : list A) :
  (forall x y, In x l -> In y l -> f x = f y -> x = y) ->
  List.NoDup l -> List.NoDup (List.map f l).
Proof.
  intros Hinj. induction 1 as [|a l Ha Hl IH]; simpl; constructor.
  - intros Hin. apply in_map_iff in Hin as (x & E & Hx).
    assert (x = a) by (apply Hinj; [right; exact Hx|left; reflexivity|exact E]).
    subst x. contradiction.
  - apply IH. intros x y Hx Hy. apply Hinj; right; assumption.
Qed.

Lemma NoDup_seqZ_list (m n : Z) : List.NoDup (seqZ m n).
Proof. apply NoDup_ListNoDup, NoDup_seqZ. Qed.

Lemma NoDup_rotations_upto (t : Turnable) : List.NoDup (rotations_upto t).
Proof.
  destruct t; simpl; repeat constructor; simpl; intros H;
    repeat (destruct H as [H|H]; try discriminate); exact H.
Qed.

Lemma NoDup_candidate_placements (t : Turnable) : List.NoDup (candidate_placements t).
Proof.
  unfold candidate_placements. apply NoDup_flat_map; [apply NoDup_seqZ_list| |].
  - intros y _. apply NoDup_flat_map; [apply NoDup_seqZ_list| |].
    + intros x _. apply NoDup_map_on; [|apply NoDup_rotations_upto].
      intros r1 r2 _ _ [= E]. exact E.
    + intros x1 x2 b _ _ H1 H2.
      apply in_map_iff in H1 as (r1 & <- & _). apply in_map_iff in H2 as (r2 & [= E _] & _).
      congruence.
  - intros y1 y2 b _ _ H1 H2.
    apply in_flat_map in H1 as (x1 & _ & H1). apply in_map_iff in H1 as (r1 & <- & _).
    apply in_flat_map in H2 as (x2 & _ & H2). apply in_map_iff in H2 as (r2 & [= _ E _] & _).
    congruence.
Qed.

Lemma collect_valid_moves_NoDup (b : Board) (type : BuildingType) (p : Z)
    (cands : list (Square * Rotation)) (l : list Move) :
  List.NoDup cands ->
  collect_valid_moves b type p cands = Ok l -> List.NoDup l.
Proof.
  intros Hnd. revert l. induction Hnd as [|[position rot] rest Hfresh Hrest IH];
    simpl; intros l H.
  - injection H as <-. constructor.
  - apply bind_Ok_inv in H as (cur & Hcur & H).
    apply bind_Ok_inv in H as (others & Ho & H). injection H as <-.
    specialize (IH others Ho).
    destruct (is_move_valid b cur p); [|exact IH]. constructor; [|exact IH].
    intros Hin.
    assert (Hfrom : forall cs ms, collect_valid_moves b type p cs = Ok ms ->
                      forall m, In m ms -> In (pos m, rotation m) cs).
    { clear. induction cs as [|[q r] cs IHc]; simpl; intros ms H m Hm.
      - injection H as <-. destruct Hm.
      - apply bind_Ok_inv in H as (c & Hc & H).
        apply bind_Ok_inv in H as (os & Hos & H). injection H as <-.
        apply Move_new_inv in Hc as (_ & Hp & _ & Hr).
        destruct (is_move_valid b c p); [destruct Hm as [<-|Hm]|].
        + left. congruence.
        + right. eapply IHc; eauto.
        + right. eapply IHc; eauto. }
    apply (Hfrom rest others Ho) in Hin.
    apply Move_new_inv in Hcur as (_ & Hp & _ & Hr). rewrite Hp, Hr in Hin. contradiction.
Qed.

Lemma moves_of_type_char (s : CathedralState) (type : BuildingType) (p : Z)
    (pieces : Playerpieces) :
  players_at (players s) p = Ok pieces ->
  exists l,
    get_possible_moves_of_type s type p = Ok l
    /\ (forall m, In m l <->
                  is_building_available pieces type = true
                  /\ exists position r,
                       within_grid position
                       /\ Move_new position type r = Ok m
                       /\ is_move_valid (board s) m p = true)
    /\ List.NoDup l
    /\ (is_building_available pieces type = false -> l = []).
Proof.
  intros Hp. destruct (get_possible_moves_of_type_spec s type p pieces Hp) as (l & Hl & Hspec).
  exists l. split; [exact Hl|]. split; [exact Hspec|].
  unfold get_possible_moves_of_type in Hl. rewrite Hp in Hl. simpl in Hl.
  destruct (is_building_available pieces type); simpl in Hl.
  - split; [|discriminate].
    eapply collect_valid_moves_NoDup; [apply NoDup_candidate_placements|exact Hl].
  - injection Hl as <-. split; [constructor|reflexivity].
Qed.

(** X14.  get_possible_moves(type, player) returns no move when the
    player has no building of the type left; otherwise it returns, once
    each, exactly the moves of that type with an anchor on the board and
    a rotation legal for the type that the board accepts for the player.
    It never fails for player 0 or 1. *)
Theorem moves_of_type_complete_and_distinct (s : CathedralState) (type : BuildingType)
    (p : Z) (pieces : Playerpieces) :
  players_at (players s) p = Ok pieces ->
  exists l,
    get_possible_moves_of_type s type p = Ok l
    /\ (forall m, In m l <->
                  is_building_available pieces type = true
                  /\ exists position r,
                       within_grid position
                       /\ Move_new position type r = Ok m
                       /\ is_move_valid (board s) m p = true)
    /\ List.NoDup l
    /\ (is_building_available pieces type = false -> l = []).
Proof. apply moves_of_type_char. Qed.

Lemma moves_of_type_complete_and_distinct_witness :
  exists l,
    players_at (players initial_state) 0 = Ok (fst (players initial_state))
    /\ get_possible_moves_of_type initial_state Tavern 0 = Ok l
    /\ length l = 100%nat
    /\ List.NoDup l.
Proof.
  assert (Hp : players_at (players initial_state) 0 = Ok (fst (players initial_state)))
    by reflexivity.
  destruct (moves_of_type_complete_and_distinct initial_state Tavern 0 _ Hp) as (l & Hl & _ & Hnd & _).
  exists l. split; [exact Hp|]. split; [exact Hl|]. split; [|exact Hnd].
  assert (Hc : exists l', get_possible_moves_of_type initial_state Tavern 0 = Ok l'
                          /\ length l' = 100%nat)
    by (eexists; split; vm_compute; reflexivity).
  destruct Hc as (l' & Hl' & Hlen). rewrite Hl in Hl'. injection Hl' as <-. exact Hlen.
Defined.

Lemma get_move_count_zero (s : CathedralState) :
  (get_move_count s =? 0) = true <-> history_ s = [].
Proof.
  unfold get_move_count. rewrite Z.eqb_eq. destruct (history_ s); simpl; split;
    intros H; try reflexivity; try discriminate; lia.
Qed.

Lemma generate_loop_spec (s : CathedralState) (pieces : Playerpieces)
    (types : list BuildingType) :
  players_at (players s) (current_player_ s) = Ok pieces ->
  forall acc,
    List.NoDup types -> List.NoDup acc ->
    (forall m, In m acc -> ~ In (building_type m) types) ->
    exists l,
      foldM (fun all_possible_moves type =>
               let* moves := get_possible_moves_of_type s type (current_player_ s) in
               Ok (all_possible_moves ++ moves)) types acc = Ok l
      /\ List.NoDup l
      /\ forall m, In m l <->
                   In m acc
                   \/ (In (building_type m) types
                       /\ is_building_available pieces (building_type m) = true
                       /\ exists position r,
                            within_grid position
                            /\ Move_new position (building_type m) r = Ok m
                            /\ is_move_valid (board s) m (current_player_ s) = true).
Proof.
  intros Hp. induction types as [|type types IH]; intros acc Hts Hacc Hdis; simpl.
  - exists acc. split; [reflexivity|]. split; [exact Hacc|].
    intros m. split; [auto|]. intros [H|[[] _]]. exact H.
  - destruct (moves_of_type_char s type _ pieces Hp) as (l0 & Hl0 & Hspec0 & Hnd0 & _).
    rewrite Hl0. simpl.
    assert (Htype : forall m, In m l0 -> building_type m = type).
    { intros m Hm. apply Hspec0 in Hm as (_ & q & r & _ & Hm & _).
      apply Move_new_inv in Hm. tauto. }
    apply NoDup_cons_iff in Hts as [Hfresh Hts].
    destruct (IH (acc ++ l0) Hts) as (l & Hl & Hnd & Hspec).
    { apply NoDup_ListNoDup, NoDup_app. split; [apply NoDup_ListNoDup, Hacc|].
      split; [|apply NoDup_ListNoDup, Hnd0].
      intros m H1 H2. apply list_elem_of_In in H1, H2.
      apply (Hdis m H1). left. symmetry. apply Htype, H2. }
    { intros m Hm Hin. apply in_app_or in Hm as [Hm|Hm].
      - apply (Hdis m Hm). right. exact Hin.
      - rewrite (Htype m Hm) in Hin. contradiction. }
    exists l. split; [exact Hl|]. split; [exact Hnd|].
    intros m. rewrite Hspec, in_app_iff. split.
    + intros [[Hm|Hm]|(Hin & Hrest)].
      * auto.
      * right. pose proof (Htype m Hm) as E. split; [left; congruence|].
        apply Hspec0 in Hm. rewrite E. exact Hm.
      * right. split; [right; exact Hin|exact Hrest].
    + intros [Hm|([E|Hin] & Hrest)].
      * auto.
      * left. right. apply Hspec0. rewrite E. exact Hrest.
      * right. auto.
Qed.

Lemma NoDup_all_building_types : List.NoDup all_building_types.
Proof.
  apply (NoDup_map_inv building_index).
  change (List.map building_index all_building_types) with (seqZ 0 14).
  apply NoDup_seqZ_list.
Qed.

(** The list returned by get_possible_moves() holds, once each, exactly
    the legal moves of the current player. *)
Lemma get_possible_moves_char (s : CathedralState) (moves : list Move) :
  get_possible_moves s = Ok moves ->
  (forall m, In m moves <-> legal_move s m) /\ List.NoDup moves.
Proof.
  unfold get_possible_moves, get_possible_moves_for. rewrite Z.eqb_refl. simpl.
  destruct (get_move_count s =? 0) eqn:E0.
  - apply get_move_count_zero in E0. simpl. intros H.
    assert (Hp : exists pieces, players_at (players s) (current_player_ s) = Ok pieces).
    { unfold get_possible_moves_of_type in H. apply bind_Ok_inv in H as (pc & Hpc & _). eauto. }
    destruct Hp as (pieces & Hp).
    destruct (moves_of_type_char s Cathedral _ pieces Hp) as (l & Hl & Hspec & Hnd & _).
    rewrite Hl in H. injection H as <-. split; [|exact Hnd].
    intros m. rewrite Hspec. unfold legal_move. split.
    + intros (Hav & q & r & Hg & Hm & Hv).
      pose proof (Move_new_inv _ _ _ _ Hm) as (_ & _ & Ht & _).
      exists pieces, q, r. rewrite Ht. auto 10.
    + intros (pieces' & q & r & Hp' & Hav & Hg & Hm & Hv & Hopen).
      rewrite Hp in Hp'. injection Hp' as <-. rewrite (Hopen E0) in Hav, Hm. eauto 10.
  - intros H. unfold generate_all_possible_moves in H.
    apply bind_Ok_inv in H as (pieces & Hp & H).
    destruct (generate_loop_spec s pieces (get_available_building_types pieces) Hp [])
      as (l & Hl & Hnd & Hspec).
    { apply List.NoDup_filter, NoDup_all_building_types. }
    { constructor. }
    { intros m []. }
    rewrite Hl in H. injection H as <-. split; [|exact Hnd].
    assert (Hne : history_ s <> []).
    { intros Hh. apply get_move_count_zero in Hh. congruence. }
    intros m. rewrite Hspec. unfold legal_move. split.
    + intros [[]|(_ & Hav & q & r & Hg & Hm & Hv)].
      exists pieces, q, r. split; [exact Hp|]. split; [exact Hav|]. split; [exact Hg|].
      split; [exact Hm|]. split; [exact Hv|]. intros Hh. contradiction.
    + intros (pieces' & q & r & Hp' & Hav & Hg & Hm & Hv & _).
      rewrite Hp in Hp'. injection Hp' as <-. right.
      split; [apply In_get_available_building_types, Hav|]. eauto 10.
Qed.

(** X15.  The opening restriction: while the history is empty,
    get_possible_moves(player) offers Cathedral placements only, and
    nothing at all to a player who holds no Cathedral; once a move has
    been made, every available building type is offered. *)
Theorem opening_is_cathedral_only (s : CathedralState) (moves : list Move) (m : Move) :
  get_possible_moves_for s (current_player_ s) = Ok moves ->
  (history_ s = [] -> In m moves -> building_type m = Cathedral)
  /\ (history_ s = [] ->
      (forall pieces, players_at (players s) (current_player_ s) = Ok pieces ->
                      available_count pieces Cathedral <= 0 -> moves = []))
  /\ (history_ s <> [] -> legal_move s m -> In m moves).
Proof.
  intros H. pose proof (get_possible_moves_char s moves H) as [Hchar _].
  split; [|split].
  - intros Hh Hin. apply Hchar in Hin as (_ & _ & _ & _ & _ & _ & _ & _ & Hopen). auto.
  - intros Hh pieces Hp Hc. destruct moves as [|m0 moves]; [reflexivity|]. exfalso.
    destruct (proj1 (Hchar m0)) as (pieces' & q & r & Hp' & Hav & _ & _ & _ & Hopen);
      [left; reflexivity|].
    rewrite Hp in Hp'. injection Hp' as <-. rewrite (Hopen Hh) in Hav.
    unfold is_building_available in Hav. apply Z.gtb_lt in Hav. lia.
  - intros _ Hm. apply Hchar, Hm.
Qed.

Lemma opening_is_cathedral_only_witness :
  exists moves,
    get_possible_moves_for initial_state (current_player_ initial_state) = Ok moves
    /\ history_ initial_state = []
    /\ (In cathedral_centre moves -> building_type cathedral_centre = Cathedral).
Proof.
  eexists.
  assert (H : get_possible_moves_for initial_state (current_player_ initial_state) = Ok ?[l])
    by (vm_compute; reflexivity).
  assert (Hh : history_ initial_state = []) by reflexivity.
  split; [exact H|]. split; [exact Hh|].
  exact (proj1 (opening_is_cathedral_only initial_state _ cathedral_centre H) Hh).
Defined.

(** ** LegalActions *)

Lemma legal_move_decodes (s : CathedralState) (m : Move) :
  legal_move s m -> decode_move (encode m) = Ok m /\ 0 <= encode m < range_of_nn_distribution.
Proof.
  intros (pieces & q & r & _ & _ & Hg & Hm & _).
  destruct (decode_encode q (building_type m) r m Hm) as [Hr Hd];
    [apply is_on_board_iff, Hg|]. auto.
Qed.

Lemma sort_insert_sorted (a : Z) (l : list Z) :
  StronglySorted Z.le l -> StronglySorted Z.le (sort_insert a l).
Proof.
  induction 1 as [|h t Ht IH Hh]; simpl; [repeat constructor|].
  destruct (Z.leb_spec a h).
  - constructor; [constructor; assumption|]. constructor; [exact H|].
    eapply Forall_impl; [exact Hh|]. intros x Hx. simpl in Hx. lia.
  - constructor; [exact IH|]. apply Forall_forall. intros x Hx.
    apply list_elem_of_In, In_sort_insert in Hx as [->|Hx]; [lia|].
    rewrite Forall_forall in Hh. apply Hh, list_elem_of_In, Hx.
Qed.

Lemma sort_insert_NoDup (a : Z) (l : list Z) :
  ~ In a l -> List.NoDup l -> List.NoDup (sort_insert a l).
Proof.
  intros Ha. induction 1 as [|h t Hh Ht IH]; simpl; [repeat constructor; auto|].
  destruct (a <=? h).
  - constructor; [exact Ha|]. constructor; assumption.
  - constructor.
    + rewrite In_sort_insert. intros [->|H]; [apply Ha; left; reflexivity|contradiction].
    + apply IH. intros H. apply Ha. right. exact H.
Qed.

Lemma sort_actions_strict (l : list Z) :
  List.NoDup l -> StronglySorted Z.lt (sort_actions l).
Proof.
  intros Hnd.
  assert (H : StronglySorted Z.le (sort_actions l) /\ List.NoDup (sort_actions l)).
  { unfold sort_actions. induction Hnd as [|a l Ha Hl IH]; simpl; [split; constructor|].
    destruct IH as [IH1 IH2]. split; [apply sort_insert_sorted, IH1|].
    apply sort_insert_NoDup; [|exact IH2].
    intros H. apply Ha. apply (In_sort_actions a l). exact H. }
  destruct H as [Hs Hn]. induction Hs as [|h t Ht IH Hh]; [constructor|].
  apply NoDup_cons_iff in Hn as [Hfresh Hn]. constructor; [apply IH, Hn|].
  apply Forall_forall. intros x Hx. rewrite Forall_forall in Hh.
  pose proof (Hh x Hx) as Hle. simpl in Hle.
  assert (x <> h) by (intros ->; apply Hfresh, list_elem_of_In, Hx). lia.
Qed.

(** X16.  LegalActions returns exactly the encodings of the legal moves
    of the current player: an id is in the list if and only if it is the
    id of a legal move, and every id of the list lies in [0, 5600) and
    decodes to the move it encodes. *)
Theorem LegalActions_are_the_legal_moves (s : CathedralState) (legal : list Z) (a : Z) :
  LegalActions s = Ok legal ->
  (In a legal <-> exists m, legal_move s m /\ encode m = a)
  /\ (In a legal ->
      0 <= a < range_of_nn_distribution
      /\ exists m, decode_move a = Ok m /\ legal_move s m).
Proof.
  intros H. unfold LegalActions in H. apply bind_Ok_inv in H as (moves & Hmoves & E).
  injection E as <-. destruct (get_possible_moves_char s moves Hmoves) as [Hchar _].
  assert (Hiff : In a (sort_actions (List.map encode moves))
                 <-> exists m, legal_move s m /\ encode m = a).
  { rewrite In_sort_actions, in_map_iff. split.
    - intros (m & Em & Hm). exists m. split; [apply Hchar, Hm|exact Em].
    - intros (m & Hm & Em). exists m. split; [exact Em|apply Hchar, Hm]. }
  split; [exact Hiff|].
  intros Hin. apply Hiff in Hin as (m & Hm & <-).
  destruct (legal_move_decodes s m Hm) as [Hd Hr]. split; [exact Hr|]. eauto.
Qed.

Lemma LegalActions_are_the_legal_moves_witness :
  exists legal,
    LegalActions corner_pocket = Ok legal
    /\ In 9 legal
    /\ exists m, decode_move 9 = Ok m /\ legal_move corner_pocket m.
Proof.
  eexists.
  assert (H : LegalActions corner_pocket = Ok ?[l]) by (vm_compute; reflexivity).
  split; [exact H|].
  match goal with
  | |- In 9 ?L /\ _ =>
      assert (Hin : In 9 L) by (apply existsb_eqb_In; vm_compute; reflexivity)
  end.
  split; [exact Hin|].
  exact (proj2 (proj2 (LegalActions_are_the_legal_moves corner_pocket _ 9 H) Hin)).
Defined.

(** X17.  The list returned by LegalActions is strictly ascending:
    sorted, and without a repeated id. *)
Theorem LegalActions_strictly_ascending (s : CathedralState) (legal : list Z) :
  LegalActions s = Ok legal -> StronglySorted Z.lt legal.
Proof.
  intros H. unfold LegalActions in H. apply bind_Ok_inv in H as (moves & Hmoves & E).
  injection E as <-. destruct (get_possible_moves_char s moves Hmoves) as [Hchar Hnd].
  apply sort_actions_strict. apply NoDup_map_on; [|exact Hnd].
  intros x y Hx Hy Exy. apply Hchar in Hx, Hy.
  destruct (legal_move_decodes s x Hx) as [Dx _].
  destruct (legal_move_decodes s y Hy) as [Dy _].
  rewrite Exy in Dx. rewrite Dx in Dy. injection Dy; auto.
Qed.

Lemma LegalActions_strictly_ascending_witness :
  exists legal,
    LegalActions initial_state = Ok legal
    /\ length legal = 224%nat
    /\ StronglySorted Z.lt legal.
Proof.
  eexists.
  assert (H : LegalActions initial_state = Ok ?[l]) by (vm_compute; reflexivity).
  split; [exact H|]. split; [vm_compute; reflexivity|].
  exact (LegalActions_strictly_ascending initial_state _ H).
Defined.

(** ** Applying a legal action never fails *)

Lemma foldM_total {A S} (P : S -> Prop) (Q : A -> Prop) (f : S -> A -> M S) (l : list A) :
  (forall s a, P s -> Q a -> exists s', f s a = Ok s' /\ P s') ->
  Forall Q l ->
  forall s, P s -> exists s', foldM f l s = Ok s' /\ P s'.
Proof.
  intros Hstep. induction 1 as [|a l Ha Hl IH]; intros s Hs; simpl; [eauto|].
  destruct (Hstep s a Hs Ha) as (s1 & H1 & P1). rewrite H1. simpl. apply IH, P1.
Qed.

Lemma counts_le_refl (ps : Playerpieces * Playerpieces) : counts_le ps ps.
Proof. intros type. lia. Qed.

Lemma counts_le_trans (a b c : Playerpieces * Playerpieces) :
  counts_le a b -> counts_le b c -> counts_le a c.
Proof. intros H1 H2 type. specialize (H1 type). specialize (H2 type). lia. Qed.

Lemma capture_ready_frame (s s' : CathedralState) :
  capture_ready s -> same_frame s s' -> storage_wf s' -> capture_ready s'.
Proof.
  intros (_ & Hd & Hv) (Hh & _) Hs'. split; [exact Hs'|].
  unfold history_decodes, history_players_valid in *. rewrite Hh. auto.
Qed.

(** With the invariant in place process_region returns, keeps the
    invariant, and lowers no inventory count. *)
Lemma process_region_total (s : CathedralState) (region : list Square) (c : CellState) :
  capture_ready s -> forallb is_on_board region = true ->
  exists s', process_region s region c = Ok s'
             /\ capture_ready s' /\ counts_le (players s) (players s').
Proof.
  intros Hready Hon. pose proof Hready as ((Hb & H0 & H1) & Hd & Hv).
  assert (Hdone : forall s', process_region s region c = Ok s' ->
                             counts_le (players s) (players s') ->
                             exists s'', process_region s region c = Ok s''
                                         /\ capture_ready s''
                                         /\ counts_le (players s) (players s'')).
  { intros s' Hs' Hc. exists s'. split; [exact Hs'|]. split; [|exact Hc].
    apply (capture_ready_frame s s' Hready); [eapply process_region_frame; eauto|].
    eapply process_region_wf; eauto. repeat split; assumption. }
  pose proof (get_all_enemy_buildings_spec s region c Hd) as Hget.
  pose proof (enemy_buildings_player s region c) as Hplayer.
  unfold process_region in *. rewrite Hget in *. cbn [bind] in *.
  destruct (enemy_buildings s region c) as [|pm [|pm2 rest]] eqn:He.
  - destruct (recolor_region_spec region (get_sub_color c) (board s) Hb Hon)
      as (b' & Hb' & _ & _).
    simpl in *. rewrite Hb' in *. simpl in *. eapply Hdone; [reflexivity|].
    simpl. apply counts_le_refl.
  - assert (Howner : pm_player pm = 0 \/ pm_player pm = 1)
      by (apply Hplayer; [exact Hv|left; reflexivity]).
    destruct (clear_squares_spec (form (pm_move pm)) (board s) Hb)
      as (b1 & Hb1 & Hwf1 & _).
    destruct (recolor_region_spec region (get_sub_color c) b1 Hwf1 Hon)
      as (b' & Hb' & _ & _).
    change (Z.of_nat (length [pm]) <? 2) with true in *. cbn iota in *.
    cbn [foldM] in *. rewrite (remove_move_ok s pm b1 Hb1 Howner) in *. cbn [bind] in *.
    cbn [with_board with_removed_moves with_players board] in *.
    rewrite Hb' in *. cbn [bind] in *.
    eapply Hdone; [reflexivity|]. cbn [players with_board with_players].
    intros type. unfold set_players_at.
    destruct (Z.eqb_spec (pm_player pm) 0) as [E|N]; simpl.
    + rewrite (return_building_count _ _ type H0).
      split; [destruct (_ && _); lia|lia].
    + rewrite (return_building_count _ _ type H1).
      split; [lia|destruct (_ && _); lia].
  - destruct (Z.ltb_spec (Z.of_nat (length (pm :: pm2 :: rest))) 2) as [L|_];
      [simpl in L; lia|].
    eapply Hdone; [reflexivity|apply counts_le_refl].
Qed.

Lemma sweep_color_total (s : CathedralState) (color : CellState) :
  capture_ready s ->
  exists s', sweep_color s color = Ok s'
             /\ capture_ready s' /\ counts_le (players s) (players s').
Proof.
  intros Hready. unfold sweep_color.
  destruct (foldM_total
              (fun acc => capture_ready (fst acc)
                          /\ counts_le (players s) (players (fst acc))
                          /\ (ones (snd acc) <= 100)%nat)
              (fun runner => 0 <= runner < 100)
              (sweep_cell color) (seqZ 0 100)) with (s := (s, field_without_color (board s) color))
    as (acc & Hacc & Hr & Hc & _).
  - intros acc runner (Hr & Hc & Hones) Hrunner. unfold sweep_cell.
    destruct (Z.eqb_spec (mask_at (snd acc) (mkSquare (Z.rem runner 10) (Z.quot runner 10))) 1)
      as [E|N]; [|exists acc; auto].
    pose proof (ones_mask_clear _ _ E) as Hclear.
    destruct (flood_fill_total 100
                (mask_clear (snd acc) (mkSquare (Z.rem runner 10) (Z.quot runner 10)))
                [mkSquare (Z.rem runner 10) (Z.quot runner 10)] [])
      as (mask' & region & Hff & Hones'); [simpl; lia|].
    pose proof (discovered_region_on_board _ _ _ _ Hrunner Hff) as Hon.
    destruct (process_region_total (fst acc) region color Hr Hon) as (s1 & H1 & Hr1 & Hc1).
    rewrite Hff. simpl. rewrite H1. simpl. eexists. split; [reflexivity|]. simpl.
    split; [exact Hr1|]. split; [eapply counts_le_trans; eauto|]. simpl in Hones'. lia.
  - apply Forall_forall. intros x Hx. apply list_elem_of_In, In_seqZ in Hx. lia.
  - simpl. split; [exact Hready|]. split; [apply counts_le_refl|].
    apply ones_field_without_color.
  - rewrite Hacc. simpl. eauto.
Qed.

Lemma build_regions_total (s : CathedralState) :
  capture_ready s ->
  exists s', build_regions s = Ok s'
             /\ capture_ready s' /\ counts_le (players s) (players s').
Proof.
  intros Hready. unfold build_regions.
  destruct (foldM_total
              (fun x => capture_ready x /\ counts_le (players s) (players x))
              (fun _ => True) sweep_color [BLACK; WHITE]) with (s := s)
    as (s' & Hs' & Hr & Hc).
  - intros s1 color (Hr & Hc) _.
    destruct (sweep_color_total s1 color Hr) as (s2 & H2 & Hr2 & Hc2).
    exists s2. split; [exact H2|]. split; [exact Hr2|]. eapply counts_le_trans; eauto.
  - repeat constructor.
  - split; [exact Hready|apply counts_le_refl].
  - eauto.
Qed.

Lemma count_connections_total (color : CellState) (cs : list Square) :
  forall s n, capture_ready s ->
    exists s', count_connections s color cs n = Ok s'
               /\ capture_ready s' /\ counts_le (players s) (players s').
Proof.
  induction cs as [|c cs IH]; intros s n Hready; simpl.
  - exists s. split; [reflexivity|]. split; [exact Hready|apply counts_le_refl].
  - destruct (negb (is_on_board c) || _ || _); [|apply IH, Hready].
    destruct (n + 1 >? 1); [apply build_regions_total, Hready|apply IH, Hready].
Qed.

Lemma place_building_total (s : CathedralState) (m : Move) :
  capture_ready s ->
  is_move_valid (board s) m (current_player_ s) = true ->
  exists s', place_building s m = Ok s'
             /\ capture_ready s' /\ counts_le (players s) (players s').
Proof.
  intros Hready Hv. pose proof Hready as ((Hb & H0 & H1) & Hd & Hvalid).
  unfold place_building.
  destruct (recolor_region_spec (form m) (get_square_color m (current_player_ s)) (board s) Hb
              (is_move_valid_on_board _ _ _ Hv)) as (b' & Hb' & Hwf' & _).
  change (place_color (board s) (form m) (get_square_color m (current_player_ s)))
    with (recolor_region (board s) (form m) (get_square_color m (current_player_ s))).
  rewrite Hb'. cbn [bind].
  assert (Hready' : capture_ready (with_board s b')).
  { split; [repeat split; assumption|]. split; assumption. }
  destruct (_ >? 2).
  - destruct (count_connections_total (get_square_color m (current_player_ s)) (corners m)
                (with_board s b') 0 Hready') as (s' & Hs' & Hr & Hc).
    exists s'. auto.
  - exists (with_board s b'). split; [reflexivity|]. split; [exact Hready'|].
    apply counts_le_refl.
Qed.

(** A move that the board accepts for the current player, of a type the
    player still has, is applied without any exception. *)
Lemma make_unvalidated_move_total (s : CathedralState) (m : Move) (pieces : Playerpieces) :
  capture_ready s ->
  current_player_ s = 0 \/ current_player_ s = 1 ->
  players_at (players s) (current_player_ s) = Ok pieces ->
  is_building_available pieces (building_type m) = true ->
  is_move_valid (board s) m (current_player_ s) = true ->
  exists s', make_unvalidated_move s m = Ok s'.
Proof.
  intros Hready Hc Hp Hav Hv.
  destruct (place_building_total s m Hready Hv) as (s1 & H1 & Hr1 & Hc1).
  pose proof (place_building_frame _ _ _ H1) as (_ & _ & _ & Hcur & _).
  unfold make_unvalidated_move. rewrite H1. cbn [bind]. rewrite Hcur.
  rewrite (players_at_valid _ _ Hc) in Hp. injection Hp as <-.
  rewrite (players_at_valid (players s1) _ Hc). cbn [bind].
  assert (Hav1 : is_building_available
                   (if current_player_ s =? 0 then fst (players s1) else snd (players s1))
                   (building_type m) = true).
  { unfold is_building_available in *. apply Z.gtb_lt in Hav. apply Z.gtb_lt.
    specialize (Hc1 (building_type m)). destruct (current_player_ s =? 0); lia. }
  unfold use_building. rewrite Hav1. cbn [negb bind].
  match goal with |- exists s', update_current_player ?x = Ok s' => set (s2 := x) end.
  destruct (update_current_player_spec s2) as (s3 & H3 & _).
  { change (current_player_ s2) with (current_player_ s1). rewrite Hcur. exact Hc. }
  eauto.
Qed.

Lemma state_wf_capture_ready (s : CathedralState) : state_wf s -> capture_ready s.
Proof.
  intros (Hd & Hv & Hb & H0 & H1 & _). split; [repeat split; assumption|]. auto.
Qed.

Lemma apply_legal_action (s : CathedralState) (legal : list Z) (a : Z) :
  state_wf s -> LegalActions s = Ok legal -> In a legal ->
  exists m s' s'',
    decode_move a = Ok m
    /\ make_move s m = Ok (true, s')
    /\ DoApplyAction s a = Ok s'
    /\ ApplyAction s a = Ok s''
    /\ history_ s'' = history_ s ++ [mkPlayerAction (current_player_ s) a]
    /\ state_wf s''.
Proof.
  intros Hwf HL Hin. pose proof Hwf as (_ & _ & _ & _ & _ & Hc & Hout).
  pose proof HL as HL'. unfold LegalActions in HL'.
  apply bind_Ok_inv in HL' as (moves & Hmoves & E). injection E as <-.
  pose proof Hin as Hin'.
  apply In_sort_actions, in_map_iff in Hin' as (m & <- & Hm).
  destruct (get_possible_moves_char s moves Hmoves) as [Hchar _].
  pose proof (proj1 (Hchar m) Hm) as Hlegal.
  destruct (legal_move_decodes s m Hlegal) as [Hd Hrange].
  destruct Hlegal as (pieces & q & r & Hp & Hav & _ & _ & Hv & _).
  destruct (make_unvalidated_move_total s m pieces (state_wf_capture_ready s Hwf)
              Hc Hp Hav Hv) as (s' & Hs').
  assert (Hmake : make_move s m = Ok (true, s')).
  { unfold make_move. rewrite Hv, Hs'. reflexivity. }
  assert (HDo : DoApplyAction s (encode m) = Ok s').
  { unfold DoApplyAction. rewrite (Move_of_action_in_range _ Hrange), Hd. simpl.
    rewrite Hmake. reflexivity. }
  assert (Hfin : is_finished s = Ok false).
  { unfold is_finished. rewrite Z.add_0_r.
    assert (E : Z.rem (current_player_ s) 2 = current_player_ s)
      by (destruct Hc as [-> | ->]; reflexivity).
    rewrite E. destruct (player_has_moves_spec s _ Hc) as (found & Hf & Hiff).
    rewrite Hf. assert (found = true); [|subst; reflexivity].
    apply Hiff. eapply possible_moves_legal; eauto. }
  assert (HA : exists s'', ApplyAction s (encode m) = Ok s''
                           /\ history_ s''
                              = history_ s ++ [mkPlayerAction (current_player_ s) (encode m)]).
  { unfold ApplyAction, CurrentPlayer, IsTerminal.
    rewrite Hout, Z.eqb_refl, Hfin. simpl. rewrite HDo. simpl.
    eexists. split; [reflexivity|]. simpl.
    apply make_unvalidated_move_frame in Hs' as (Hh & _). rewrite Hh. reflexivity. }
  destruct HA as (s'' & HA & Hh).
  exists m, s', s''.
  split; [exact Hd|]. split; [exact Hmake|]. split; [exact HDo|].
  split; [exact HA|]. split; [exact Hh|].
  exact (ApplyAction_wf s s'' (encode m) _ Hwf HL Hin HA).
Qed.

(** X18.  In a well-formed position every action returned by
    LegalActions is applied without failure: the id decodes, make_move
    accepts the move and returns true, no exception is raised anywhere
    -- not by the inventory, not by the capture sweep -- and the
    framework step appends (current player, action) to the history and
    arrives in a well-formed position again. *)
Theorem legal_action_applies (s : CathedralState) (legal : list Z) (a : Z) :
  state_wf s -> LegalActions s = Ok legal -> In a legal ->
  exists m s' s'',
    decode_move a = Ok m
    /\ make_move s m = Ok (true, s')
    /\ DoApplyAction s a = Ok s'
    /\ ApplyAction s a = Ok s''
    /\ history_ s'' = history_ s ++ [mkPlayerAction (current_player_ s) a]
    /\ state_wf s''.
Proof. apply apply_legal_action. Qed.

(** X18 witness: the opening action 5255 applied to the initial position. *)
Lemma legal_action_applies_witness :
  exists legal m s' s'',
    state_wf initial_state
    /\ LegalActions initial_state = Ok legal
    /\ In 5255 legal
    /\ decode_move 5255 = Ok m
    /\ make_move initial_state m = Ok (true, s')
    /\ ApplyAction initial_state 5255 = Ok s''
    /\ history_ s'' = [mkPlayerAction 0 5255].
Proof.
  assert (HL : exists legal, LegalActions initial_state = Ok legal
                             /\ existsb (Z.eqb 5255) legal = true)
    by (eexists; split; vm_compute; reflexivity).
  destruct HL as (legal & HL & Hin). apply existsb_eqb_In in Hin.
  destruct (legal_action_applies initial_state legal 5255 initial_state_wf HL Hin)
    as (m & s' & s'' & Hd & Hm & _ & HA & Hh & _).
  exists legal, m, s', s''. repeat split; try assumption; try reflexivity.
  - left; reflexivity.
Defined.

(** ** What DoApplyAction does with an id of the action space *)

Lemma taverns_spent_reachable :
  legal_run taverns_spent_actions initial_state = Some taverns_spent
  /\ reachable taverns_spent.
Proof.
  assert (H : legal_run taverns_spent_actions initial_state = Some taverns_spent)
    by (vm_compute; reflexivity).
  split; [exact H|]. exact (legal_run_reachable _ _ _ reachable_initial H).
Qed.

(** With the board check passed, what is left to decide the outcome is
    the inventory guard of use_building, asked after the placement. *)
Lemma make_move_after_board_check (s : CathedralState) (m : Move) :
  state_wf s ->
  is_move_valid (board s) m (current_player_ s) = true ->
  exists s1 pieces,
    place_building s m = Ok s1
    /\ players_at (players s1) (current_player_ s) = Ok pieces
    /\ (is_building_available pieces (building_type m) = false ->
        make_move s m = Throw out_of_range)
    /\ (is_building_available pieces (building_type m) = true ->
        exists pieces' s',
          use_building pieces (building_type m) = Ok pieces'
          /\ update_current_player
               (with_players s1 (set_players_at (players s1) (current_player_ s) pieces'))
             = Ok s'
          /\ make_move s m = Ok (true, s'))
    /\ (forall held, players_at (players s) (current_player_ s) = Ok held ->
          is_building_available held (building_type m) = true ->
          is_building_available pieces (building_type m) = true).
Proof.
  intros Hwf Hv. pose proof Hwf as (_ & _ & _ & _ & _ & Hc & _).
  destruct (place_building_total s m (state_wf_capture_ready s Hwf) Hv)
    as (s1 & H1 & _ & Hc1).
  pose proof (place_building_frame _ _ _ H1) as (_ & _ & _ & Hcur & _).
  pose proof (players_at_valid (players s1) _ Hc) as Hp1.
  set (pieces := if current_player_ s =? 0 then fst (players s1) else snd (players s1)) in *.
  exists s1, pieces. split; [exact H1|]. split; [exact Hp1|].
  assert (Hmake : make_move s m
                  = let* pieces' := use_building pieces (building_type m) in
                    let* s' := update_current_player
                                 (with_players s1
                                    (set_players_at (players s1) (current_player_ s) pieces')) in
                    Ok (true, s')).
  { unfold make_move, make_unvalidated_move. rewrite Hv, H1. cbn [negb bind].
    rewrite Hcur, Hp1. cbn [bind].
    destruct (use_building pieces (building_type m)); reflexivity. }
  split; [|split].
  - intros Hav. rewrite Hmake. unfold use_building. rewrite Hav. reflexivity.
  - intros Hav. unfold use_building in *. rewrite Hav in *. cbn [negb bind] in Hmake.
    match type of Hmake with
    | _ = (let* s' := update_current_player ?x in _) => set (s2 := x) in *
    end.
    destruct (update_current_player_spec s2) as (s' & Hs' & _).
    { change (current_player_ s2) with (current_player_ s1). rewrite Hcur. exact Hc. }
    exists (set_available_count pieces (building_type m)
              (available_count pieces (building_type m) - 1)), s'.
    split; [reflexivity|]. split; [exact Hs'|]. rewrite Hmake, Hs'. reflexivity.
  - intros held Hheld Hav. rewrite (players_at_valid _ _ Hc) in Hheld. injection Hheld as <-.
    unfold is_building_available in *. apply Z.gtb_lt in Hav. apply Z.gtb_lt.
    specialize (Hc1 (building_type m)). unfold pieces.
    destruct (current_player_ s =? 0); lia.
Qed.

(** C6, as the code has it.  Every action id in [0, 5600) names a
    building type, a rotation index and a board cell, and DoApplyAction
    ends in one of four ways.  When the rotation index exceeds the
    building's symmetry class, the Move constructor throws
    invalid_argument.  Otherwise the id decodes to a Move.  If the
    board's legality check fails, make_move reports false and the state
    is unchanged.  If it passes, in a well-formed position the placement
    with its captures completes, and the inventory guard decides: when
    the player to move then has no building of the type, use_building
    throws out_of_range; when the player has one -- as is the case
    whenever the player had one before the placement -- the move is
    applied: the inventory is debited, the turn is updated and make_move
    returns true.  Every id returned by LegalActions is applied. *)
Theorem DoApplyAction_in_range (s : CathedralState) (a : Z) :
  0 <= a < range_of_nn_distribution ->
  exists type rot,
    building_of_index (Z.quot a 400) = Some type
    /\ rotation_of_index (Z.quot (Z.rem a 400) 100) = Some rot
    /\ (~ rotation_legal type rot ->
        decode_move a = Throw invalid_argument
        /\ DoApplyAction s a = Throw invalid_argument)
    /\ (rotation_legal type rot ->
        exists m,
          decode_move a = Ok m
          /\ building_type m = type /\ rotation m = rot /\ within_grid (pos m)
          /\ (is_move_valid (board s) m (current_player_ s) = false ->
              make_move s m = Ok (false, s) /\ DoApplyAction s a = Ok s)
          /\ (state_wf s -> is_move_valid (board s) m (current_player_ s) = true ->
              exists s1 pieces,
                place_building s m = Ok s1
                /\ players_at (players s1) (current_player_ s) = Ok pieces
                /\ (is_building_available pieces type = false ->
                    make_move s m = Throw out_of_range
                    /\ DoApplyAction s a = Throw out_of_range)
                /\ (is_building_available pieces type = true ->
                    exists pieces' s',
                      use_building pieces type = Ok pieces'
                      /\ update_current_player
                           (with_players s1
                              (set_players_at (players s1) (current_player_ s) pieces'))
                         = Ok s'
                      /\ make_move s m = Ok (true, s')
                      /\ DoApplyAction s a = Ok s')
                /\ (forall held, players_at (players s) (current_player_ s) = Ok held ->
                      is_building_available held type = true ->
                      is_building_available pieces type = true))
          /\ (state_wf s -> forall legal, LegalActions s = Ok legal -> In a legal ->
              legal_move s m
              /\ exists s', make_move s m = Ok (true, s') /\ DoApplyAction s a = Ok s'))
    /\ (state_wf s -> forall legal, LegalActions s = Ok legal -> In a legal ->
        rotation_legal type rot).
Proof.
  intros Ha. destruct (action_in_range_components a Ha) as (type & rot & Ht & Hr & Hg).
  exists type, rot. split; [exact Ht|]. split; [exact Hr|].
  assert (Hd : decode_move a
               = Move_new (mkSquare (Z.rem a 10) (Z.quot (Z.rem a 100) 10)) type rot).
  { rewrite decode_move_unfold, Ht, Hr. reflexivity. }
  assert (HDo : DoApplyAction s a
                = let* m := decode_move a in let* r := make_move s m in Ok (snd r)).
  { unfold DoApplyAction. rewrite (Move_of_action_in_range a Ha). reflexivity. }
  split; [|split].
  - intros N. rewrite HDo, Hd, (Move_new_throws _ _ _ N). split; reflexivity.
  - intros L.
    assert (Hex : exists m, Move_new (mkSquare (Z.rem a 10) (Z.quot (Z.rem a 100) 10))
                              type rot = Ok m)
      by (eexists; apply Move_new_ok, L).
    destruct Hex as (m & Hm).
    pose proof (Move_new_inv _ _ _ _ Hm) as (_ & Hpos & Em & Er).
    exists m. rewrite HDo, Hd, Hm. split; [reflexivity|].
    split; [exact Em|]. split; [exact Er|]. split; [rewrite Hpos; exact Hg|].
    cbn [bind]. split; [|split].
    + intros Hv. unfold make_move. rewrite Hv. split; reflexivity.
    + intros Hwf Hv.
      destruct (make_move_after_board_check s m Hwf Hv)
        as (s1 & pieces & H1 & Hp & Hno & Hyes & Hkeep).
      rewrite Em in Hno, Hyes, Hkeep.
      exists s1, pieces. split; [exact H1|]. split; [exact Hp|].
      split; [|split; [|exact Hkeep]].
      * intros Hav. rewrite (Hno Hav). split; reflexivity.
      * intros Hav. destruct (Hyes Hav) as (pieces' & s' & Hu & Hs' & Hmk).
        exists pieces', s'. rewrite Hmk. auto.
    + intros Hwf legal HL Hin.
      destruct (apply_legal_action s legal a Hwf HL Hin)
        as (m' & s' & _ & Hd' & Hm' & _).
      rewrite Hd, Hm in Hd'. injection Hd' as <-.
      split.
      * unfold LegalActions in HL. apply bind_Ok_inv in HL as (moves & Hmoves & E).
        injection E as <-. apply In_sort_actions, in_map_iff in Hin as (m0 & E0 & Hm0).
        destruct (get_possible_moves_char s moves Hmoves) as [Hchar _].
        apply Hchar in Hm0. destruct (legal_move_decodes s m0 Hm0) as [Hd0 _].
        rewrite E0, Hd, Hm in Hd0. injection Hd0 as <-. exact Hm0.
      * exists s'. rewrite Hm'. auto.
  - intros Hwf legal HL Hin.
    destruct (apply_legal_action s legal a Hwf HL Hin) as (m' & _ & _ & Hd' & _).
    rewrite Hd in Hd'. apply Move_new_inv in Hd'. tauto.
Qed.

Lemma DoApplyAction_in_range_witness :
  (0 <= 5255 < range_of_nn_distribution
   /\ exists s', DoApplyAction initial_state 5255 = Ok s')
  /\ (0 <= 55 < range_of_nn_distribution
      /\ DoApplyAction corner_pocket 55 = Ok corner_pocket)
  /\ (0 <= 4 < range_of_nn_distribution
      /\ DoApplyAction taverns_spent 4 = Throw out_of_range)
  /\ (0 <= 100 < range_of_nn_distribution
      /\ DoApplyAction initial_state 100 = Throw invalid_argument).
Proof.
  assert (R1 : 0 <= 5255 < range_of_nn_distribution) by (unfold range_of_nn_distribution; lia).
  assert (R2 : 0 <= 55 < range_of_nn_distribution) by (unfold range_of_nn_distribution; lia).
  assert (R3 : 0 <= 4 < range_of_nn_distribution) by (unfold range_of_nn_distribution; lia).
  assert (R4 : 0 <= 100 < range_of_nn_distribution) by (unfold range_of_nn_distribution; lia).
  split; [|split; [|split]].
  - split; [exact R1|].
    destruct (DoApplyAction_in_range initial_state 5255 R1)
      as (type & rot & Ht & Hr & _ & Hgood & _).
    vm_compute in Ht. injection Ht as <-. vm_compute in Hr. injection Hr as <-.
    lapply Hgood; [clear Hgood; intros Hgood|vm_compute; discriminate].
    destruct Hgood as (m & Hd & _ & _ & _ & _ & Hvalid & _).
    vm_compute in Hd. injection Hd as <-.
    specialize (Hvalid initial_state_wf).
    lapply Hvalid; [clear Hvalid; intros Hvalid|vm_compute; reflexivity].
    destruct Hvalid as (s1 & pieces & _ & _ & _ & Hyes & Hkeep).
    specialize (Hkeep (fst (players initial_state)) eq_refl eq_refl).
    destruct (Hyes Hkeep) as (_ & s' & _ & _ & _ & HD).
    exists s'. exact HD.
  - split; [exact R2|].
    destruct (DoApplyAction_in_range corner_pocket 55 R2)
      as (type & rot & Ht & Hr & _ & Hgood & _).
    vm_compute in Ht. injection Ht as <-. vm_compute in Hr. injection Hr as <-.
    lapply Hgood; [clear Hgood; intros Hgood|vm_compute; discriminate].
    destruct Hgood as (m & Hd & _ & _ & _ & Hinvalid & _).
    vm_compute in Hd. injection Hd as <-.
    apply Hinvalid. vm_compute. reflexivity.
  - split; [exact R3|].
    destruct (DoApplyAction_in_range taverns_spent 4 R3)
      as (type & rot & Ht & Hr & _ & Hgood & _).
    vm_compute in Ht. injection Ht as <-. vm_compute in Hr. injection Hr as <-.
    lapply Hgood; [clear Hgood; intros Hgood|vm_compute; discriminate].
    destruct Hgood as (m & Hd & _ & _ & _ & _ & Hvalid & _).
    vm_compute in Hd. injection Hd as <-.
    specialize (Hvalid (reachable_wf _ (proj2 taverns_spent_reachable))).
    lapply Hvalid; [clear Hvalid; intros Hvalid|vm_compute; reflexivity].
    destruct Hvalid as (s1 & pieces & H1 & Hp & Hno & _).
    vm_compute in H1. injection H1 as <-.
    vm_compute in Hp. injection Hp as <-.
    apply Hno. vm_compute. reflexivity.
  - split; [exact R4|].
    destruct (DoApplyAction_in_range initial_state 100 R4)
      as (type & rot & Ht & Hr & Hbad & _).
    vm_compute in Ht. injection Ht as <-. vm_compute in Hr. injection Hr as <-.
    apply Hbad. vm_compute. intros H. apply H. reflexivity.
Defined.

(** C6 as stated fails in three ways, each at an id of [0, 5600).
    Action 100 names the Tavern with rotation index 1, beyond the
    Tavern's symmetry class: on the initial position DoApplyAction ends
    with the invalid_argument exception of the Move constructor, not
    with a false flag from make_move.  Action 4, a Tavern on the empty
    cell (4,0), in the reachable position where black has placed both
    Taverns: the rotation is legal and the board check passes, and
    DoApplyAction ends with the out_of_range exception of use_building.
    Action 0, a Tavern on (0,0), on the initial position: it is not a
    legal action, since the opening move must be the Cathedral, yet
    make_move returns true and the Tavern is on the board. *)
Lemma DoApplyAction_other_outcomes :
  (0 <= 100 < range_of_nn_distribution
   /\ building_of_index (Z.quot 100 400) = Some Tavern
   /\ rotation_of_index (Z.quot (Z.rem 100 400) 100) = Some ROTATE_90
   /\ ~ rotation_legal Tavern ROTATE_90
   /\ DoApplyAction initial_state 100 = Throw invalid_argument
   /\ (forall s', DoApplyAction initial_state 100 <> Ok s'))
  /\ (0 <= 4 < range_of_nn_distribution
      /\ reachable taverns_spent
      /\ (exists m, decode_move 4 = Ok m
                    /\ building_type m = Tavern
                    /\ rotation_legal Tavern (rotation m)
                    /\ is_move_valid (board taverns_spent) m
                         (current_player_ taverns_spent) = true)
      /\ DoApplyAction taverns_spent 4 = Throw out_of_range
      /\ (forall s', DoApplyAction taverns_spent 4 <> Ok s'))
  /\ (0 <= 0 < range_of_nn_distribution
      /\ (exists legal, LegalActions initial_state = Ok legal /\ ~ In 0 legal)
      /\ exists m s',
           decode_move 0 = Ok m
           /\ make_move initial_state m = Ok (true, s')
           /\ DoApplyAction initial_state 0 = Ok s'
           /\ cell (board initial_state) (mkSquare 0 0) = EMPTY
           /\ cell (board s') (mkSquare 0 0) = WHITE).
Proof.
  split; [|split].
  - split; [unfold range_of_nn_distribution; lia|].
    split; [reflexivity|]. split; [reflexivity|].
    split; [vm_compute; intros H; apply H; reflexivity|].
    split; [vm_compute; reflexivity|].
    intros s'. vm_compute. discriminate.
  - split; [unfold range_of_nn_distribution; lia|].
    split; [apply taverns_spent_reachable|].
    split; [eexists; split; [vm_compute; reflexivity|];
            split; [reflexivity|]; split; [vm_compute; discriminate|vm_compute; reflexivity]|].
    split; [vm_compute; reflexivity|].
    intros s'. vm_compute. discriminate.
  - split; [unfold range_of_nn_distribution; lia|]. split.
    + eexists. split; [vm_compute; reflexivity|].
      intros Hin.
      match type of Hin with In _ ?l =>
        assert (E : existsb (Z.eqb 0) l = true)
          by (apply existsb_exists; exists 0; split; [exact Hin|reflexivity])
      end.
      vm_compute in E. discriminate.
    + eexists. eexists. split; [vm_compute; reflexivity|].
      split; [vm_compute; reflexivity|].
      split; [vm_compute; reflexivity|]. split; vm_compute; reflexivity.
Qed.

(** ** The end of the game *)

Lemma has_legal_placement_dec (s : CathedralState) (p : Z) :
  p = 0 \/ p = 1 -> has_legal_placement s p \/ ~ has_legal_placement s p.
Proof.
  intros Hp. destruct (player_has_moves_spec s p Hp) as ([|] & _ & Hiff).
  - left. apply Hiff. reflexivity.
  - right. intros H. apply Hiff in H. discriminate.
Qed.

Lemma is_finished_char (s : CathedralState) :
  current_player_ s = 0 \/ current_player_ s = 1 ->
  exists finished,
    is_finished s = Ok finished
    /\ (finished = true <-> ~ has_legal_placement s 0 /\ ~ has_legal_placement s 1).
Proof.
  intros Hc. unfold is_finished.
  assert (E0 : Z.rem (current_player_ s + 0) 2 = current_player_ s)
    by (destruct Hc as [-> | ->]; reflexivity).
  assert (E1 : Z.rem (current_player_ s + 1) 2 = 1 - current_player_ s)
    by (destruct Hc as [-> | ->]; reflexivity).
  rewrite E0, E1.
  destruct (player_has_moves_spec s (current_player_ s) Hc) as (f0 & Hf0 & Hiff0).
  destruct (player_has_moves_spec s (1 - current_player_ s)) as (f1 & Hf1 & Hiff1); [lia|].
  rewrite Hf0. simpl.
  assert (Hboth : ~ has_legal_placement s 0 /\ ~ has_legal_placement s 1
                  <-> ~ has_legal_placement s (current_player_ s)
                      /\ ~ has_legal_placement s (1 - current_player_ s)).
  { destruct Hc as [-> | ->]; simpl; tauto. }
  destruct f0.
  - exists false. split; [reflexivity|]. rewrite Hboth. split; [discriminate|].
    intros [H _]. exfalso. apply H, Hiff0. reflexivity.
  - rewrite Hf1. simpl. exists (negb f1). split; [reflexivity|]. rewrite Hboth.
    destruct f1; simpl.
    + split; [discriminate|]. intros [_ H]. exfalso. apply H, Hiff1. reflexivity.
    + split; [|reflexivity]. intros _.
      split; intros H; [apply Hiff0 in H|apply Hiff1 in H]; discriminate.
Qed.

(** X19.  is_finished never fails when player 0 or 1 is to move, and it
    answers true exactly when neither player has a legal placement -- a
    building of a type still in the player's inventory, anchored on the
    board in a rotation legal for the type, that the board accepts. *)
Theorem finished_iff_nobody_can_place (s : CathedralState) :
  current_player_ s = 0 \/ current_player_ s = 1 ->
  exists finished,
    is_finished s = Ok finished
    /\ (finished = true <-> ~ has_legal_placement s 0 /\ ~ has_legal_placement s 1).
Proof. apply is_finished_char. Qed.

Lemma finished_iff_nobody_can_place_witness :
  (current_player_ full_game = 0 \/ current_player_ full_game = 1)
  /\ is_finished full_game = Ok true
  /\ ~ has_legal_placement full_game 0
  /\ ~ has_legal_placement full_game 1.
Proof.
  assert (Hc : current_player_ full_game = 0 \/ current_player_ full_game = 1)
    by (vm_compute; auto).
  destruct (finished_iff_nobody_can_place full_game Hc) as (finished & Hf & Hiff).
  assert (E : is_finished full_game = Ok true) by (vm_compute; reflexivity).
  rewrite E in Hf. injection Hf as <-.
  split; [exact Hc|]. split; [exact E|]. apply Hiff. reflexivity.
Defined.

Lemma get_possible_moves_total (s : CathedralState) :
  current_player_ s = 0 \/ current_player_ s = 1 ->
  exists moves, get_possible_moves s = Ok moves.
Proof.
  intros Hc. pose proof (players_at_valid (players s) _ Hc) as Hp.
  unfold get_possible_moves, get_possible_moves_for. rewrite Z.eqb_refl. simpl.
  destruct (get_move_count s =? 0).
  - destruct (get_possible_moves_of_type_spec s Cathedral _ _ Hp) as (l & Hl & _).
    simpl. eauto.
  - unfold generate_all_possible_moves. rewrite Hp. cbn [bind].
    destruct (generate_loop_spec s _ (get_available_building_types
                 (if current_player_ s =? 0 then fst (players s) else snd (players s)))
                Hp []) as (l & Hl & _).
    + unfold get_available_building_types. apply List.NoDup_filter, NoDup_all_building_types.
    + constructor.
    + intros m [].
    + eauto.
Qed.

Lemma sort_actions_nil (l : list Z) : sort_actions l = [] <-> l = [].
Proof.
  split; [|intros ->; reflexivity]. intros H. destruct l as [|a l]; [reflexivity|].
  assert (Hin : In a (sort_actions (a :: l))) by (apply In_sort_actions; left; reflexivity).
  rewrite H in Hin. destruct Hin.
Qed.

Lemma legal_move_placement (s : CathedralState) (m : Move) :
  legal_move s m -> has_legal_placement s (current_player_ s).
Proof.
  intros (pieces & q & r & Hp & Hav & Hg & Hm & Hv & _).
  exists pieces, (building_type m), q, r, m. auto.
Qed.

Lemma placement_legal_move (s : CathedralState) :
  history_ s <> [] -> has_legal_placement s (current_player_ s) ->
  exists m, legal_move s m.
Proof.
  intros Hh (pieces & type & q & r & m & Hp & Hav & Hg & Hm & Hv).
  pose proof (Move_new_inv _ _ _ _ Hm) as (_ & _ & Ht & _).
  exists m, pieces, q, r. rewrite Ht.
  split; [exact Hp|]. split; [exact Hav|]. split; [exact Hg|]. split; [exact Hm|].
  split; [exact Hv|]. intros E. contradiction.
Qed.

Lemma make_unvalidated_move_turn (s s' : CathedralState) (m : Move) :
  current_player_ s = 0 \/ current_player_ s = 1 ->
  make_unvalidated_move s m = Ok s' -> turn_sound s'.
Proof.
  intros Hc H. unfold make_unvalidated_move in H.
  apply bind_Ok_inv in H as (s1 & H1 & H).
  apply bind_Ok_inv in H as (pieces & _ & H).
  apply bind_Ok_inv in H as (pieces' & _ & H).
  apply place_building_frame in H1 as (_ & _ & _ & Hcur & _).
  match type of H with update_current_player ?x = _ => set (s2 := x) in * end.
  assert (Hc2 : current_player_ s2 = 0 \/ current_player_ s2 = 1).
  { change (current_player_ s2) with (current_player_ s1). rewrite Hcur. exact Hc. }
  destruct (update_current_player_spec s2 Hc2) as (s3 & H3 & Hyes & Hno).
  rewrite H in H3. injection H3 as <-.
  destruct (has_legal_placement_dec s2 (1 - current_player_ s2)) as [Y|N]; [lia| |].
  - rewrite (Hyes Y). intros _. simpl.
    apply (has_legal_placement_ext _ s2); [reflexivity|reflexivity|exact Y].
  - rewrite (Hno N). intros Y. contradiction.
Qed.

Lemma initial_state_placement : has_legal_placement initial_state 0.
Proof.
  exists (fst (players initial_state)), Cathedral, (mkSquare 5 5), ROTATE_0, cathedral_centre.
  repeat split; try reflexivity; simpl; lia.
Qed.

Lemma reachable_turn_sound (s : CathedralState) : reachable s -> turn_sound s.
Proof.
  induction 1 as [|s s' a legal Hr IH HL Hin HA].
  - intros _. exact initial_state_placement.
  - pose proof (reachable_wf s Hr) as (_ & _ & _ & _ & _ & Hc & _).
    unfold ApplyAction in HA.
    apply bind_Ok_inv in HA as (p & _ & HA).
    apply bind_Ok_inv in HA as (s1 & HD & HA). injection HA as <-.
    assert (Hs1 : turn_sound s1).
    { unfold DoApplyAction in HD.
      apply bind_Ok_inv in HD as (m & _ & HD).
      apply bind_Ok_inv in HD as (r & Hm & HD). injection HD as <-.
      unfold make_move in Hm. destruct (negb _).
      - injection Hm as <-. exact IH.
      - apply bind_Ok_inv in Hm as (s2 & H2 & Hm). injection Hm as <-.
        eapply make_unvalidated_move_turn; eauto. }
    unfold turn_sound in *. simpl.
    intros Y. exact (Hs1 Y).
Qed.

Lemma reachable_history (s : CathedralState) :
  reachable s -> s = initial_state \/ history_ s <> [].
Proof.
  destruct 1 as [|s s' a legal _ _ _ HA]; [left; reflexivity|right].
  unfold ApplyAction in HA.
  apply bind_Ok_inv in HA as (p & _ & HA).
  apply bind_Ok_inv in HA as (s1 & _ & HA). injection HA as <-. simpl.
  destruct (history_ s1); discriminate.
Qed.

Lemma terminal_char (s : CathedralState) :
  reachable s ->
  exists legal terminal,
    LegalActions s = Ok legal
    /\ IsTerminal s = Ok terminal
    /\ (terminal = true <-> legal = [])
    /\ CurrentPlayer s = Ok (if terminal then kTerminalPlayerId else current_player_ s).
Proof.
  intros Hr. pose proof (reachable_wf s Hr) as (_ & _ & _ & _ & _ & Hc & Hout).
  destruct (get_possible_moves_total s Hc) as (moves & Hmoves).
  destruct (is_finished_char s Hc) as (finished & Hf & Hiff).
  destruct (get_possible_moves_char s moves Hmoves) as [Hchar _].
  exists (sort_actions (List.map encode moves)), finished.
  assert (HT : IsTerminal s = Ok finished).
  { unfold IsTerminal. rewrite Hout, Z.eqb_refl. exact Hf. }
  split; [unfold LegalActions; rewrite Hmoves; reflexivity|].
  split; [exact HT|].
  split; [|unfold CurrentPlayer; rewrite HT; reflexivity].
  rewrite sort_actions_nil, Hiff. split.
  - intros [N0 N1]. destruct moves as [|m moves]; [reflexivity|]. exfalso.
    assert (Hm : legal_move s m) by (apply Hchar; left; reflexivity).
    apply legal_move_placement in Hm. destruct Hc as [E|E]; rewrite E in Hm; auto.
  - intros E. apply map_eq_nil in E. subst moves.
    assert (Hnone : ~ has_legal_placement s (current_player_ s)).
    { intros Y. destruct (reachable_history s Hr) as [-> | Hh].
      - vm_compute in Hmoves. discriminate.
      - destruct (placement_legal_move s Hh Y) as (m & Hm).
        apply Hchar in Hm. destruct Hm. }
    pose proof (reachable_turn_sound s Hr) as Hturn. unfold turn_sound in Hturn.
    destruct Hc as [E|E]; rewrite E in Hturn, Hnone.
    + change (1 - 0) with 1 in Hturn. tauto.
    + change (1 - 1) with 0 in Hturn. tauto.
Qed.

(** X20.  In every position reachable by legal play, LegalActions and
    IsTerminal never fail and agree: the position is terminal exactly when
    the list of legal actions is empty, so the player to move always has
    an action until the game is over; CurrentPlayer reports the terminal
    player id exactly then. *)
Theorem terminal_iff_no_legal_action (s : CathedralState) :
  reachable s ->
  exists legal terminal,
    LegalActions s = Ok legal
    /\ IsTerminal s = Ok terminal
    /\ (terminal = true <-> legal = [])
    /\ CurrentPlayer s = Ok (if terminal then kTerminalPlayerId else current_player_ s).
Proof. apply terminal_char. Qed.

Lemma terminal_iff_no_legal_action_witness :
  reachable full_game
  /\ LegalActions full_game = Ok []
  /\ IsTerminal full_game = Ok true
  /\ CurrentPlayer full_game = Ok kTerminalPlayerId.
Proof.
  pose proof full_game_reachable as [_ Hr].
  destruct (terminal_iff_no_legal_action full_game Hr) as (legal & t & HL & HT & _ & HC).
  assert (E : IsTerminal full_game = Ok true) by (vm_compute; reflexivity).
  assert (EL : LegalActions full_game = Ok []) by (vm_compute; reflexivity).
  rewrite E in HT. injection HT as <-.
  repeat split; assumption.
Defined.

(** X21.  Legal play never gets stuck and never leaves the well-formed
    positions: a reachable position is well formed, LegalActions returns
    a list, and every action of that list is applied without failure to
    a position that is reachable again. *)
Theorem reachable_positions_playable (s : CathedralState) :
  reachable s ->
  state_wf s
  /\ exists legal,
       LegalActions s = Ok legal
       /\ forall a, In a legal ->
            exists s', ApplyAction s a = Ok s' /\ reachable s'.
Proof.
  intros Hr. pose proof (reachable_wf s Hr) as Hwf. split; [exact Hwf|].
  destruct (terminal_char s Hr) as (legal & _ & HL & _).
  exists legal. split; [exact HL|]. intros a Hin.
  destruct (apply_legal_action s legal a Hwf HL Hin) as (_ & _ & s'' & _ & _ & _ & HA & _).
  exists s''. split; [exact HA|]. eapply reachable_step; eauto.
Qed.

Lemma reachable_positions_playable_witness :
  reachable corner_pocket
  /\ state_wf corner_pocket
  /\ exists legal, LegalActions corner_pocket = Ok legal
                   /\ exists s', ApplyAction corner_pocket 9 = Ok s' /\ reachable s'.
Proof.
  pose proof corner_pocket_reachable as Hr.
  assert (Hr' : reachable corner_pocket) by apply Hr.
  destruct (reachable_positions_playable corner_pocket Hr') as (Hwf & legal & HL & Happ).
  split; [exact Hr'|]. split; [exact Hwf|]. exists legal. split; [exact HL|].
  apply Happ.
  assert (E : exists l, LegalActions corner_pocket = Ok l /\ existsb (Z.eqb 9) l = true)
    by (eexists; split; vm_compute; reflexivity).
  destruct E as (l & El & Hin). rewrite HL in El. injection El as <-.
  apply existsb_eqb_In, Hin.
Defined.

(** X22.  Returns stays within the utilities the game declares: for a
    position whose history decodes and where player 0 or 1 is to move it
    never fails and yields one utility per player, each of -1, 0 or 1,
    summing to zero, and both are 0 while the game is not finished. *)
Theorem Returns_zero_sum (s : CathedralState) :
  history_decodes s = true ->
  current_player_ s = 0 \/ current_player_ s = 1 ->
  exists u0 u1,
    Returns s = Ok [u0; u1]
    /\ u0 + u1 = 0
    /\ -1 <= u0 <= 1
    /\ (is_finished s = Ok false -> u0 = 0).
Proof.
  intros Hd Hc. destruct (is_finished_char s Hc) as (finished & Hf & _).
  unfold Returns. rewrite Hf. cbn [bind]. destruct finished.
  - rewrite (calc_score_spec s Hd). cbn [bind fst snd].
    destruct (_ >? _); [exists 1, (-1); repeat split; try lia; discriminate|].
    destruct (_ >? _); [exists (-1), 1; repeat split; try lia; discriminate|].
    exists 0, 0. repeat split; lia.
  - exists 0, 0. repeat split; lia.
Qed.

Lemma Returns_zero_sum_witness :
  history_decodes full_game = true
  /\ (current_player_ full_game = 0 \/ current_player_ full_game = 1)
  /\ exists u0 u1, Returns full_game = Ok [u0; u1] /\ u0 + u1 = 0 /\ -1 <= u0 <= 1.
Proof.
  assert (Hd : history_decodes full_game = true) by (vm_compute; reflexivity).
  assert (Hc : current_player_ full_game = 0 \/ current_player_ full_game = 1)
    by (vm_compute; auto).
  destruct (Returns_zero_sum full_game Hd Hc) as (u0 & u1 & HR & Hs & Hb & _).
  split; [exact Hd|]. split; [exact Hc|]. exists u0, u1. auto.
Defined.

(** ** The flood fill finds connected components *)

Lemma mask_clear_spec (mask : list (list Z)) (s : Square) :
  mask_wf mask -> is_on_board s = true ->
  mask_wf (mask_clear mask s)
  /\ forall q, is_on_board q = true ->
       mask_at (mask_clear mask s) q = if Square_eqb s q then 0 else mask_at mask q.
Proof.
  intros [Hlen Hrows] Hon. apply is_on_board_iff in Hon.
  assert (Hy : (Z.to_nat (sq_y s) < length mask)%nat) by lia.
  destruct (lookup_lt_is_Some_2 _ _ Hy) as [row Hrow].
  pose proof (proj1 (Forall_lookup _ _) Hrows _ _ Hrow) as Hrowlen. simpl in Hrowlen.
  split.
  - unfold mask_wf, mask_clear. rewrite length_alter. split; [exact Hlen|].
    apply Forall_lookup. intros i r Hi. rewrite list_lookup_alter in Hi.
    destruct (decide (Z.to_nat (sq_y s) = i)) as [<-|N].
    + rewrite Hrow in Hi. simpl in Hi. injection Hi as <-.
      rewrite length_insert. exact Hrowlen.
    + exact (proj1 (Forall_lookup _ _) Hrows _ _ Hi).
  - intros q Hq. apply is_on_board_iff in Hq. unfold mask_at, mask_clear.
    destruct (Square_eqb s q) eqn:E.
    + apply Square_eqb_eq in E. subst q.
      rewrite !nth_lookup, list_lookup_alter_eq, Hrow. simpl.
      rewrite list_lookup_insert_eq by lia. reflexivity.
    + destruct (Square_eqb_coords s q Hon Hq E) as [Ny|Nx].
      * rewrite !nth_lookup, list_lookup_alter_ne by exact Ny. reflexivity.
      * destruct (decide (Z.to_nat (sq_y s) = Z.to_nat (sq_y q))) as [Ey|Ny].
        -- rewrite <- Ey, !nth_lookup, list_lookup_alter_eq, Hrow. simpl.
           rewrite list_lookup_insert_ne by exact Nx. reflexivity.
        -- rewrite !nth_lookup, list_lookup_alter_ne by exact Ny. reflexivity.
Qed.

Lemma ones_rows (mask : list (list Z)) :
  Forall (fun row => length row = 10%nat) mask -> (ones mask <= 10 * length mask)%nat.
Proof.
  induction 1 as [|row mask Hrow _ IH]; [simpl; lia|].
  rewrite ones_cons. pose proof (count_ones_le row). simpl length. lia.
Qed.

Lemma In_neighbour_offsets (d : Z * Z) :
  In d neighbour_offsets
  <-> -1 <= fst d <= 1 /\ -1 <= snd d <= 1 /\ d <> (0, 0).
Proof.
  change neighbour_offsets
    with [(-1, -1); (0, -1); (1, -1); (-1, 0); (1, 0); (-1, 1); (0, 1); (1, 1)].
  destruct d as [a b]. simpl. split.
  - intros H. repeat (destruct H as [H|H]; [injection H as <- <-; repeat split; (lia || discriminate)|]).
    destruct H.
  - intros (Ha & Hb & N).
    assert (Ea : a = -1 \/ a = 0 \/ a = 1) by lia.
    assert (Eb : b = -1 \/ b = 0 \/ b = 1) by lia.
    destruct Ea as [-> | [-> | ->]], Eb as [-> | [-> | ->]]; try tauto.
Qed.

Lemma neighbours_offset (c b : Square) :
  neighbours c b <->
  exists d, In d neighbour_offsets /\ b = mkSquare (sq_x c + fst d) (sq_y c + snd d).
Proof.
  destruct c as [cx cy], b as [bx b_y]. unfold neighbours. simpl. split.
  - intros (Hx & Hy & N). exists (bx - cx, b_y - cy). split.
    + apply In_neighbour_offsets. simpl. split; [lia|]. split; [lia|].
      intros E. injection E as E1 E2. apply N. f_equal; lia.
    + simpl. f_equal; lia.
  - intros ([a e] & Hd & E). apply In_neighbour_offsets in Hd as (Ha & He & N).
    simpl in *. injection E as -> ->. split; [lia|]. split; [lia|].
    intros E. injection E as E1 E2. apply N. f_equal; lia.
Qed.

Lemma connected_on_board (mask : list (list Z)) (start q : Square) :
  is_on_board start = true -> mask_at mask start = 1 ->
  connected mask start q -> is_on_board q = true /\ mask_at mask q = 1.
Proof. intros Hs Hm. destruct 1; auto. Qed.

Lemma fill_inv_push (mask0 mask : list (list Z)) (start c square : Square)
    (seen : list Square) :
  fill_inv mask0 start mask seen ->
  In c seen -> neighbours c square ->
  is_on_board square = true -> mask_at mask square = 1 ->
  fill_inv mask0 start (mask_clear mask square) (seen ++ [square]).
Proof.
  intros (Hwf & Hnd & Hseen & Hrest) Hc Hn Hon Hm.
  assert (Hfresh : ~ In square seen).
  { intros Hin. destruct (Hseen _ Hin) as (_ & _ & H0). rewrite H0 in Hm. discriminate. }
  assert (Hm0 : mask_at mask0 square = 1) by (rewrite <- (Hrest _ Hon Hfresh); exact Hm).
  destruct (mask_clear_spec mask square Hwf Hon) as [Hwf' Hat].
  split; [exact Hwf'|]. split; [|split].
  - apply NoDup_ListNoDup, NoDup_app. split; [apply NoDup_ListNoDup, Hnd|].
    split; [|apply NoDup_ListNoDup; repeat constructor; intros []].
    intros x Hx Hx'. apply list_elem_of_In in Hx, Hx'.
    destruct Hx' as [<-|[]]. contradiction.
  - intros q Hq. apply in_app_or in Hq as [Hq|[<-|[]]].
    + destruct (Hseen _ Hq) as (Hqon & Hqc & Hq0).
      split; [exact Hqon|]. split; [exact Hqc|].
      rewrite (Hat _ Hqon), Hq0. destruct (Square_eqb square q); reflexivity.
    + split; [exact Hon|]. split.
      * apply (connected_step mask0 start c square); auto. apply (Hseen _ Hc).
      * rewrite (Hat _ Hon), Square_eqb_refl. reflexivity.
  - intros q Hq Hnot. rewrite (Hat _ Hq).
    destruct (Square_eqb square q) eqn:E.
    + apply Square_eqb_eq in E. subst q. exfalso. apply Hnot, in_or_app. right. left.
      reflexivity.
    + apply Hrest; [exact Hq|]. intros Hin. apply Hnot, in_or_app. left. exact Hin.
Qed.

(** One pass over the neighbours of the field just popped. *)
Lemma visit_neighbours_fill (mask0 : list (list Z)) (start c : Square) (pre : list Square) :
  In c pre ->
  forall ds m qu,
    (forall d, In d ds -> In d neighbour_offsets) ->
    fill_inv mask0 start m (pre ++ qu) ->
    let r := fold_left
               (fun (a : list (list Z) * list Square) (d : Z * Z) =>
                  let square := mkSquare (sq_x c + fst d) (sq_y c + snd d) in
                  if is_on_board square && (mask_at (fst a) square =? 1)
                  then (mask_clear (fst a) square, snd a ++ [square])
                  else a) ds (m, qu) in
    fill_inv mask0 start (fst r) (pre ++ snd r)
    /\ (forall q, In q (pre ++ qu) -> In q (pre ++ snd r))
    /\ (forall d, In d ds ->
          is_on_board (mkSquare (sq_x c + fst d) (sq_y c + snd d)) = true ->
          mask_at mask0 (mkSquare (sq_x c + fst d) (sq_y c + snd d)) = 1 ->
          In (mkSquare (sq_x c + fst d) (sq_y c + snd d)) (pre ++ snd r)).
Proof.
  intros Hc. induction ds as [|d ds IH]; intros m qu Hds Hinv; cbn [fold_left].
  - simpl. split; [exact Hinv|]. split; [auto|]. intros d [].
  - set (square := mkSquare (sq_x c + fst d) (sq_y c + snd d)).
    assert (Hds' : forall d', In d' ds -> In d' neighbour_offsets)
      by (intros d' H; apply Hds; right; exact H).
    cbn [fst snd].
    destruct (is_on_board square && (mask_at m square =? 1)) eqn:E.
    + apply andb_true_iff in E as [Hon Hm]. apply Z.eqb_eq in Hm.
      assert (Hinv' : fill_inv mask0 start (mask_clear m square) (pre ++ qu ++ [square])).
      { rewrite app_assoc. apply (fill_inv_push mask0 m start c square); auto.
        - apply in_or_app. left. exact Hc.
        - apply neighbours_offset. exists d. split; [apply Hds; left; reflexivity|reflexivity]. }
      destruct (IH (mask_clear m square) (qu ++ [square]) Hds' Hinv') as (H1 & H2 & H3).
      split; [exact H1|]. split.
      * intros q Hq. apply H2. rewrite app_assoc. apply in_or_app. left. exact Hq.
      * intros d' [<-|Hd'] Hon' Hm'; [|apply H3; assumption].
        apply H2. rewrite app_assoc. apply in_or_app. right. left. reflexivity.
    + destruct (IH m qu Hds' Hinv) as (H1 & H2 & H3).
      split; [exact H1|]. split; [exact H2|].
      intros d' [<-|Hd'] Hon' Hm'; [|apply H3; assumption].
      apply H2. destruct (in_dec Square_eq_dec square (pre ++ qu)) as [Hin|Hnot];
        [exact Hin|exfalso].
      destruct Hinv as (_ & _ & _ & Hrest).
      pose proof (Hrest square Hon' Hnot) as Hsame. fold square in Hm'.
      rewrite Hm' in Hsame. fold square in Hon'. rewrite Hon', Hsame in E. discriminate.
Qed.

Lemma flood_fill_inv (mask0 : list (list Z)) (start : Square) (budget : nat) :
  forall mask queue region mask' region',
    fill_inv mask0 start mask (region ++ queue) ->
    (forall a b, In a region -> neighbours a b -> is_on_board b = true ->
                 mask_at mask0 b = 1 -> In b (region ++ queue)) ->
    flood_fill budget mask queue region = Ok (mask', region') ->
    fill_inv mask0 start mask' region'
    /\ (forall q, In q (region ++ queue) -> In q region')
    /\ (forall a b, In a region' -> neighbours a b -> is_on_board b = true ->
                    mask_at mask0 b = 1 -> In b region').
Proof.
  induction budget as [|budget IH]; intros mask queue region mask' region' Hinv Hclosed H.
  - destruct queue; [|discriminate]. injection H as <- <-.
    rewrite app_nil_r in *. auto.
  - destruct queue as [|c rest].
    + injection H as <- <-. rewrite app_nil_r in *. auto.
    + cbn [flood_fill] in H.
      assert (Hc : In c (region ++ [c])) by (apply in_or_app; right; left; reflexivity).
      assert (Hinv0 : fill_inv mask0 start mask ((region ++ [c]) ++ rest))
        by (rewrite <- app_assoc; exact Hinv).
      destruct (visit_neighbours_fill mask0 start c (region ++ [c]) Hc
                  neighbour_offsets mask rest (fun d H => H) Hinv0) as (H1 & H2 & H3).
      fold (visit_neighbours c (mask, rest)) in H1, H2, H3.
      assert (Hcl : forall a b, In a (region ++ [c]) -> neighbours a b ->
                      is_on_board b = true -> mask_at mask0 b = 1 ->
                      In b ((region ++ [c]) ++ snd (visit_neighbours c (mask, rest)))).
      { intros a b Ha Hn Hon Hm. apply in_app_or in Ha as [Ha|[<-|[]]].
        - apply H2. rewrite <- app_assoc. exact (Hclosed a b Ha Hn Hon Hm).
        - apply neighbours_offset in Hn as (d & Hd & ->). apply H3; assumption. }
      destruct (IH _ _ _ _ _ H1 Hcl H) as (R1 & R2 & R3).
      split; [exact R1|]. split; [|exact R3].
      intros q Hq. apply R2, H2. rewrite <- app_assoc. exact Hq.
Qed.

Lemma flood_fill_connected (mask : list (list Z)) (start : Square) :
  mask_wf mask -> is_on_board start = true -> mask_at mask start = 1 ->
  exists mask' region,
    flood_fill 100 (mask_clear mask start) [start] [] = Ok (mask', region)
    /\ List.NoDup region
    /\ (forall q, In q region <-> connected mask start q)
    /\ mask_wf mask'
    /\ (forall q, is_on_board q = true ->
          mask_at mask' q = if is_in_region q region then 0 else mask_at mask q).
Proof.
  intros Hwf Hon Hm. pose proof Hwf as [Hlen Hrows].
  pose proof (ones_rows mask Hrows) as Hones.
  pose proof (ones_mask_clear mask start Hm) as Hclear.
  destruct (flood_fill_total 100 (mask_clear mask start) [start] [])
    as (mask' & region & Hff & _); [simpl; lia|].
  destruct (mask_clear_spec mask start Hwf Hon) as [Hwf' Hat].
  assert (Hinv : fill_inv mask start (mask_clear mask start) ([] ++ [start])).
  { split; [exact Hwf'|]. split; [repeat constructor; intros []|]. split.
    - intros q [<-|[]]. split; [exact Hon|]. split; [constructor|].
      rewrite (Hat _ Hon), Square_eqb_refl. reflexivity.
    - intros q Hq Hnot. rewrite (Hat _ Hq).
      destruct (Square_eqb start q) eqn:E; [|reflexivity].
      apply Square_eqb_eq in E. exfalso. apply Hnot. left. exact E. }
  assert (Hcl : forall a b, In a [] -> neighbours a b -> is_on_board b = true ->
                  mask_at mask b = 1 -> In b ([] ++ [start])) by (intros a b []).
  destruct (flood_fill_inv mask start 100 _ _ _ _ _ Hinv Hcl Hff)
    as ((Hwf'' & Hnd & Hseen & Hrest) & Hkeep & Hclosed).
  exists mask', region. split; [exact Hff|]. split; [exact Hnd|]. split; [|split].
  - intros q. split; [intros Hq; apply (Hseen q Hq)|].
    induction 1 as [|a b _ IH Hn Hb Hmb].
    + apply Hkeep. left. reflexivity.
    + exact (Hclosed a b IH Hn Hb Hmb).
  - exact Hwf''.
  - intros q Hq. unfold is_in_region.
    destruct (existsb (fun r => Square_eqb r q) region) eqn:E.
    + apply existsb_exists in E as (r & Hr & E). apply Square_eqb_eq in E. subst r.
      apply (Hseen q Hr).
    + apply Hrest; [exact Hq|]. intros Hin.
      assert (E' : existsb (fun r => Square_eqb r q) region = true)
        by (apply existsb_exists; exists q; split; [exact Hin|apply Square_eqb_refl]).
      rewrite E in E'. discriminate.
Qed.

Lemma field_without_color_spec (b : Board) (color : CellState) :
  mask_wf (field_without_color b color)
  /\ forall q, is_on_board q = true ->
       mask_at (field_without_color b color) q
       = if CellState_eqb (cell b q) color then 0 else 1.
Proof.
  unfold field_without_color. split.
  - split; [rewrite length_map, length_seqZ; reflexivity|].
    apply Forall_forall. intros row Hrow. apply list_elem_of_In, in_map_iff in Hrow as (y & <- & _).
    rewrite length_map, length_seqZ. reflexivity.
  - intros [x y] Hq. apply is_on_board_iff in Hq. simpl in Hq. unfold mask_at. simpl.
    assert (Hx : x = 0 \/ x = 1 \/ x = 2 \/ x = 3 \/ x = 4
                 \/ x = 5 \/ x = 6 \/ x = 7 \/ x = 8 \/ x = 9) by lia.
    assert (Hy : y = 0 \/ y = 1 \/ y = 2 \/ y = 3 \/ y = 4
                 \/ y = 5 \/ y = 6 \/ y = 7 \/ y = 8 \/ y = 9) by lia.
    repeat (destruct Hx as [-> | Hx]); try subst x;
      repeat (destruct Hy as [-> | Hy]); try subst y;
      cbn [Z.to_nat Pos.to_nat Pos.iter_op Init.Nat.add seqZ List.map List.nth];
      simpl; destruct (CellState_eqb _ _); reflexivity.
Qed.

(** X23.  The flood fill of build_regions finds connected components.
    The mask a sweep starts from is a 10 x 10 array holding 1 exactly at
    the board cells that are not of the sweep's colour.  Started at a
    board cell the mask marks 1, the fill ends within the 100 iterations
    a board allows and returns each cell of the region once: exactly the
    cells reached from the start through steps to one of the eight
    neighbouring cells marked 1.  The mask it leaves is the old one with
    the region's cells cleared, so that no later fill of the sweep meets
    the region again. *)
Theorem flood_fill_component (b : Board) (color : CellState)
    (mask : list (list Z)) (start : Square) :
  (mask_wf (field_without_color b color)
   /\ forall q, is_on_board q = true ->
        mask_at (field_without_color b color) q
        = if CellState_eqb (cell b q) color then 0 else 1)
  /\ (mask_wf mask -> is_on_board start = true -> mask_at mask start = 1 ->
      exists mask' region,
        flood_fill 100 (mask_clear mask start) [start] [] = Ok (mask', region)
        /\ List.NoDup region
        /\ (forall q, In q region <-> connected mask start q)
        /\ mask_wf mask'
        /\ (forall q, is_on_board q = true ->
              mask_at mask' q = if is_in_region q region then 0 else mask_at mask q)).
Proof.
  split; [apply field_without_color_spec|apply flood_fill_connected].
Qed.

Lemma flood_fill_component_witness :
  mask_wf (field_without_color (board corner_pocket) BLACK)
  /\ is_on_board (mkSquare 0 0) = true
  /\ mask_at (field_without_color (board corner_pocket) BLACK) (mkSquare 0 0) = 1
  /\ exists mask',
       flood_fill 100
         (mask_clear (field_without_color (board corner_pocket) BLACK) (mkSquare 0 0))
         [mkSquare 0 0] [] = Ok (mask', [mkSquare 0 0])
       /\ forall q, connected (field_without_color (board corner_pocket) BLACK)
                      (mkSquare 0 0) q -> q = mkSquare 0 0.
Proof.
  destruct (flood_fill_component (board corner_pocket) BLACK
              (field_without_color (board corner_pocket) BLACK) (mkSquare 0 0))
    as [[Hwf _] Hfill].
  assert (Hon : is_on_board (mkSquare 0 0) = true) by reflexivity.
  assert (Hm : mask_at (field_without_color (board corner_pocket) BLACK) (mkSquare 0 0) = 1)
    by (vm_compute; reflexivity).
  destruct (Hfill Hwf Hon Hm) as (mask' & region & Hff & _ & Hiff & _).
  split; [exact Hwf|]. split; [exact Hon|]. split; [exact Hm|].
  assert (E : exists m1, flood_fill 100
                (mask_clear (field_without_color (board corner_pocket) BLACK) (mkSquare 0 0))
                [mkSquare 0 0] [] = Ok (m1, [mkSquare 0 0]))
    by (eexists; vm_compute; reflexivity).
  destruct E as (m1 & E). rewrite E in Hff. injection Hff as <- <-.
  exists m1. split; [exact E|].
  intros q Hq. apply Hiff in Hq. destruct Hq as [Hq|[]]. symmetry. exact Hq.
Defined.
